(** * web-eid.js: the pending-request protocol engine and the deep-link builder

    A shallow embedding of the class [WebExtensionService]
    ([src/services/WebExtensionService.ts]) and of the class [IntentUrl]
    ([src/models/IntentUrl.ts]).

    JavaScript strings are modelled by their UTF-8 bytes ([string]),
    optional fields by [option], numbers by [Z] (they are whole
    milliseconds and status codes), the pending queue by a [list], the
    timer table of the window and the promises handed to the callers by
    finite maps.  The service is a function from states to states for each
    of its methods; the page runs them in an event loop, one event at a
    time.  Thrown errors and rejected promises are sums.

    The repository holds two revisions of [publishMessage], which differ
    in the handlers of the polling request: the one that posts a failure
    message for every status but 200 is the one the service is built from
    here; the handlers of the other one follow it. *)

From stdpp Require Import base option list gmap strings pretty.
From Stdlib Require Import ZArith Ascii String.

Local Open Scope string_scope.

(** ** Strings: the two end-anchored alternations of the service *)

Module Regex.

(** [endsWith t s]: [t] is a suffix of [s]. *)
Definition endsWith (t s : string) : Prop := ∃ p, s = p +:+ t.

(** A regular expression [/l1$|l2$|.../] over literals, applied to [s]:
    the engine tries the start positions from left to right, and at each
    one the alternatives in order; because of the anchor a literal
    matches at a position exactly when it is the whole remainder.  The
    result is the text before the match and the matched literal. *)
Fixpoint matchAtEnd (lits : list string) (s : string) : option (string * string) :=
  if bool_decide (s ∈ lits) then Some (EmptyString, s)
  else match s with
       | EmptyString => None
       | String c s' =>
           match matchAtEnd lits s' with
           | Some (pre, lit) => Some (String c pre, lit)
           | None => None
           end
       end.

(** [s.replace(/l1$|l2$|.../, '')]: the first match is cut out. *)
Definition replaceAtEnd (lits : list string) (s : string) : string :=
  match matchAtEnd lits s with
  | Some (pre, _) => pre
  | None => s
  end.

(** [s.match(/l1$|l2$|.../)?.[0]] *)
Definition matchedAtEnd (lits : list string) (s : string) : option string :=
  snd <$> matchAtEnd lits s.

(** No literal is a proper suffix of another one. *)
Definition suffixFree (lits : list string) : Prop :=
  ∀ l1 l2 x, l1 ∈ lits → l2 ∈ lits → l1 = x +:+ l2 → x = EmptyString.

End Regex.

(** ** JavaScript values *)

(** The double quote and the backslash, by their character codes. *)
Definition dquote : string := String "034"%char EmptyString.
Definition backslash : string := String "092"%char EmptyString.

(** [if (x)] on an optional string: [undefined] and the empty string are
    falsy. *)
Definition truthy (o : option string) : bool :=
  match o with
  | Some s => negb (String.eqb s EmptyString)
  | None => false
  end.

(** [if (x)] on an optional number (whole milliseconds here): [undefined]
    and [0] are falsy. *)
Definition truthyNumber (o : option Z) : bool :=
  match o with
  | Some n => negb (Z.eqb n 0)
  | None => false
  end.

(** [x.startsWith(p)] *)
Definition startsWith (p x : string) : bool := String.prefix p x.

(** *** [encodeURIComponent] (ECMAScript 19.2.6.4) on the UTF-8 bytes of
    its argument: the unreserved marks, letters and digits are kept, every
    other byte becomes [%XX] with upper-case hexadecimal digits. *)

Definition uriUnescaped (c : ascii) : bool :=
  let n := nat_of_ascii c in
  (Nat.leb 65 n && Nat.leb n 90) || (Nat.leb 97 n && Nat.leb n 122)
  || (Nat.leb 48 n && Nat.leb n 57)
  || existsb (Ascii.eqb c) ["-"; "_"; "."; "!"; "~"; "*"; "'"; "("; ")"]%char.

Definition hexDigit (upper : bool) (n : nat) : ascii :=
  if Nat.ltb n 10 then ascii_of_nat (48 + n)
  else ascii_of_nat ((if upper then 55 else 87) + n).

Fixpoint encodeURIComponent (s : string) : string :=
  match s with
  | EmptyString => EmptyString
  | String c r =>
      if uriUnescaped c then String c (encodeURIComponent r)
      else
        let n := nat_of_ascii c in
        String "%" (String (hexDigit true (n / 16)) (String (hexDigit true (n mod 16))
          (encodeURIComponent r)))
  end.

(** *** [JSON.stringify] of an object with string values (ECMAScript
    25.5.2, QuoteJSONString).  The object is the list of its properties in
    enumeration order. *)

Definition quoteJSONChar (c : ascii) : string :=
  let n := nat_of_ascii c in
  if Nat.eqb n 34 then backslash +:+ dquote
  else if Nat.eqb n 92 then backslash +:+ backslash
  else if Nat.eqb n 8 then backslash +:+ "b"
  else if Nat.eqb n 12 then backslash +:+ "f"
  else if Nat.eqb n 10 then backslash +:+ "n"
  else if Nat.eqb n 13 then backslash +:+ "r"
  else if Nat.eqb n 9 then backslash +:+ "t"
  else if Nat.ltb n 32 then
    backslash +:+ "u00" +:+ String (hexDigit false (n / 16))
                              (String (hexDigit false (n mod 16)) EmptyString)
  else String c EmptyString.

Fixpoint quoteJSONBody (s : string) : string :=
  match s with
  | EmptyString => EmptyString
  | String c r => quoteJSONChar c +:+ quoteJSONBody r
  end.

Definition quoteJSONString (s : string) : string :=
  dquote +:+ quoteJSONBody s +:+ dquote.

Definition JSON_stringify (o : list (string * string)) : string :=
  "{" +:+ String.concat ","
            (map (λ kv, quoteJSONString kv.1 +:+ ":" +:+ quoteJSONString kv.2) o)
      +:+ "}".

(** ** Errors ([src/errors]) *)

Inductive Error : Type :=
  | ActionPendingError
  | ActionTimeoutError
  | ContextInsecureError
  | ExtensionUnavailableError
  | AuthAppNotInstalledError
  | ProtocolInsecureError (message : string)
  | MissingParameterError (message : string)
  | ServerRejectedError
  | ServerTimeoutError
  | UserCancelledError
  | UserPinError
  | UnknownError (message : string)
  | TypeError (message : string)
  | Thrown (message : string).

(** ** Messages ([src/models/Message]): the fields the service and the
    deep-link builder read. *)

Module Message.
Record t : Type := Build {
  action : string;
  error : option Error;
  useAuthApp : option bool;
  getAuthSuccessUrl : option string;
  getAuthChallengeUrl : option string;
  postAuthTokenUrl : option string;
  postPrepareSigningUrl : option string;
  postFinalizeSigningUrl : option string;
  applicationName : option string;
  actionDescription : option string;
  headers : option (list (string * string));
  userInteractionTimeout : option Z;
  serverRequestTimeout : option Z;
  lang : option string;
}.

(** [{ action: a }] *)
Definition ofAction (a : string) : t :=
  Build a None None None None None None None None None None None None None.

(** [{ action: a, error: e }] *)
Definition ofError (a : string) (e : Error) : t :=
  Build a (Some e) None None None None None None None None None None None None.
End Message.

Abbreviation Message := Message.t.

(** ** Configuration ([src/config]): the two constants the code reads. *)

Record Config : Type := {
  EXTENSION_HANDSHAKE_TIMEOUT : Z;
  AUTH_APP_INTENT_URL_BASE : string;
}.

(** ** The deep-link builder ([src/models/IntentUrl.ts]) *)

Module IntentUrl.

(** The instance fields.  [action] is declared a string, but [validate]
    compares it with [null], so it is optional here as well. *)
Record t : Type := Build {
  action : option string;
  getAuthChallengeUrl : option string;
  postAuthTokenUrl : option string;
  postPrepareSigningUrl : option string;
  postFinalizeSigningUrl : option string;
  applicationName : option string;
  actionDescription : option string;
  headers : option (list (string * string));
  userInteractionTimeout : option Z;
  serverRequestTimeout : option Z;
  lang : option string;
}.

(** [if (message.f) { this.f = message.f; }] *)
Definition copyIfTruthy (o : option string) : option string :=
  if truthy o then o else None.

Definition copyIfTruthyNumber (o : option Z) : option Z :=
  if truthyNumber o then o else None.

(** The assignments of the constructor, before [this.validate()]. *)
Definition assign (message : Message) : t := {|
  action := Some (Message.action message);
  getAuthChallengeUrl := copyIfTruthy (Message.getAuthChallengeUrl message);
  postAuthTokenUrl := copyIfTruthy (Message.postAuthTokenUrl message);
  headers := Message.headers message;
  postPrepareSigningUrl := copyIfTruthy (Message.postPrepareSigningUrl message);
  postFinalizeSigningUrl := copyIfTruthy (Message.postFinalizeSigningUrl message);
  applicationName := copyIfTruthy (Message.applicationName message);
  actionDescription := copyIfTruthy (Message.actionDescription message);
  userInteractionTimeout := copyIfTruthyNumber (Message.userInteractionTimeout message);
  serverRequestTimeout := copyIfTruthyNumber (Message.serverRequestTimeout message);
  lang := copyIfTruthy (Message.lang message);
|}.

(** [x == null] *)
Definition isNull {A} (o : option A) : bool :=
  match o with Some _ => false | None => true end.

(** [validate()]: [Some e] when it throws [e]. *)
Definition validate (u : t) : option Error :=
  if isNull (action u)
     || ((isNull (getAuthChallengeUrl u) || isNull (postAuthTokenUrl u))
         && (isNull (postFinalizeSigningUrl u) || isNull (postPrepareSigningUrl u)))
  then Some (MissingParameterError "Missing parameters for IntentUrl.")
  else None.

(** [new IntentUrl(message)] *)
Definition constructor (message : Message) : Error + t :=
  let this := assign message in
  match validate this with
  | Some e => inl e
  | None => inr this
  end.

(** [cond ? '&name=<quote>' + value + '<quote>' : ''], the quote being
    the double quote character *)
Definition param (cond : bool) (name value : string) : string :=
  if cond then "&" +:+ name +:+ "=" +:+ dquote +:+ value +:+ dquote else EmptyString.

(** An optional string or number converted to a string, as [+] does *)
Definition str (o : option string) : string := default "undefined" o.
Definition num (o : option Z) : string := default "undefined" (pretty <$> o).

(** [toString()], with [config.AUTH_APP_INTENT_URL_BASE] as [base]. *)
Definition toString (base : string) (u : t) : string :=
  let url := base in
  let url := url +:+ ("?action=" +:+ dquote +:+ str (action u) +:+ dquote) in
  let url := url +:+ param (truthy (getAuthChallengeUrl u)) "getAuthChallengeUrl"
                       (encodeURIComponent (str (getAuthChallengeUrl u))) in
  let url := url +:+ param (truthy (postAuthTokenUrl u)) "postAuthTokenUrl"
                       (encodeURIComponent (str (postAuthTokenUrl u))) in
  let url := url +:+ param (truthy (postPrepareSigningUrl u)) "postPrepareSigningUrl"
                       (encodeURIComponent (str (postPrepareSigningUrl u))) in
  let url := url +:+ param (truthy (postFinalizeSigningUrl u)) "postFinalizeSigningUrl"
                       (encodeURIComponent (str (postFinalizeSigningUrl u))) in
  let url := url +:+ param (truthy (applicationName u)) "applicationName"
                       (encodeURIComponent (str (applicationName u))) in
  let url := url +:+ param (truthy (actionDescription u)) "actionDescription"
                       (encodeURIComponent (str (actionDescription u))) in
  let url := url +:+ param (negb (isNull (headers u))) "headers"
                       (JSON_stringify (default [] (headers u))) in
  let url := url +:+ param (truthyNumber (userInteractionTimeout u)) "userInteractionTimeout"
                       (num (userInteractionTimeout u)) in
  let url := url +:+ param (truthyNumber (serverRequestTimeout u)) "serverRequestTimeout"
                       (num (serverRequestTimeout u)) in
  let url := url +:+ param (truthy (lang u)) "lang" (str (lang u)) in
  url.

End IntentUrl.


(** ** Actions

    Modelled from the spec: [src/models/Action] is missing.  The spec gives
    the operation kinds AUTHENTICATE, SIGN and STATUS, each with the four
    textual variants base, [-ack], [-success] and [-failure], under the
    fixed namespace prefix [web-eid:]. *)

Module Action.
Definition AUTHENTICATE : string := "web-eid:authenticate".
Definition AUTHENTICATE_ACK : string := "web-eid:authenticate-ack".
Definition AUTHENTICATE_SUCCESS : string := "web-eid:authenticate-success".
Definition AUTHENTICATE_FAILURE : string := "web-eid:authenticate-failure".
Definition SIGN : string := "web-eid:sign".
Definition SIGN_ACK : string := "web-eid:sign-ack".
Definition SIGN_SUCCESS : string := "web-eid:sign-success".
Definition SIGN_FAILURE : string := "web-eid:sign-failure".
Definition STATUS : string := "web-eid:status".
Definition STATUS_ACK : string := "web-eid:status-ack".
Definition STATUS_SUCCESS : string := "web-eid:status-success".
Definition STATUS_FAILURE : string := "web-eid:status-failure".

(** The base actions. *)
Definition base : list string := [AUTHENTICATE; SIGN; STATUS].
End Action.

(** ** The state of the page and of the service *)

(** A pending request ([src/models/PendingMessage]).  The object is
    created by [send] and never changed once [send] has run; its promise
    (with the [resolve] and [reject] functions of that promise) is named by
    its allocation index, a timer by the handle [setTimeout] returned. *)
Record PendingMessage : Type := {
  message : Message;
  promise : nat;
  ackTimer : nat;
  replyTimer : nat;
}.

(** How a promise was settled. *)
Inductive Settlement : Type :=
  | Resolved (value : Message)
  | Rejected (reason : Error)
  | RejectedWithMessage (reason : Message).

(** The closures handed to [setTimeout]. *)
Inductive Callback : Type :=
  | AckTimeout (pending : PendingMessage)
  | ReplyTimeout (pending : PendingMessage)
  | DetachListener.

Record Timer : Type := {
  due : Z;
  callback : Callback;
}.

(** The options of the polling request, and the request itself: [listener]
    is the message closed over by the [response] and [error] handlers, once
    they are attached. *)
Record RequestOptions : Type := {
  host : string;
  port : string;
  path : string;
  method : string;
  requestHeaders : option (list (string * string));
  requestTimeout : Z;
}.

Record ClientRequest : Type := {
  options : RequestOptions;
  listener : option Message;
}.

(** The handlers that ran, per request (ghost state: the code keeps no
    such record). *)
Inductive Transition : Type :=
  | TAck
  | TSuccess
  | TFailure
  | TAckTimeout
  | TReplyTimeout.

Record State : Type := {
  queue : list PendingMessage;     (* this.queue *)
  timers : gmap nat Timer;         (* the armed timers of the window *)
  nextTimer : nat;                 (* the next handle of setTimeout *)
  promises : gmap nat Settlement;  (* the settled promises *)
  nextPromise : nat;               (* the next promise to be created *)
  now : Z;                         (* the clock, in milliseconds *)
  bus : list Message;              (* posted, not yet delivered *)
  requests : list ClientRequest;   (* the https.get calls *)
  listeners : list Message;        (* visibilitychange listeners, by their message *)
  href : option string;            (* the last assignment to location.href *)
  canvas : option string;          (* the markup put into the canvas element *)
  alerts : list string;            (* the alert calls *)
  trace : list (nat * Transition); (* ghost: handlers run, by promise *)
}.

Definition initial : State := {|
  queue := []; timers := ∅; nextTimer := 1; promises := ∅; nextPromise := 0;
  now := 0; bus := []; requests := []; listeners := []; href := None;
  canvas := None; alerts := []; trace := [];
|}.

(** *** Field updates *)

Definition setQueue (q : list PendingMessage) (s : State) : State :=
  {| queue := q; timers := timers s; nextTimer := nextTimer s; promises := promises s;
     nextPromise := nextPromise s; now := now s; bus := bus s; requests := requests s;
     listeners := listeners s; href := href s; canvas := canvas s; alerts := alerts s;
     trace := trace s |}.

Definition setTimers (t : gmap nat Timer) (s : State) : State :=
  {| queue := queue s; timers := t; nextTimer := nextTimer s; promises := promises s;
     nextPromise := nextPromise s; now := now s; bus := bus s; requests := requests s;
     listeners := listeners s; href := href s; canvas := canvas s; alerts := alerts s;
     trace := trace s |}.

Definition setNextTimer (n : nat) (s : State) : State :=
  {| queue := queue s; timers := timers s; nextTimer := n; promises := promises s;
     nextPromise := nextPromise s; now := now s; bus := bus s; requests := requests s;
     listeners := listeners s; href := href s; canvas := canvas s; alerts := alerts s;
     trace := trace s |}.

Definition setPromises (p : gmap nat Settlement) (s : State) : State :=
  {| queue := queue s; timers := timers s; nextTimer := nextTimer s; promises := p;
     nextPromise := nextPromise s; now := now s; bus := bus s; requests := requests s;
     listeners := listeners s; href := href s; canvas := canvas s; alerts := alerts s;
     trace := trace s |}.

Definition setNextPromise (n : nat) (s : State) : State :=
  {| queue := queue s; timers := timers s; nextTimer := nextTimer s; promises := promises s;
     nextPromise := n; now := now s; bus := bus s; requests := requests s;
     listeners := listeners s; href := href s; canvas := canvas s; alerts := alerts s;
     trace := trace s |}.

Definition setNow (t : Z) (s : State) : State :=
  {| queue := queue s; timers := timers s; nextTimer := nextTimer s; promises := promises s;
     nextPromise := nextPromise s; now := t; bus := bus s; requests := requests s;
     listeners := listeners s; href := href s; canvas := canvas s; alerts := alerts s;
     trace := trace s |}.

Definition setBus (b : list Message) (s : State) : State :=
  {| queue := queue s; timers := timers s; nextTimer := nextTimer s; promises := promises s;
     nextPromise := nextPromise s; now := now s; bus := b; requests := requests s;
     listeners := listeners s; href := href s; canvas := canvas s; alerts := alerts s;
     trace := trace s |}.

Definition setRequests (r : list ClientRequest) (s : State) : State :=
  {| queue := queue s; timers := timers s; nextTimer := nextTimer s; promises := promises s;
     nextPromise := nextPromise s; now := now s; bus := bus s; requests := r;
     listeners := listeners s; href := href s; canvas := canvas s; alerts := alerts s;
     trace := trace s |}.

Definition setListeners (l : list Message) (s : State) : State :=
  {| queue := queue s; timers := timers s; nextTimer := nextTimer s; promises := promises s;
     nextPromise := nextPromise s; now := now s; bus := bus s; requests := requests s;
     listeners := l; href := href s; canvas := canvas s; alerts := alerts s;
     trace := trace s |}.

Definition setHref (h : option string) (s : State) : State :=
  {| queue := queue s; timers := timers s; nextTimer := nextTimer s; promises := promises s;
     nextPromise := nextPromise s; now := now s; bus := bus s; requests := requests s;
     listeners := listeners s; href := h; canvas := canvas s; alerts := alerts s;
     trace := trace s |}.

Definition setCanvas (c : option string) (s : State) : State :=
  {| queue := queue s; timers := timers s; nextTimer := nextTimer s; promises := promises s;
     nextPromise := nextPromise s; now := now s; bus := bus s; requests := requests s;
     listeners := listeners s; href := href s; canvas := c; alerts := alerts s;
     trace := trace s |}.

Definition setAlerts (a : list string) (s : State) : State :=
  {| queue := queue s; timers := timers s; nextTimer := nextTimer s; promises := promises s;
     nextPromise := nextPromise s; now := now s; bus := bus s; requests := requests s;
     listeners := listeners s; href := href s; canvas := canvas s; alerts := a;
     trace := trace s |}.

Definition setTrace (t : list (nat * Transition)) (s : State) : State :=
  {| queue := queue s; timers := timers s; nextTimer := nextTimer s; promises := promises s;
     nextPromise := nextPromise s; now := now s; bus := bus s; requests := requests s;
     listeners := listeners s; href := href s; canvas := canvas s; alerts := alerts s;
     trace := t |}.

(** *** The browser *)

(** [window.setTimeout(callback, delay)]: the handle, and the state with
    the timer armed. *)
Definition setTimeout (cb : Callback) (delay : Z) (s : State) : nat * State :=
  let handle := nextTimer s in
  (handle,
   setNextTimer (S handle)
     (setTimers (<[handle := {| due := (now s + delay)%Z; callback := cb |}]> (timers s)) s)).

(** [clearTimeout(handle)] *)
Definition clearTimeout (handle : nat) (s : State) : State :=
  setTimers (delete handle (timers s)) s.

(** [window.postMessage(message, origin)] to the window itself *)
Definition postMessage (m : Message) (s : State) : State :=
  setBus (bus s ++ [m]) s.

(** [alert(text)] *)
Definition alert (text : string) (s : State) : State :=
  setAlerts (alerts s ++ [text]) s.

(** The resolving functions of a promise: the first call settles it, the
    later ones do nothing. *)
Definition settle (p : nat) (v : Settlement) (s : State) : State :=
  match promises s !! p with
  | Some _ => s
  | None => setPromises (<[p := v]> (promises s)) s
  end.

(** The ghost record of a handler run. *)
Definition logTransition (p : PendingMessage) (t : Transition) (s : State) : State :=
  setTrace (trace s ++ [(promise p, t)]) s.

(** What the page and the libraries outside [src] contribute. *)
Record Env : Type := {
  isSecureContext : bool;                   (* window.isSecureContext *)
  isAndroidDevice : bool;                   (* isAndroidDevice() of web-eid.ts *)
  deserializeError : Error → Error;         (* utils/errorSerializer *)
  renderQR : string → Error + string;       (* QrCode.encodeText, then toSvgString *)
  hasCanvas : bool;                         (* document.getElementById("canvas") *)
  parseURL : string → Error + (string * string * string);
                                            (* new URL: hostname, port, pathname *)
}.

(** ** The service ([WebExtensionService]) *)

Section Service.

Variable config : Config.
Variable env : Env.

(** [getPendingMessage(action)] *)
Definition getPendingMessage (action : string) (s : State) : option PendingMessage :=
  find (λ pm, bool_decide (Message.action (message pm) = action)) (queue s).

(** [getInitialAction(action)] *)
Definition getInitialAction (action : string) : string :=
  Regex.replaceAtEnd ["-success"; "-failure"; "-ack"] action.

(** [clearTimeout(pending?.replyTimer)] *)
Definition clearReplyTimer (pending : option PendingMessage) (s : State) : State :=
  match pending with
  | Some p => clearTimeout (replyTimer p) s
  | None => s
  end.

(** [removeFromQueue(action)] *)
Definition removeFromQueue (action : string) (s : State) : State :=
  let pending := getPendingMessage action s in
  let s := clearReplyTimer pending s in
  setQueue (filter (λ pending, Message.action (message pending) ≠ action) (queue s)) s.

(** [pending.resolve?.(value)] and [pending.reject?.(reason)] *)
Definition resolve (pending : PendingMessage) (value : Message) (s : State) : State :=
  settle (promise pending) (Resolved value) s.

Definition reject (pending : PendingMessage) (reason : Error) (s : State) : State :=
  settle (promise pending) (Rejected reason) s.

Definition rejectWithMessage (pending : PendingMessage) (reason : Message) (s : State)
  : State :=
  settle (promise pending) (RejectedWithMessage reason) s.

(** [onReplyTimeout(pending)] *)
Definition onReplyTimeout (pending : PendingMessage) (s : State) : State :=
  let s := logTransition pending TReplyTimeout s in
  let s := reject pending ActionTimeoutError s in
  removeFromQueue (Message.action (message pending)) s.

(** [onAckTimeout(pending)] *)
Definition onAckTimeout (pending : PendingMessage) (s : State) : State :=
  let s := logTransition pending TAckTimeout s in
  let s :=
    if bool_decide (Message.useAuthApp (message pending) = Some true)
    then reject pending AuthAppNotInstalledError s
    else reject pending ExtensionUnavailableError s in
  let s := removeFromQueue (Message.action (message pending)) s in
  clearTimeout (replyTimer pending) s.

(** [receive(event)], on [event.data] *)
Definition receive (message : Message) (s : State) : State :=
  if negb (startsWith "web-eid:" (Message.action message)) then s
  else
    let suffix := Regex.matchedAtEnd ["success"; "failure"; "ack"] (Message.action message) in
    let initialAction := getInitialAction (Message.action message) in
    match getPendingMessage initialAction s with
    | None => s
    | Some pending =>
        if bool_decide (suffix = Some "ack") then
          let s := logTransition pending TAck s in
          clearTimeout (ackTimer pending) s
        else if bool_decide (suffix = Some "success") then
          let s := logTransition pending TSuccess s in
          let s := resolve pending message s in
          removeFromQueue initialAction s
        else if bool_decide (suffix = Some "failure") then
          let s := logTransition pending TFailure s in
          let s :=
            match Message.error message with
            | Some e => reject pending (deserializeError env e) s
            | None => rejectWithMessage pending message s
            end in
          removeFromQueue initialAction s
        else s
    end.

(** [getRelevantAckAction(message)] *)
Definition getRelevantAckAction (message : Message) : string :=
  let a := Message.action message in
  if bool_decide (a = Action.AUTHENTICATE) then Action.AUTHENTICATE_ACK
  else if bool_decide (a = Action.SIGN) then Action.SIGN_ACK
  else if bool_decide (a = Action.STATUS) then Action.STATUS_ACK
  else Action.STATUS_ACK.

(** [getRelevantSuccessAction(message)] *)
Definition getRelevantSuccessAction (message : Message) : string :=
  let a := Message.action message in
  if bool_decide (a = Action.AUTHENTICATE) then Action.AUTHENTICATE_SUCCESS
  else if bool_decide (a = Action.SIGN) then Action.SIGN_SUCCESS
  else if bool_decide (a = Action.STATUS) then Action.STATUS_SUCCESS
  else Action.STATUS_SUCCESS.

(** [getRelevantErrorAction(message)] *)
Definition getRelevantErrorAction (message : Message) : string :=
  let a := Message.action message in
  if bool_decide (a = Action.AUTHENTICATE) then Action.AUTHENTICATE_FAILURE
  else if bool_decide (a = Action.SIGN) then Action.SIGN_FAILURE
  else if bool_decide (a = Action.STATUS) then Action.STATUS_FAILURE
  else Action.STATUS_FAILURE.

(** The [visibilitychange] listener [sendAckMessage] of [launchAuthApp].
    The timer it arms calls [removeEventListener] with the function
    [sendAckMessage] itself, while the listener that was added is the
    function bound to the service: nothing is detached. *)
Definition sendAckMessage (hidden : bool) (s : State) (message : Message) : State :=
  if hidden then
    let s := postMessage (Message.ofAction (getRelevantAckAction message)) s in
    snd (setTimeout DetachListener (EXTENSION_HANDSHAKE_TIMEOUT config) s)
  else s.

(** [launchAuthApp(message)]: [inl e] when it throws [e]. *)
Definition launchAuthApp (message : Message) (s : State) : Error + State :=
  match IntentUrl.constructor message with
  | inl e => inl e
  | inr intentUrl =>
      let s := setListeners (listeners s ++ [message]) s in
      inr (setHref (Some (IntentUrl.toString (AUTH_APP_INTENT_URL_BASE config) intentUrl)) s)
  end.

(** [displayQRCode(message)] *)
Definition displayQRCode (message : Message) (s : State) : Error + State :=
  match IntentUrl.constructor message with
  | inl e => inl e
  | inr intentUrl =>
      match renderQR env (IntentUrl.toString (AUTH_APP_INTENT_URL_BASE config) intentUrl) with
      | inl e => inl e
      | inr svg =>
          let s := if hasCanvas env then setCanvas (Some svg) s else s in
          inr (postMessage (Message.ofAction (getRelevantAckAction message)) s)
      end
  end.

(** [pollForLoginSuccess(message, timeout)]: the error the returned promise
    is rejected with, or the index of the request [https.get] made. *)
Definition pollForLoginSuccess (message : Message) (timeout : Z) (s : State)
  : (Error + nat) * State :=
  if truthy (Message.getAuthSuccessUrl message) then
    let url := default EmptyString (Message.getAuthSuccessUrl message) in
    if negb (startsWith "https://" url) then
      (inl (ProtocolInsecureError ("HTTPS required for getAuthSuccessUrl " +:+ url)), s)
    else
      match parseURL env url with
      | inl e => (inl e, s)
      | inr (hostname, portNumber, pathname) =>
          let options := {| host := hostname; port := portNumber; path := pathname;
                            method := "GET";
                            requestHeaders := Message.headers message;
                            requestTimeout := timeout |} in
          (inr (List.length (requests s)),
           setRequests (requests s ++ [{| options := options; listener := None |}]) s)
      end
  else
    (inl (MissingParameterError
            "getAuthSuccessUrl missing for Android auth app authentication option."), s).

(** [req.on("response", ...).on("error", ...)] in the callback of
    [pollForLoginSuccess(...).then] *)
Definition attachHandlers (req : nat) (message : Message) (s : State) : State :=
  setRequests (alter (λ r, {| options := options r; listener := Some message |}) req
                 (requests s)) s.

(** The error a response status stands for (the [switch] of the
    [response] handler). *)
Definition statusError (statusCode : Z) : Error :=
  if Z.eqb statusCode 400 then MissingParameterError "A parameter is missing!"
  else if Z.eqb statusCode 403 then ServerRejectedError
  else if Z.eqb statusCode 408 then ServerTimeoutError
  else if Z.eqb statusCode 444 then UserCancelledError
  else if Z.eqb statusCode 449 then UserPinError
  else UnknownError ("Error code: " +:+ pretty statusCode).

(** The [response] handler of the polling request *)
Definition onResponse (message : Message) (statusCode : Z) (s : State) : State :=
  if Z.eqb statusCode 200 then
    postMessage (Message.ofAction (getRelevantSuccessAction message)) s
  else
    let error := statusError statusCode in
    postMessage (Message.ofError (getRelevantErrorAction message) error) s.

(** The [error] handler of the polling request *)
Definition onError (message : Message) (s : State) : State :=
  postMessage (Message.ofError (getRelevantErrorAction message) ServerRejectedError) s.

(** [publishMessage(message, timeout)]: [inl e] when it throws [e].  A
    rejection of the promise of [pollForLoginSuccess] has no handler. *)
Definition publishMessage (message : Message) (timeout : Z) (s : State) : Error + State :=
  if bool_decide (Message.useAuthApp message = Some true) then
    match (if isAndroidDevice env then launchAuthApp message s
           else displayQRCode message s) with
    | inl e => inl e
    | inr s =>
        match pollForLoginSuccess message timeout s with
        | (inl _, s) => inr s
        | (inr req, s) => inr (attachHandlers req message s)
        end
    end
  else
    inr (postMessage message s).

(** What a call of [send] gives back. *)
Inductive SendResult : Type :=
  | Returns (promise : nat)        (* pending.promise *)
  | ReturnsRejected (e : Error)    (* Promise.reject(e) *)
  | Throws (e : Error).

(** [send(message, timeout)] *)
Definition send (message : Message) (timeout : Z) (s : State) : SendResult * State :=
  match getPendingMessage (Message.action message) s with
  | Some _ => (ReturnsRejected ActionPendingError, s)
  | None =>
      if negb (isSecureContext env) then (ReturnsRejected ContextInsecureError, s)
      else
        let pending := {| message := message; promise := nextPromise s;
                          ackTimer := nextTimer s; replyTimer := S (nextTimer s) |} in
        let s := setQueue (queue s ++ [pending]) s in
        let s := setNextPromise (S (nextPromise s)) s in
        let s := snd (setTimeout (AckTimeout pending)
                        (EXTENSION_HANDSHAKE_TIMEOUT config) s) in
        let s := snd (setTimeout (ReplyTimeout pending) timeout s) in
        match publishMessage message timeout s with
        | inl e => (Throws e, s)
        | inr s => (Returns (promise pending), s)
        end
  end.

(** *** The event loop *)

(** A timer fires: it leaves the table and its callback runs. *)
Definition fire (handle : nat) (s : State) : State :=
  match timers s !! handle with
  | None => s
  | Some t =>
      let s := setNow (Z.max (now s) (due t)) (setTimers (delete handle (timers s)) s) in
      match callback t with
      | AckTimeout pending => onAckTimeout pending s
      | ReplyTimeout pending => onReplyTimeout pending s
      | DetachListener => s
      end
  end.

(** The armed timer that is due first (the older one among equals). *)
Definition earlier (a b : nat * Timer) : bool :=
  Z.ltb (due a.2) (due b.2) || (Z.eqb (due a.2) (due b.2) && Nat.leb a.1 b.1).

Definition earliest (s : State) : option (nat * Timer) :=
  foldr (λ a acc, match acc with
                  | Some b => if earlier a b then Some a else Some b
                  | None => Some a
                  end) None (map_to_list (timers s)).

(** The timers due up to [deadline] fire in turn. *)
Fixpoint fireDue (fuel : nat) (deadline : Z) (s : State) : State :=
  match fuel with
  | O => s
  | S fuel =>
      match earliest s with
      | Some (handle, t) =>
          if Z.leb (due t) deadline then fireDue fuel deadline (fire handle s) else s
      | None => s
      end
  end.

(** [ms] milliseconds pass with no other event. *)
Definition elapse (ms : Z) (s : State) : State :=
  let deadline := (now s + ms)%Z in
  setNow deadline (fireDue (size (timers s)) deadline s).

(** What can happen to the page. *)
Inductive Event : Type :=
  | ESend (message : Message) (timeout : Z)   (* a call of send *)
  | EReceive (message : Message)              (* a message event from another poster *)
  | EDispatch                                 (* the oldest posted message is delivered *)
  | EFire (handle : nat)                      (* an armed timer fires *)
  | EElapse (ms : Z)                          (* time passes *)
  | EResponse (req : nat) (statusCode : Z)    (* a polling request is answered *)
  | ERequestError (req : nat)                 (* a polling request fails *)
  | EVisibilityChange (hidden : bool).        (* the page is hidden or shown *)

Definition step (s : State) (e : Event) : State :=
  match e with
  | ESend message timeout => snd (send message timeout s)
  | EReceive message => receive message s
  | EDispatch =>
      match bus s with
      | [] => s
      | message :: rest => receive message (setBus rest s)
      end
  | EFire handle => fire handle s
  | EElapse ms => elapse ms s
  | EResponse req statusCode =>
      match requests s !! req with
      | Some {| listener := Some message |} => onResponse message statusCode s
      | _ => s
      end
  | ERequestError req =>
      match requests s !! req with
      | Some {| listener := Some message |} => onError message s
      | _ => s
      end
  | EVisibilityChange hidden => foldl (sendAckMessage hidden) s (listeners s)
  end.

Definition run (events : list Event) (s : State) : State := foldl step s events.

(** *** The response handlers of [src/services/WebExtensionService.ts]

    The file under [src/services] reacts to the answer of the polling
    request in another way than the revision above: a status other than
    200 is shown with [alert] and the request is taken off the queue. *)

(** [displayRelevantError(errorCode)] *)
Definition displayRelevantError (errorCode : Z) (s : State) : State :=
  if Z.eqb errorCode 400 then alert "Parameter missing." s
  else if Z.eqb errorCode 408 then alert "User actions timed out." s
  else if Z.eqb errorCode 444 then alert "User cancelled action." s
  else if Z.eqb errorCode 449 then alert "Invalid PIN or CAN." s
  else alert "Authentication failed." s.

(** The [response] handler of that file *)
Definition onResponseAlerting (message : Message) (statusCode : Z) (s : State) : State :=
  if Z.eqb statusCode 200 then
    postMessage (Message.ofAction (getRelevantSuccessAction message)) s
  else
    let s := displayRelevantError statusCode s in
    removeFromQueue (Message.action message) s.

(** The [error] handler of that file; the rejected promise it returns
    goes to nobody. *)
Definition onErrorAlerting (message : Message) (s : State) : State :=
  removeFromQueue (Message.action message) s.

End Service.

(** ** Notions the statements below are written with *)

(** The three suffixes an action carries on its way back. *)
Definition replySuffixes : list string := ["-success"; "-failure"; "-ack"].

(** A field of a message is present when the code's test [if (message.f)]
    passes: it is set, and not to the empty string. *)
Definition present (o : option string) : Prop := truthy o = true.

(** One of the two pairs of addresses a deep link needs is complete. *)
Definition pairComplete (m : Message) : Prop :=
  (present (Message.getAuthChallengeUrl m) ∧ present (Message.postAuthTokenUrl m))
  ∨ (present (Message.postPrepareSigningUrl m) ∧ present (Message.postFinalizeSigningUrl m)).





(** The registry key of a pending request: the action of its message. *)
Definition baseAction (p : PendingMessage) : string := Message.action (message p).

(** A timer of the request is armed. *)
Definition armedAck (s : State) (p : PendingMessage) : Prop :=
  ∃ d, timers s !! ackTimer p = Some {| due := d; callback := AckTimeout p |}.

Definition armedReply (s : State) (p : PendingMessage) : Prop :=
  ∃ d, timers s !! replyTimer p = Some {| due := d; callback := ReplyTimeout p |}.

(** The requests the state still refers to: in the queue, or closed over
    by an armed timer. *)
Definition known (s : State) (p : PendingMessage) : Prop :=
  p ∈ queue s
  ∨ ∃ h t, timers s !! h = Some t ∧ (callback t = AckTimeout p ∨ callback t = ReplyTimeout p).

(** What holds of the queue, the timers and the promises in every state
    the service can be in. *)
Record Inv (s : State) : Prop := {
  inv_nodup : NoDup (map baseAction (queue s));
  inv_fresh : ∀ p, known s p → (promise p < nextPromise s)%nat;
  inv_settled : ∀ i v, promises s !! i = Some v → (i < nextPromise s)%nat;
  inv_unique : ∀ p q, known s p → known s q → promise p = promise q → p = q;
  inv_handles : ∀ h t p, timers s !! h = Some t →
      (callback t = AckTimeout p → ackTimer p = h)
      ∧ (callback t = ReplyTimeout p → replyTimer p = h);
  inv_distinct : ∀ p, known s p → ackTimer p ≠ replyTimer p;
  inv_unsettled : ∀ p, p ∈ queue s → promises s !! promise p = None;
  inv_reply : ∀ h t p, timers s !! h = Some t → callback t = ReplyTimeout p → p ∈ queue s;
}.

(** [s'] is [s] after the request [p] was settled (if it was not yet) and
    taken off the queue with all the entries of its action, and the reply
    timer of the entry found for that action was cleared. *)
Record Retires (s s' : State) (p : PendingMessage) : Prop := {
  ret_queue : queue s' = filter (λ q, baseAction q ≠ baseAction p) (queue s);
  ret_next : nextPromise s' = nextPromise s;
  ret_promises : ∃ v, promises s' = promises (settle (promise p) v s);
  ret_timers : ∀ h t, timers s' !! h = Some t → timers s !! h = Some t;
  ret_reply : ∀ q, getPendingMessage (baseAction p) s = Some q →
      timers s' !! replyTimer q = None;
}.

(** Counting the handlers that ran for a promise. *)
Definition isTerminal (t : Transition) : bool :=
  match t with
  | TAck => false
  | _ => true
  end.

Definition isAckTimeout (t : Transition) : bool :=
  match t with
  | TAckTimeout => true
  | _ => false
  end.

Definition isSettling (t : Transition) : bool :=
  match t with
  | TSuccess | TFailure | TReplyTimeout => true
  | _ => false
  end.

Definition isAck (t : Transition) : bool :=
  match t with
  | TAck => true
  | _ => false
  end.

Definition countOf (kind : Transition → bool) (i : nat) (tr : list (nat * Transition))
  : nat :=
  List.length (List.filter (λ e, Nat.eqb e.1 i && kind e.2) tr).

(** What holds of the ghost trace in every state. *)
Record TraceInv (s : State) : Prop := {
  tr_fresh : ∀ i k, (nextPromise s ≤ i)%nat → countOf k i (trace s) = 0;
  tr_settling : ∀ i, (countOf isSettling i (trace s) ≤ 1)%nat;
  tr_ack_timeout : ∀ i, (countOf isAckTimeout i (trace s) ≤ 1)%nat;
  tr_retired : ∀ i p, (1 ≤ countOf isTerminal i (trace s))%nat → promise p = i →
      (p ∉ queue s)
      ∧ (∀ h t, timers s !! h = Some t → callback t ≠ ReplyTimeout p);
  tr_ack_disarmed : ∀ i p,
      (1 ≤ countOf isAckTimeout i (trace s))%nat ∨ (1 ≤ countOf isAck i (trace s))%nat →
      promise p = i → ∀ h t, timers s !! h = Some t → callback t ≠ AckTimeout p;
  tr_acked : ∀ i, (1 ≤ countOf isAck i (trace s))%nat →
      countOf isAckTimeout i (trace s) = 0;
  tr_settled : ∀ i, (1 ≤ countOf isTerminal i (trace s))%nat ↔ is_Some (promises s !! i);
}.

(** The state [send] builds before it publishes the message. *)
Definition registered (config : Config) (m : Message) (timeout : Z) (s : State) : State :=
  let pending := {| message := m; promise := nextPromise s;
                    ackTimer := nextTimer s; replyTimer := S (nextTimer s) |} in
  let s := setQueue (queue s ++ [pending]) s in
  let s := setNextPromise (S (nextPromise s)) s in
  let s := snd (setTimeout (AckTimeout pending) (EXTENSION_HANDSHAKE_TIMEOUT config) s) in
  snd (setTimeout (ReplyTimeout pending) timeout s).


(** The words [receive] classifies a message by. *)
Definition replyWords : list string := ["success"; "failure"; "ack"].

(** ** Concrete inputs *)

(** A message with the challenge address only, and one with the pair. *)
Definition onlyChallenge : Message :=
  {| Message.action := "web-eid:authenticate"; Message.error := None;
     Message.useAuthApp := Some true; Message.getAuthSuccessUrl := None;
     Message.getAuthChallengeUrl := Some "https://rp.example/challenge";
     Message.postAuthTokenUrl := None;
     Message.postPrepareSigningUrl := None; Message.postFinalizeSigningUrl := None;
     Message.applicationName := None; Message.actionDescription := None;
     Message.headers := None; Message.userInteractionTimeout := None;
     Message.serverRequestTimeout := None; Message.lang := None |}.

Definition authPair : Message :=
  {| Message.action := "web-eid:authenticate"; Message.error := None;
     Message.useAuthApp := Some true;
     Message.getAuthSuccessUrl := Some "https://rp.example/status";
     Message.getAuthChallengeUrl := Some "https://rp.example/challenge";
     Message.postAuthTokenUrl := Some "https://rp.example/login";
     Message.postPrepareSigningUrl := None; Message.postFinalizeSigningUrl := None;
     Message.applicationName := None; Message.actionDescription := None;
     Message.headers := Some [("X-Id", "7")]; Message.userInteractionTimeout := None;
     Message.serverRequestTimeout := None; Message.lang := None |}.

(** A request to the browser extension. *)
Definition authenticate : Message := Message.ofAction "web-eid:authenticate".

Definition exampleConfig : Config :=
  {| EXTENSION_HANDSHAKE_TIMEOUT := 1000;
     AUTH_APP_INTENT_URL_BASE := "https://app.example/open" |}.

Definition exampleEnv : Env :=
  {| isSecureContext := true;
     isAndroidDevice := false;
     deserializeError := id;
     renderQR := λ text, inr ("<svg>" +:+ text +:+ "</svg>");
     hasCanvas := true;
     parseURL := λ url, inr ("rp.example", "443", "/status") |}.

Definition authenticateAck : Message := Message.ofAction "web-eid:authenticate-ack".

Definition authenticateSuccess : Message := Message.ofAction "web-eid:authenticate-success".

(** The pending request a first [send] of [authenticate] creates. *)
Definition firstPending : PendingMessage :=
  {| message := authenticate; promise := 0; ackTimer := 1; replyTimer := 2 |}.

(** ** More concrete inputs *)

(** A page outside a secure context, and an Android device. *)
Definition insecureEnv : Env :=
  {| isSecureContext := false;
     isAndroidDevice := false;
     deserializeError := id;
     renderQR := λ text, inr ("<svg>" +:+ text +:+ "</svg>");
     hasCanvas := true;
     parseURL := λ url, inr ("rp.example", "443", "/status") |}.

Definition androidEnv : Env :=
  {| isSecureContext := true;
     isAndroidDevice := true;
     deserializeError := id;
     renderQR := λ text, inr ("<svg>" +:+ text +:+ "</svg>");
     hasCanvas := true;
     parseURL := λ url, inr ("rp.example", "443", "/status") |}.

(** A request of the mobile flow with no address to poll. *)
Definition authPairNoStatus : Message :=
  {| Message.action := "web-eid:authenticate"; Message.error := None;
     Message.useAuthApp := Some true;
     Message.getAuthSuccessUrl := None;
     Message.getAuthChallengeUrl := Some "https://rp.example/challenge";
     Message.postAuthTokenUrl := Some "https://rp.example/login";
     Message.postPrepareSigningUrl := None; Message.postFinalizeSigningUrl := None;
     Message.applicationName := None; Message.actionDescription := None;
     Message.headers := None; Message.userInteractionTimeout := None;
     Message.serverRequestTimeout := None; Message.lang := None |}.

(** The pending request a second [send] of [authenticate] creates. *)
Definition secondPending : PendingMessage :=
  {| message := authenticate; promise := 1; ackTimer := 3; replyTimer := 4 |}.

(** The pending request [send] creates in the state [s]. *)
Definition newPending (m : Message) (s : State) : PendingMessage :=
  {| message := m; promise := nextPromise s;
     ackTimer := nextTimer s; replyTimer := S (nextTimer s) |}.

(** The text [displayRelevantError] shows for a status. *)
Definition alertText (statusCode : Z) : string :=
  if Z.eqb statusCode 400 then "Parameter missing."
  else if Z.eqb statusCode 408 then "User actions timed out."
  else if Z.eqb statusCode 444 then "User cancelled action."
  else if Z.eqb statusCode 449 then "Invalid PIN or CAN."
  else "Authentication failed.".

(** The timer handles of the requests a state refers to were handed out
    before, and the ack handle of one is never the reply handle of one. *)
Record HandleInv (s : State) : Prop := {
  hi_bound : ∀ p, known s p →
      (ackTimer p < nextTimer s)%nat ∧ (replyTimer p < nextTimer s)%nat;
  hi_apart : ∀ p q, known s p → known s q → ackTimer p ≠ replyTimer q;
}.

(** [s'] has no entry and no timer of a request that [s] has not, and no
    handle of [s] is free again in [s']. *)
Record Shrinks (s s' : State) : Prop := {
  sh_queue : ∀ q, q ∈ queue s' → q ∈ queue s;
  sh_timers : ∀ h t, timers s' !! h = Some t →
      timers s !! h = Some t ∨ callback t = DetachListener;
  sh_next : (nextTimer s ≤ nextTimer s')%nat;
}.

(** ** The QR code utilities ([src/utils/qrcode.ts]) and the segments
    ([src/models/qrcode/QrSegment.ts])

    The numbers of this code are whole numbers, modelled by [Z]; the bit
    buffers are lists of them.  A [throw] of a string is the left summand
    of a sum. *)

(** *** The 32-bit operators of JavaScript *)

(** ToUint32 (ECMAScript 7.1.7) of a whole number *)
Definition toUint32 (x : Z) : Z := (x mod 2 ^ 32)%Z.

(** ToInt32 (ECMAScript 7.1.6) of a whole number *)
Definition toInt32 (x : Z) : Z :=
  let m := toUint32 x in
  if (m <? 2 ^ 31)%Z then m else (m - 2 ^ 32)%Z.

(** [x >>> n]: the left operand as an unsigned 32-bit number, the shift
    count taken modulo 32 *)
Definition ushr (x n : Z) : Z := Z.shiftr (toUint32 x) (n mod 32).

(** [x << n] *)
Definition shl (x n : Z) : Z := toInt32 (Z.shiftl (toUint32 x) (n mod 32)).

(** [(val >>> i) & 1] *)
Definition bitAt (val i : Z) : Z := Z.land (ushr val i) 1.

(** *** [src/utils/qrcode.ts] *)

(** The loop [for (let i = len - 1; i >= 0; i--) bb.push((val >>> i) & 1)]
    with [n] iterations left, which is [i + 1]. *)
Fixpoint pushBits (val : Z) (n : nat) (bb : list Z) : list Z :=
  match n with
  | O => bb
  | S i => pushBits val i (bb ++ [bitAt val (Z.of_nat i)])%list
  end.

(** [appendBits(val, len, bb)]: the buffer after the call, or the string
    thrown. *)
Definition appendBits (val len : Z) (bb : list Z) : string + list Z :=
  if (len <? 0)%Z || (len >? 31)%Z || negb (ushr val len =? 0)%Z
  then inl "Value out of range"
  else inr (pushBits val (Z.to_nat len) bb).

(** [getBit(x, i)] *)
Definition getBit (x i : Z) : bool := negb (bitAt x i =? 0)%Z.

(** What [toSvgString] reads of a [QrCode] ([src/models/qrcode/QrCode] is
    not in the repository): its size and its modules. *)
Module QrCode.
Record t : Type := {
  size : Z;
  getModule : Z → Z → bool;
}.
End QrCode.

Abbreviation QrCode := QrCode.t.

Definition newline : string := String "010"%char EmptyString.
Definition tab : string := String "009"%char EmptyString.

(** [[0; 1; ...; n - 1]], the values of a loop counter below [n] *)
Definition below (n : Z) : list Z := Z.of_nat <$> seq 0 (Z.to_nat n).

(** The path command of the module at [(x, y)] *)
Definition moduleCommand (border x y : Z) : string :=
  "M" +:+ pretty (x + border)%Z +:+ "," +:+ pretty (y + border)%Z +:+ "h1v1h-1z".

(** The array [parts] after the two loops *)
Definition svgParts (qr : QrCode) (border : Z) : list string :=
  y ← below (QrCode.size qr);
  x ← below (QrCode.size qr);
  if QrCode.getModule qr x y then [moduleCommand border x y] else [].

(** [toSvgString(qr, border, lightColor, darkColor)] *)
Definition toSvgString (qr : QrCode) (border : Z) (lightColor darkColor : string)
  : string + string :=
  if (border <? 0)%Z then inl "Border must be non-negative"
  else
    let parts := svgParts qr border in
    let side := pretty (QrCode.size qr + border * 2)%Z in
    inr ("<?xml version=" +:+ dquote +:+ "1.0" +:+ dquote +:+ " encoding=" +:+ dquote
         +:+ "UTF-8" +:+ dquote +:+ "?>" +:+ newline
         +:+ "<!DOCTYPE svg PUBLIC " +:+ dquote +:+ "-//W3C//DTD SVG 1.1//EN" +:+ dquote
         +:+ " " +:+ dquote +:+ "http://www.w3.org/Graphics/SVG/1.1/DTD/svg11.dtd"
         +:+ dquote +:+ ">" +:+ newline
         +:+ "<svg xmlns=" +:+ dquote +:+ "http://www.w3.org/2000/svg" +:+ dquote
         +:+ " version=" +:+ dquote +:+ "1.1" +:+ dquote
         +:+ " viewBox=" +:+ dquote +:+ "0 0 " +:+ side +:+ " " +:+ side +:+ dquote
         +:+ " stroke=" +:+ dquote +:+ "none" +:+ dquote +:+ ">" +:+ newline
         +:+ tab +:+ "<rect width=" +:+ dquote +:+ "100%" +:+ dquote
         +:+ " height=" +:+ dquote +:+ "100%" +:+ dquote
         +:+ " fill=" +:+ dquote +:+ lightColor +:+ dquote +:+ "/>" +:+ newline
         +:+ tab +:+ "<path d=" +:+ dquote +:+ String.concat " " parts +:+ dquote
         +:+ " fill=" +:+ dquote +:+ darkColor +:+ dquote +:+ "/>" +:+ newline
         +:+ "</svg>").

(** *** Strings and numbers of the segment code *)

(** The character codes of a string of ASCII characters *)
Definition charCodes (s : string) : list Z :=
  (λ c, Z.of_nat (nat_of_ascii c)) <$> list_ascii_of_string s.

(** The value of a digit of [parseInt] *)
Definition digitValue (c : ascii) : option Z :=
  let n := nat_of_ascii c in
  if Nat.leb 48 n && Nat.leb n 57 then Some (Z.of_nat n - 48)%Z
  else if Nat.leb 97 n && Nat.leb n 122 then Some (Z.of_nat n - 87)%Z
  else if Nat.leb 65 n && Nat.leb n 90 then Some (Z.of_nat n - 55)%Z
  else None.

(** The longest prefix of digits of the radix, read as a number; [acc] is
    the number read so far, if a digit was read. *)
Fixpoint digitsPrefix (radix : Z) (s : string) (acc : option Z) : option Z :=
  match s with
  | EmptyString => acc
  | String c r =>
      match digitValue c with
      | Some d =>
          if (d <? radix)%Z then digitsPrefix radix r (Some (default 0 acc * radix + d))%Z
          else acc
      | None => acc
      end
  end.

Definition isWhiteSpace (c : ascii) : bool :=
  existsb (Nat.eqb (nat_of_ascii c)) [9; 10; 11; 12; 13; 32].

Fixpoint trimStart (s : string) : string :=
  match s with
  | String c r => if isWhiteSpace c then trimStart r else s
  | EmptyString => s
  end.

(** [parseInt(s, radix)] (ECMAScript 19.2.5) for a radix from 2 to 36, on
    a string of a few ASCII characters (the code parses at most three):
    white space is skipped, then a sign, then with the radix 16 a prefix
    [0x]; [None] is NaN. *)
Definition parseInt (s : string) (radix : Z) : option Z :=
  let s := trimStart s in
  let (sign, s) := match s with
                   | String "-" r => ((-1)%Z, r)
                   | String "+" r => (1%Z, r)
                   | _ => (1%Z, s)
                   end in
  let s := if (radix =? 16)%Z then
             match s with
             | String "0" (String "x" r) => r
             | String "0" (String "X" r) => r
             | _ => s
             end
           else s in
  (λ n, sign * n)%Z <$> digitsPrefix radix s None.

(** A number that may be NaN as the operand of [>>>], where NaN counts
    as 0 (ToUint32) *)
Definition operand (v : option Z) : Z := default 0%Z v.

(** *** [encodeURI] (ECMAScript 19.2.6.5) on the UTF-8 bytes of its
    argument: besides the characters [encodeURIComponent] keeps, the
    reserved ones and the number sign are kept. *)

Definition uriReserved (c : ascii) : bool :=
  existsb (Ascii.eqb c) [";"; "/"; "?"; ":"; "@"; "&"; "="; "+"; "$"; ","]%char.

Fixpoint encodeURI (s : string) : string :=
  match s with
  | EmptyString => EmptyString
  | String c r =>
      if uriUnescaped c || uriReserved c || Ascii.eqb c "#" then String c (encodeURI r)
      else
        let n := nat_of_ascii c in
        String "%" (String (hexDigit true (n / 16)) (String (hexDigit true (n mod 16))
          (encodeURI r)))
  end.

(** A lone surrogate has no UTF-8 encoding.  In the bytes of a string it
    is carried as the three bytes of its code point, [ED A0..BF 80..BF],
    which no character and no surrogate pair produces.  On a string that
    has one, [encodeURI] and [encodeURIComponent] throw a URIError
    (ECMAScript 19.2.6.1.1, Encode); [encodeURI] above is the result on
    every other string. *)
Fixpoint loneSurrogate (s : string) : bool :=
  match s with
  | EmptyString => false
  | String c r =>
      (Nat.eqb (nat_of_ascii c) 237
       && match r with
          | String d _ => Nat.leb 160 (nat_of_ascii d) && Nat.leb (nat_of_ascii d) 191
          | EmptyString => false
          end)
      || loneSurrogate r
  end.

(** What the segment code throws: a string of its own, or the URIError of
    [encodeURI]. *)
Inductive Exception : Type :=
  | ThrownString (text : string)
  | URIError.

(** *** The segments *)

Module QrSegment.

(** The modes the segment code names ([./Mode] is not in the repository). *)
Inductive Mode : Type := BYTE | NUMERIC | ALPHANUMERIC | ECI.

Record t : Type := Build {
  mode : Mode;
  numChars : Z;
  bitData : list Z;
}.

(** [new QrSegment(mode, numChars, bitData)] *)
Definition constructor (mode : Mode) (numChars : Z) (bitData : list Z) : string + t :=
  if (numChars <? 0)%Z then inl "Invalid argument"
  else inr (Build mode numChars bitData).

(** [getData()] *)
Definition getData (seg : t) : list Z := bitData seg.

(** [NUMERIC_REGEX.test(text)], the expression being [/^[0-9]*$/] *)
Definition isNumeric (text : string) : bool :=
  forallb (λ c, Nat.leb 48 (nat_of_ascii c) && Nat.leb (nat_of_ascii c) 57)
    (list_ascii_of_string text).

(** [ALPHANUMERIC_REGEX.test(text)]: the class of the expression has the
    capital letters, the digits, the space and [$%*+./:-]. *)
Definition isAlphanumeric (text : string) : bool :=
  forallb (λ c, let n := nat_of_ascii c in
                (Nat.leb 65 n && Nat.leb n 90) || (Nat.leb 48 n && Nat.leb n 57)
                || existsb (Ascii.eqb c) [" "; "$"; "%"; "*"; "+"; "."; "/"; ":"; "-"]%char)
    (list_ascii_of_string text).

Definition ALPHANUMERIC_CHARSET : string := "0123456789ABCDEFGHIJKLMNOPQRSTUVWXYZ $%*+-./:".

(** [s.indexOf(c)] for a character [c], counted from [i] *)
Fixpoint indexFrom (s : string) (c : ascii) (i : Z) : Z :=
  match s with
  | EmptyString => (-1)%Z
  | String d r => if Ascii.eqb d c then i else indexFrom r c (i + 1)%Z
  end.

Definition indexOf (s : string) (c : ascii) : Z := indexFrom s c 0.

(** [makeBytes(data)]: the loop over [data], then the segment. *)
Fixpoint bytesBits (data : list Z) (bb : list Z) : string + list Z :=
  match data with
  | [] => inr bb
  | b :: rest =>
      match appendBits b 8 bb with
      | inl e => inl e
      | inr bb => bytesBits rest bb
      end
  end.

Definition makeBytes (data : list Z) : string + t :=
  match bytesBits data [] with
  | inl e => inl e
  | inr bb => constructor BYTE (Z.of_nat (List.length data)) bb
  end.

(** The loop of [makeNumeric], [rest] being the digits from [i] on: up to
    three of them are consumed per iteration. *)
Fixpoint numericBits (rest : string) (bb : list Z) : string + list Z :=
  match rest with
  | EmptyString => inr bb
  | String a (String b (String c r)) =>
      match appendBits (operand (parseInt (String a (String b (String c EmptyString))) 10))
              (3 * 3 + 1) bb with
      | inl e => inl e
      | inr bb => numericBits r bb
      end
  | String a (String b EmptyString) =>
      appendBits (operand (parseInt rest 10)) (2 * 3 + 1) bb
  | String a EmptyString =>
      appendBits (operand (parseInt rest 10)) (1 * 3 + 1) bb
  end.

(** [makeNumeric(digits)] *)
Definition makeNumeric (digits : string) : string + t :=
  if negb (isNumeric digits) then inl "String contains non-numeric characters"
  else
    match numericBits digits [] with
    | inl e => inl e
    | inr bb => constructor NUMERIC (Z.of_nat (String.length digits)) bb
    end.

(** The loop of [makeAlphanumeric] over the groups of two, [rest] being
    the text from [i] on, and the character that may remain. *)
Fixpoint alphanumericBits (rest : string) (bb : list Z) : string + list Z :=
  match rest with
  | String a (String b r) =>
      let temp := (indexOf ALPHANUMERIC_CHARSET a * 45)%Z in
      let temp := (temp + indexOf ALPHANUMERIC_CHARSET b)%Z in
      match appendBits temp 11 bb with
      | inl e => inl e
      | inr bb => alphanumericBits r bb
      end
  | String a EmptyString => appendBits (indexOf ALPHANUMERIC_CHARSET a) 6 bb
  | EmptyString => inr bb
  end.

(** [makeAlphanumeric(text)] *)
Definition makeAlphanumeric (text : string) : string + t :=
  if negb (isAlphanumeric text) then
    inl "String contains unencodable characters in alphanumeric mode"
  else
    match alphanumericBits text [] with
    | inl e => inl e
    | inr bb => constructor ALPHANUMERIC (Z.of_nat (String.length text)) bb
    end.

(** The loop of [toUtf8ByteArray] over the encoded string, [rest] being
    the string from [i] on.  After a percent sign the next two characters
    are parsed, and skipped. *)
Fixpoint percentBytes (rest : string) : list (option Z) :=
  match rest with
  | EmptyString => []
  | String c r =>
      if Ascii.eqb c "%" then
        match r with
        | String a (String b r') =>
            parseInt (String a (String b EmptyString)) 16 :: percentBytes r'
        | _ => [parseInt r 16]
        end
      else Some (Z.of_nat (nat_of_ascii c)) :: percentBytes r
  end.

(** [toUtf8ByteArray(str)] *)
Definition toUtf8ByteArray (str : string) : list (option Z) :=
  percentBytes (encodeURI str).

(** [makeSegments(text)].  In the last case [toUtf8ByteArray] begins
    with [encodeURI(text)], which throws on a lone surrogate; the bytes it
    gives otherwise reach [appendBits] only. *)
Definition makeSegments (text : string) : Exception + list t :=
  let single (r : string + t) : Exception + list t :=
    match r with
    | inl e => inl (ThrownString e)
    | inr seg => inr [seg]
    end in
  if String.eqb text EmptyString then inr []
  else if isNumeric text then single (makeNumeric text)
  else if isAlphanumeric text then single (makeAlphanumeric text)
  else if loneSurrogate text then inl URIError
  else single (makeBytes (operand <$> toUtf8ByteArray text)).

(** [makeEci(assignVal)] *)
Definition makeEci (assignVal : Z) : string + t :=
  let bb := [] in
  match (if (assignVal <? 0)%Z then inl "ECI assignment value out of range"
         else if (assignVal <? shl 1 7)%Z then appendBits assignVal 8 bb
         else if (assignVal <? shl 1 14)%Z then
           match appendBits 2 2 bb with
           | inl e => inl e
           | inr bb => appendBits assignVal 14 bb
           end
         else if (assignVal <? 1000000)%Z then
           match appendBits 6 3 bb with
           | inl e => inl e
           | inr bb => appendBits assignVal 21 bb
           end
         else inl "ECI assignment value out of range") with
  | inl e => inl e
  | inr bb => constructor ECI 0 bb
  end.

(** The result of [getTotalBits]: a number of bits, or [Infinity]. *)
Inductive Total : Type := Finite (bits : Z) | Infinity.

(** The loop of [getTotalBits], [result] being the bits counted so far;
    [numCharCountBits mode version] stands for
    [mode.numCharCountBits(version)] of the class [Mode]. *)
Fixpoint totalFrom (numCharCountBits : Mode → Z → Z) (version : Z) (segs : list t)
    (result : Z) : Total :=
  match segs with
  | [] => Finite result
  | seg :: rest =>
      let ccbits := numCharCountBits (mode seg) version in
      if (numChars seg >=? shl 1 ccbits)%Z then Infinity
      else totalFrom numCharCountBits version rest
             (result + (4 + ccbits + Z.of_nat (List.length (bitData seg))))%Z
  end.

(** [getTotalBits(segs, version)] *)
Definition getTotalBits (numCharCountBits : Mode → Z → Z) (segs : list t) (version : Z)
  : Total :=
  totalFrom numCharCountBits version segs 0.

End QrSegment.

(** *** What the bits say *)

(** The number a bit sequence denotes, the most significant bit first *)
Definition bitsValue (bits : list Z) : Z := foldl (λ acc b, 2 * acc + b)%Z 0%Z bits.

Definition isBit (b : Z) : Prop := b = 0%Z ∨ b = 1%Z.

(** The bits of a buffer in groups of [n], each read as a number *)
Fixpoint groupsOf (fuel : nat) (n : nat) (bits : list Z) : list Z :=
  match fuel with
  | O => []
  | S fuel =>
      match bits with
      | [] => []
      | _ => bitsValue (take n bits) :: groupsOf fuel n (drop n bits)
      end
  end.

(** Eight bits for each byte *)
Definition byteBits (data : list Z) : list Z := flat_map (λ b, pushBits b 8 []) data.

(** The characters of the numeric and of the alphanumeric class *)
Definition isDigitChar (c : ascii) : bool :=
  Nat.leb 48 (nat_of_ascii c) && Nat.leb (nat_of_ascii c) 57.

Definition isAlphanumericChar (c : ascii) : bool :=
  let n := nat_of_ascii c in
  (Nat.leb 65 n && Nat.leb n 90) || (Nat.leb 48 n && Nat.leb n 57)
  || existsb (Ascii.eqb c) [" "; "$"; "%"; "*"; "+"; "."; "/"; ":"; "-"]%char.

(** The length of the bits of a numeric and of an alphanumeric segment of
    [n] characters *)
Definition numericLength (n : Z) : Z :=
  (10 * (n / 3) + (if n mod 3 =? 0 then 0 else if n mod 3 =? 1 then 4 else 7))%Z.

Definition alphanumericLength (n : Z) : Z := (11 * (n / 2) + 6 * (n mod 2))%Z.

(** The number a string of decimal digits denotes *)
Definition decimalValue (s : string) : Z :=
  foldl (λ acc c, acc * 10 + (Z.of_nat (nat_of_ascii c) - 48))%Z 0%Z (list_ascii_of_string s).

(** The groups the loop of [makeNumeric] consumes, of three digits and
    at the end of one or two, and those of [makeAlphanumeric], of two
    characters and at the end of one *)
Fixpoint numericGroups (s : string) : list string :=
  match s with
  | EmptyString => []
  | String a (String b (String c r)) =>
      String a (String b (String c EmptyString)) :: numericGroups r
  | _ => [s]
  end.

Fixpoint alphanumericGroups (s : string) : list string :=
  match s with
  | EmptyString => []
  | String a (String b r) => String a (String b EmptyString) :: alphanumericGroups r
  | _ => [s]
  end.

(** The number of bits of a group: 4, 7 or 10, and 6 or 11 *)
Definition numericWidth (g : string) : nat := 3 * String.length g + 1.

Definition alphanumericWidth (g : string) : nat := 5 * String.length g + 1.

(** The number a group of alphanumeric mode denotes: its characters as
    digits to the base 45 *)
Definition alphanumericValue (g : string) : Z :=
  foldl (λ acc c, acc * 45 + QrSegment.indexOf QrSegment.ALPHANUMERIC_CHARSET c)%Z 0%Z
    (list_ascii_of_string g).

(** The bits of a buffer cut into groups of the given widths, each read
    as a number *)
Fixpoint readGroups (widths : list nat) (bits : list Z) : list Z :=
  match widths with
  | [] => []
  | w :: widths => bitsValue (take w bits) :: readGroups widths (drop w bits)
  end.

(** The characters of a number written in decimal *)
Definition isNumberChar (c : ascii) : bool := isDigitChar c || Ascii.eqb c "-".

Definition isNumberText (s : string) : bool := forallb isNumberChar (list_ascii_of_string s).

(** The dark modules of a code, row by row, as pairs of [y] and [x] *)
Definition darkPositions (qr : QrCode) : list (Z * Z) :=
  filter (λ yx, QrCode.getModule qr yx.2 yx.1 = true)
         (y ← below (QrCode.size qr); x ← below (QrCode.size qr); [(y, x)]).

(** An attribute of an element, after a space *)
Definition attribute (name value : string) : string :=
  " " +:+ name +:+ "=" +:+ dquote +:+ value +:+ dquote.

(** A picture of [side] by [side] units: the declaration and the document
    type of SVG 1.1, then the [svg] element with a rectangle over the
    whole picture in the one colour and a single path of the commands,
    separated by spaces, in the other; six lines, the two inner elements
    after a tab. *)
Definition svgDocument (side : Z) (lightColor darkColor : string) (commands : list string)
  : string :=
  String.concat newline
    [ "<?xml" +:+ attribute "version" "1.0" +:+ attribute "encoding" "UTF-8" +:+ "?>";
      "<!DOCTYPE svg PUBLIC" +:+ " " +:+ dquote +:+ "-//W3C//DTD SVG 1.1//EN" +:+ dquote
        +:+ " " +:+ dquote +:+ "http://www.w3.org/Graphics/SVG/1.1/DTD/svg11.dtd" +:+ dquote
        +:+ ">";
      "<svg" +:+ attribute "xmlns" "http://www.w3.org/2000/svg"
        +:+ attribute "version" "1.1"
        +:+ attribute "viewBox" ("0 0 " +:+ pretty side +:+ " " +:+ pretty side)
        +:+ attribute "stroke" "none" +:+ ">";
      tab +:+ "<rect" +:+ attribute "width" "100%" +:+ attribute "height" "100%"
        +:+ attribute "fill" lightColor +:+ "/>";
      tab +:+ "<path" +:+ attribute "d" (String.concat " " commands)
        +:+ attribute "fill" darkColor +:+ "/>";
      "</svg>" ].

(** The six fields of a message that [toString] of [IntentUrl] hands to
    [encodeURIComponent] have no lone surrogate. *)
Definition encodable (o : option string) : bool :=
  match o with
  | Some s => negb (loneSurrogate s)
  | None => true
  end.

Definition encodableFields (m : Message) : Prop :=
  encodable (Message.getAuthChallengeUrl m) = true
  ∧ encodable (Message.postAuthTokenUrl m) = true
  ∧ encodable (Message.postPrepareSigningUrl m) = true
  ∧ encodable (Message.postFinalizeSigningUrl m) = true
  ∧ encodable (Message.applicationName m) = true
  ∧ encodable (Message.actionDescription m) = true.

(** A text with a lone surrogate (U+D800 after the letter a) *)
Definition brokenText : string :=
  String "a" (String "237" (String "160" (String "128" EmptyString))).

(** The number of dark modules of a code *)
Definition darkModules (qr : QrCode) : nat :=
  List.length (filter (λ xy, QrCode.getModule qr xy.2 xy.1 = true)
                 (y ← below (QrCode.size qr); x ← below (QrCode.size qr); [(y, x)])).

(** A code of three by three modules with a dark diagonal *)
Definition diagonal : QrCode := {| QrCode.size := 3; QrCode.getModule := λ x y, Z.eqb x y |}.

(** Character count widths, as an example of [numCharCountBits] *)
Definition exampleWidths (m : QrSegment.Mode) (version : Z) : Z :=
  match m with
  | QrSegment.NUMERIC => 10
  | QrSegment.ALPHANUMERIC => 9
  | QrSegment.BYTE => 8
  | QrSegment.ECI => 0
  end.

(** * Verification *)

(** ** The end-anchored alternation *)

Section RegexFacts.
Import Regex.

Lemma matchAtEnd_None lits s :
    matchAtEnd lits s = None ↔ ∀ t, t ∈ lits → ¬ endsWith t s.
Proof.
    induction s as [|c s IH]; simpl.
    - case_bool_decide as Hin.
      + split; [done|]. intros H. exfalso. apply (H _ Hin). by exists EmptyString.
      + split; [|done]. intros _ t Ht [p Hp].
        destruct p; [|done]. apply Hin. by rewrite Hp.
    - case_bool_decide as Hin.
      + split; [done|]. intros H. exfalso. apply (H _ Hin). by exists EmptyString.
      + destruct (matchAtEnd lits s) as [[pre lit]|] eqn:E.
        * split; [done|]. intros H.
          assert (Hn : ∀ t, t ∈ lits → ¬ endsWith t s).
          { intros t Ht [p Hp]. apply (H t Ht). exists (String c p). by rewrite Hp. }
          apply IH in Hn. done.
        * split; [|done]. intros _ t Ht [p Hp].
          destruct p as [|c' p].
          -- apply Hin. by rewrite Hp.
          -- change (String c s = String c' (p +:+ t)) in Hp.
             injection Hp as -> Hs. destruct IH as [IH _].
             apply (IH eq_refl t Ht). by exists p.
Qed.

Lemma matchAtEnd_app lits s t :
    suffixFree lits → t ∈ lits → matchAtEnd lits (s +:+ t) = Some (s, t).
Proof.
    intros Hfree Ht. induction s as [|c s IH].
    - change (EmptyString +:+ t) with t.
      destruct t; simpl; by rewrite bool_decide_eq_true_2.
    - change (String c s +:+ t) with (String c (s +:+ t)). simpl.
      rewrite bool_decide_eq_false_2.
      + by rewrite IH.
      + intros Hin. by specialize (Hfree _ _ (String c s) Hin Ht eq_refl).
Qed.

End RegexFacts.

(** ** Stripping the suffix of an action *)

Section Suffixes.
Import Regex.

Lemma append_nil_l (t : string) : EmptyString +:+ t = t.
Proof. reflexivity. Qed.

Lemma append_cons_l (c : ascii) (s t : string) : String c s +:+ t = String c (s +:+ t).
Proof. reflexivity. Qed.

(** An equation between a literal and [x +:+ literal] is decided
    character by character. *)
Ltac peel x H :=
  repeat (destruct x as [|? x];
          [ rewrite ?append_nil_l in H; first [ reflexivity | discriminate H ]
          | rewrite append_cons_l in H; first [ discriminate H | injection H as ? H ] ]).

Lemma suffixFree_replySuffixes : suffixFree ["-success"; "-failure"; "-ack"].
Proof.
  intros l1 l2 x H1 H2 H. set_unfold.
  destruct H1 as [->|[->|[->|[]]]]; destruct H2 as [->|[->|[->|[]]]]; peel x H.
Qed.

Lemma suffixFree_replyWords : suffixFree replyWords.
Proof.
  intros l1 l2 x H1 H2 H. unfold replyWords in *. set_unfold.
  destruct H1 as [->|[->|[->|[]]]]; destruct H2 as [->|[->|[->|[]]]]; peel x H.
Qed.

Lemma matchedAtEnd_append (s w : string) :
  w ∈ replyWords → matchedAtEnd replyWords (s +:+ w) = Some w.
Proof.
  intros Hw. unfold matchedAtEnd.
  by rewrite (matchAtEnd_app _ s w suffixFree_replyWords Hw).
Qed.

Lemma startsWith_append (p s t : string) :
  startsWith p s = true → startsWith p (s +:+ t) = true.
Proof.
  unfold startsWith. revert p. induction s as [|c s IH]; intros p.
  - destruct p; [|discriminate]. intros _. by destruct t.
  - destruct p as [|c' p]; [done|]. rewrite append_cons_l. simpl.
    destruct (ascii_dec c' c); [apply IH|discriminate].
Qed.

Lemma getInitialAction_append (s t : string) :
  t ∈ replySuffixes → getInitialAction (s +:+ t) = s.
Proof.
  intros Ht. unfold getInitialAction, replaceAtEnd.
  by rewrite (matchAtEnd_app _ s t suffixFree_replySuffixes Ht).
Qed.

Lemma getInitialAction_other (s : string) :
  (∀ t, t ∈ replySuffixes → ¬ endsWith t s) → getInitialAction s = s.
Proof.
  intros H. unfold getInitialAction, replaceAtEnd.
  assert (E : matchAtEnd ["-success"; "-failure"; "-ack"] s = None).
  { apply matchAtEnd_None. intros t Ht. by apply H. }
  by rewrite E.
Qed.

(** C10.  Appending one of the suffixes [-ack], [-success], [-failure] to
    any string and stripping it again gives the string back, and
    [getInitialAction] leaves a string that ends in none of the three as it
    is; so the listener recovers the base action from each of the four
    textual variants of an action (shown on the actions of the protocol). *)
Theorem getInitialAction_round_trip :
  (∀ s t, t ∈ replySuffixes → getInitialAction (s +:+ t) = s)
  ∧ (∀ s, (∀ t, t ∈ replySuffixes → ¬ endsWith t s) → getInitialAction s = s)
  ∧ (∀ b, b ∈ Action.base →
       getInitialAction b = b ∧ ∀ t, t ∈ replySuffixes → getInitialAction (b +:+ t) = b).
Proof.
  split; [exact getInitialAction_append|].
  split; [exact getInitialAction_other|].
  intros b Hb. split; [|intros t; apply getInitialAction_append].
  unfold Action.base in Hb. set_unfold.
  destruct Hb as [->|[->|[->|[]]]]; reflexivity.
Qed.

(** The round trip on a concrete action. *)
Lemma getInitialAction_round_trip_witness :
  getInitialAction ("web-eid:sign" +:+ "-failure") = "web-eid:sign"
  ∧ getInitialAction "web-eid:sign" = "web-eid:sign".
Proof.
  destruct getInitialAction_round_trip as (Happ & _ & Hbase). split.
  - apply Happ. unfold replySuffixes. repeat constructor.
  - apply Hbase. unfold Action.base. repeat constructor.
Defined.

End Suffixes.

(** ** The deep-link builder *)

Section DeepLink.

Lemma append_assoc (a b c : string) : (a +:+ b) +:+ c = a +:+ (b +:+ c).
Proof.
  induction a as [|x a IH]; [done|].
  rewrite !append_cons_l. by rewrite IH.
Qed.


Lemma isNull_copyIfTruthy (o : option string) :
  IntentUrl.isNull (IntentUrl.copyIfTruthy o) = negb (truthy o).
Proof.
  unfold IntentUrl.copyIfTruthy. destruct (truthy o) eqn:E; [|done].
  destruct o; [done|discriminate E].
Qed.

Lemma validate_assign (m : Message) :
  IntentUrl.validate (IntentUrl.assign m)
  = if (truthy (Message.getAuthChallengeUrl m) && truthy (Message.postAuthTokenUrl m))
       || (truthy (Message.postPrepareSigningUrl m)
           && truthy (Message.postFinalizeSigningUrl m))
    then None
    else Some (MissingParameterError "Missing parameters for IntentUrl.").
Proof.
  unfold IntentUrl.validate. simpl. rewrite !isNull_copyIfTruthy.
  by destruct (truthy (Message.getAuthChallengeUrl m)), (truthy (Message.postAuthTokenUrl m)),
    (truthy (Message.postPrepareSigningUrl m)), (truthy (Message.postFinalizeSigningUrl m)).
Qed.

Lemma pairComplete_spec (m : Message) :
  pairComplete m
  ↔ (truthy (Message.getAuthChallengeUrl m) && truthy (Message.postAuthTokenUrl m))
    || (truthy (Message.postPrepareSigningUrl m)
        && truthy (Message.postFinalizeSigningUrl m)) = true.
Proof.
  unfold pairComplete, present.
  destruct (truthy (Message.getAuthChallengeUrl m)), (truthy (Message.postAuthTokenUrl m)),
    (truthy (Message.postPrepareSigningUrl m)), (truthy (Message.postFinalizeSigningUrl m));
    simpl; intuition congruence.
Qed.

(** C8.  Constructing an [IntentUrl] from a message throws
    [MissingParameterError] whenever neither the pair [getAuthChallengeUrl],
    [postAuthTokenUrl] nor the pair [postPrepareSigningUrl],
    [postFinalizeSigningUrl] is present in full, and succeeds whenever one
    of the pairs is (a message always has its action).  On the instance
    fields, [validate] passes exactly when the action is not null and one
    of the pairs is not null in both fields. *)
Theorem IntentUrl_validation :
  (∀ m, ¬ pairComplete m →
     IntentUrl.constructor m = inl (MissingParameterError "Missing parameters for IntentUrl."))
  ∧ (∀ m, pairComplete m → IntentUrl.constructor m = inr (IntentUrl.assign m))
  ∧ (∀ u, IntentUrl.validate u = None
          ↔ IntentUrl.action u ≠ None
            ∧ ((IntentUrl.getAuthChallengeUrl u ≠ None ∧ IntentUrl.postAuthTokenUrl u ≠ None)
               ∨ (IntentUrl.postPrepareSigningUrl u ≠ None
                  ∧ IntentUrl.postFinalizeSigningUrl u ≠ None))).
Proof.
  split; [|split].
  - intros m H. unfold IntentUrl.constructor. rewrite validate_assign.
    rewrite pairComplete_spec in H. by destruct (_ || _).
  - intros m H. unfold IntentUrl.constructor. rewrite validate_assign.
    apply pairComplete_spec in H. by rewrite H.
  - intros u. unfold IntentUrl.validate.
    destruct (IntentUrl.action u), (IntentUrl.getAuthChallengeUrl u),
      (IntentUrl.postAuthTokenUrl u), (IntentUrl.postPrepareSigningUrl u),
      (IntentUrl.postFinalizeSigningUrl u); simpl; intuition congruence.
Qed.

Lemma IntentUrl_validation_witness :
  IntentUrl.constructor onlyChallenge
    = inl (MissingParameterError "Missing parameters for IntentUrl.")
  ∧ IntentUrl.constructor authPair = inr (IntentUrl.assign authPair).
Proof.
  destruct IntentUrl_validation as (Hfail & Hok & _). split.
  - apply Hfail. unfold pairComplete, present. simpl. intuition discriminate.
  - apply Hok. left. split; reflexivity.
Defined.

(** A field that is set to the empty string counts as missing: the
    constructor does not copy it. *)
Example IntentUrl_empty_field :
  IntentUrl.constructor
    (Message.Build "web-eid:authenticate" None (Some true) None
       (Some EmptyString) (Some "https://rp.example/login")
       None None None None None None None None)
  = inl (MissingParameterError "Missing parameters for IntentUrl.").
Proof. reflexivity. Qed.








End DeepLink.

(** ** The registry *)

Section Registry.

Variable config : Config.
Variable env : Env.

Lemma NoDup_map_inj {A B : Type} (f : A → B) (l : list A) (x y : A) :
  NoDup (map f l) → x ∈ l → y ∈ l → f x = f y → x = y.
Proof.
  induction l as [|z l IH]; simpl; intros Hnd Hx Hy Hf; [by apply elem_of_nil in Hx|].
  apply NoDup_cons in Hnd as [Hz Hnd].
  apply elem_of_cons in Hx as [->|Hx]; apply elem_of_cons in Hy as [->|Hy].
  - done.
  - exfalso. apply Hz. rewrite Hf. by apply (list_elem_of_fmap_2 f).
  - exfalso. apply Hz. rewrite <- Hf. by apply (list_elem_of_fmap_2 f).
  - by apply IH.
Qed.

Lemma getPendingMessage_Some (a : string) (s : State) (p : PendingMessage) :
  getPendingMessage a s = Some p → p ∈ queue s ∧ baseAction p = a.
Proof.
  unfold getPendingMessage. intros H. apply find_some in H as [Hin Hb].
  split; [by apply list_elem_of_In|]. by apply bool_decide_eq_true in Hb.
Qed.

Lemma getPendingMessage_None (a : string) (s : State) :
  getPendingMessage a s = None ↔ ∀ p, p ∈ queue s → baseAction p ≠ a.
Proof.
  unfold getPendingMessage. split.
  - intros H p Hin. apply list_elem_of_In in Hin.
    apply (find_none _ _ H) in Hin. by apply bool_decide_eq_false in Hin.
  - intros H. induction (queue s) as [|q l IH]; [done|]. simpl.
    rewrite bool_decide_eq_false_2; [|apply H; by left].
    apply IH. intros p Hp. apply H. by right.
Qed.

Lemma getPendingMessage_unique (a : string) (s : State) (p q : PendingMessage) :
  NoDup (map baseAction (queue s)) →
  getPendingMessage a s = Some p → q ∈ queue s → baseAction q = a → q = p.
Proof.
  intros Hnd Hp Hq Ha. apply getPendingMessage_Some in Hp as [Hp Hpa].
  apply (NoDup_map_inj baseAction (queue s)); [done..|congruence].
Qed.

Lemma filter_all {A : Type} (P : A → Prop) `{∀ x, Decision (P x)} (l : list A) :
  (∀ x, x ∈ l → P x) → filter P l = l.
Proof.
  induction l as [|x l IH]; intros Hall; [done|].
  rewrite filter_cons_True; [|apply Hall; by left].
  f_equal. apply IH. intros y Hy. apply Hall. by right.
Qed.

Lemma setQueue_same (s : State) : setQueue (queue s) s = s.
Proof. by destruct s. Qed.

Lemma queue_removeFromQueue (a : string) (s : State) :
  queue (removeFromQueue a s) = filter (λ p, baseAction p ≠ a) (queue s).
Proof. unfold removeFromQueue, clearReplyTimer. by destruct (getPendingMessage a s). Qed.

Lemma timers_removeFromQueue (a : string) (s : State) :
  timers (removeFromQueue a s)
  = match getPendingMessage a s with
    | Some p => delete (replyTimer p) (timers s)
    | None => timers s
    end.
Proof. unfold removeFromQueue, clearReplyTimer. by destruct (getPendingMessage a s). Qed.

Lemma getPendingMessage_removeFromQueue (a : string) (s : State) :
  getPendingMessage a (removeFromQueue a s) = None.
Proof.
  apply getPendingMessage_None. intros p. rewrite queue_removeFromQueue.
  intros Hp. by apply list_elem_of_filter in Hp as [Hp _].
Qed.

(** C5, as the code has it.  [removeFromQueue(a)] clears the reply timer
    of the pending request found for [a] and takes every entry for [a]
    off the queue; the ack timer of that request stays as it was, and so
    does everything else.  When there is no entry for [a] nothing
    changes. *)
Theorem removeFromQueue_effect (a : string) (s : State) :
  (∀ p, getPendingMessage a s = Some p →
     timers (removeFromQueue a s) = delete (replyTimer p) (timers s)
     ∧ (ackTimer p ≠ replyTimer p →
        timers (removeFromQueue a s) !! ackTimer p = timers s !! ackTimer p)
     ∧ queue (removeFromQueue a s) = filter (λ q, baseAction q ≠ a) (queue s)
     ∧ getPendingMessage a (removeFromQueue a s) = None
     ∧ promises (removeFromQueue a s) = promises s)
  ∧ (getPendingMessage a s = None → removeFromQueue a s = s).
Proof.
  split.
  - intros p Hp. rewrite timers_removeFromQueue, Hp.
    split; [done|]. split; [intros Hne; by rewrite lookup_delete_ne|].
    split; [apply queue_removeFromQueue|].
    split; [apply getPendingMessage_removeFromQueue|].
    unfold removeFromQueue. by rewrite Hp.
  - intros Hnone. unfold removeFromQueue. rewrite Hnone. simpl.
    rewrite filter_all; [apply setQueue_same|].
    by apply getPendingMessage_None.
Qed.

(** The request registered by a first [send], and the state it leaves. *)
Lemma removeFromQueue_effect_witness :
  let s := run exampleConfig exampleEnv [ESend authenticate 30000] initial in
  timers (removeFromQueue "web-eid:authenticate" s) = delete 2 (timers s)
  ∧ removeFromQueue "web-eid:sign" s = s.
Proof.
  intros s. split.
  - destruct (removeFromQueue_effect "web-eid:authenticate" s) as [H _].
    by destruct (H {| message := authenticate; promise := 0; ackTimer := 1; replyTimer := 2 |}
                   eq_refl) as [-> _].
  - destruct (removeFromQueue_effect "web-eid:sign" s) as [_ H]. by apply H.
Defined.

(** C5 as it is worded fails: after [removeFromQueue] the ack timer of
    the removed request is still armed. *)
Lemma removeFromQueue_keeps_ack_timer :
  let s := run exampleConfig exampleEnv [ESend authenticate 30000] initial in
  let p := {| message := authenticate; promise := 0; ackTimer := 1; replyTimer := 2 |} in
  getPendingMessage "web-eid:authenticate" s = Some p
  ∧ timers s !! ackTimer p = Some {| due := 1000; callback := AckTimeout p |}
  ∧ timers (removeFromQueue "web-eid:authenticate" s) !! ackTimer p
    = Some {| due := 1000; callback := AckTimeout p |}
  ∧ queue (removeFromQueue "web-eid:authenticate" s) = [].
Proof. by vm_compute. Qed.

(** C7.  [pollForLoginSuccess] fails with [ProtocolInsecureError] for
    every message whose [getAuthSuccessUrl] is present and does not start
    with [https://], and with [MissingParameterError] for every message
    that has none ([undefined], or the empty string, which the test of the
    code takes for a missing one); in both cases the state is the one
    before the call, so no request was made. *)
Theorem pollForLoginSuccess_preconditions (m : Message) (timeout : Z) (s : State) :
  (∀ url, Message.getAuthSuccessUrl m = Some url → url ≠ EmptyString →
     startsWith "https://" url = false →
     pollForLoginSuccess env m timeout s
     = (inl (ProtocolInsecureError ("HTTPS required for getAuthSuccessUrl " +:+ url)), s))
  ∧ (¬ present (Message.getAuthSuccessUrl m) →
     pollForLoginSuccess env m timeout s
     = (inl (MissingParameterError
               "getAuthSuccessUrl missing for Android auth app authentication option."), s))
  ∧ (∀ e s', pollForLoginSuccess env m timeout s = (inl e, s') → requests s' = requests s).
Proof.
  unfold pollForLoginSuccess, present. split; [|split].
  - intros url -> Hne Hs. simpl.
    apply String.eqb_neq in Hne. rewrite Hne. simpl. by rewrite Hs.
  - intros H. by destruct (truthy (Message.getAuthSuccessUrl m)).
  - intros e s' H. destruct (truthy (Message.getAuthSuccessUrl m)); [|congruence].
    destruct (negb _); [congruence|].
    destruct (parseURL env _) as [?|[[??]?]]; congruence.
Qed.

End Registry.

Lemma pollForLoginSuccess_preconditions_witness :
  pollForLoginSuccess exampleEnv
    (Message.Build "web-eid:authenticate" None (Some true) (Some "http://rp.example/status")
       None None None None None None None None None None) 30000 initial
  = (inl (ProtocolInsecureError
            "HTTPS required for getAuthSuccessUrl http://rp.example/status"), initial)
  ∧ pollForLoginSuccess exampleEnv onlyChallenge 30000 initial
    = (inl (MissingParameterError
              "getAuthSuccessUrl missing for Android auth app authentication option."),
       initial).
Proof.
  split.
  - by apply (pollForLoginSuccess_preconditions exampleEnv _ 30000 initial).
  - apply (pollForLoginSuccess_preconditions exampleEnv onlyChallenge 30000 initial).
    unfold present. simpl. discriminate.
Defined.


(** An address that is set to the empty string counts as missing. *)
Example pollForLoginSuccess_empty_url :
  pollForLoginSuccess exampleEnv
    (Message.Build "web-eid:authenticate" None (Some true) (Some EmptyString)
       None None None None None None None None None None) 30000 initial
  = (inl (MissingParameterError
            "getAuthSuccessUrl missing for Android auth app authentication option."),
     initial).
Proof. reflexivity. Qed.

(** ** The invariant of the queue, the timers and the promises *)

Section Invariant.

Variable config : Config.
Variable env : Env.

Lemma known_mono (s s' : State) (p : PendingMessage) :
  (∀ q, q ∈ queue s' → q ∈ queue s) →
  (∀ h t, timers s' !! h = Some t → timers s !! h = Some t ∨ callback t = DetachListener) →
  known s' p → known s p.
Proof.
  intros Hq Ht [Hin|(h & t & Hl & Hc)]; [left; auto|].
  destruct (Ht _ _ Hl) as [Hold|Hd].
  - right. by exists h, t.
  - rewrite Hd in Hc. by destruct Hc.
Qed.

(** A step that only takes entries off the queue, disarms timers or arms
    detaching ones, and settles promises of requests it takes off the
    queue, keeps the invariant, if it disarms the reply timer of every
    request it takes off. *)
Lemma Inv_step (s s' : State) :
  Inv s →
  nextPromise s' = nextPromise s →
  queue s' `sublist_of` queue s →
  (∀ h t, timers s' !! h = Some t → timers s !! h = Some t ∨ callback t = DetachListener) →
  (∀ i v, promises s' !! i = Some v →
     promises s !! i = Some v ∨ ∃ p, known s p ∧ promise p = i ∧ p ∉ queue s') →
  (∀ h t p, timers s' !! h = Some t → callback t = ReplyTimeout p →
     p ∈ queue s → p ∈ queue s') →
  Inv s'.
Proof.
  intros [] Hnext Hsub Htim Hprom Hreply.
  assert (Hq : ∀ q, q ∈ queue s' → q ∈ queue s).
  { intros q Hq. by eapply elem_of_sublist. }
  assert (Hk : ∀ p, known s' p → known s p).
  { intros p. by apply known_mono. }
  constructor.
  - apply (sublist_NoDup _ (map baseAction (queue s))); [done|].
    by apply (fmap_sublist baseAction).
  - intros p Hp. rewrite Hnext. auto.
  - intros i v Hi. rewrite Hnext.
    destruct (Hprom _ _ Hi) as [Hold|(p & Hp & <- & _)]; eauto.
  - intros p q Hp Hq'. auto.
  - intros h t p Hl. destruct (Htim _ _ Hl) as [Hold|Hd].
    + by apply inv_handles0.
    + rewrite Hd. split; discriminate.
  - intros p Hp. auto.
  - intros p Hp. destruct (promises s' !! promise p) as [v|] eqn:E; [|done].
    destruct (Hprom _ _ E) as [Hold|(q & Hkq & Hpq & Hnq)].
    + rewrite inv_unsettled0 in Hold; [done|auto].
    + assert (q = p) as ->; [|done].
      apply inv_unique0; [done| |done]. left. auto.
  - intros h t p Hl Hc. destruct (Htim _ _ Hl) as [Hold|Hd].
    + eapply Hreply; eauto.
    + rewrite Hd in Hc. discriminate.
Qed.

Lemma Inv_initial : Inv initial.
Proof.
  constructor; simpl.
  - apply NoDup_nil_2.
  - intros p [Hp|(h & t & Hl & _)]; [by apply elem_of_nil in Hp|done].
  - intros i v Hl. done.
  - intros p q [Hp|(h & t & Hl & _)]; [by apply elem_of_nil in Hp|done].
  - intros h t p Hl. done.
  - intros p [Hp|(h & t & Hl & _)]; [by apply elem_of_nil in Hp|done].
  - intros p Hp. by apply elem_of_nil in Hp.
  - intros h t p Hl. done.
Qed.

(** *** What the handlers do to the state *)

Lemma promises_settle (i : nat) (v : Settlement) (s : State) (j : nat) (w : Settlement) :
  promises (settle i v s) !! j = Some w →
  promises s !! j = Some w ∨ (j = i ∧ promises s !! i = None ∧ w = v).
Proof.
  unfold settle. destruct (promises s !! i) eqn:E; [by left|]. simpl.
  destruct (decide (i = j)) as [<-|Hne].
  - rewrite lookup_insert_eq. intros [= <-]. by right.
  - rewrite lookup_insert_ne; [|done]. by left.
Qed.

Lemma Inv_retires (s s' : State) (p : PendingMessage) :
  Inv s → known s p → Retires s s' p → Inv s'.
Proof.
  intros HI Hp [Hq Hn [v Hv] Ht Hr]. apply (Inv_step s s' HI Hn).
  - rewrite Hq. apply sublist_filter.
  - intros h t Hl. left. auto.
  - intros i w Hi. rewrite Hv in Hi.
    apply promises_settle in Hi as [Hold|(-> & _ & _)]; [by left|].
    right. exists p. split; [done|]. split; [done|].
    rewrite Hq. intros Hin. by apply list_elem_of_filter in Hin as [Hne _].
  - intros h t q Hl Hc Hin. rewrite Hq. apply list_elem_of_filter. split; [|done].
    intros Ha.
    destruct (getPendingMessage (baseAction p) s) as [f|] eqn:Hf.
    + assert (q = f) as ->.
      { eapply getPendingMessage_unique; eauto. apply HI. }
      specialize (Hr f eq_refl).
      destruct (inv_handles s HI h t f (Ht _ _ Hl)) as [_ Hh].
      rewrite (Hh Hc) in Hr. congruence.
    + rewrite getPendingMessage_None in Hf. by apply (Hf q).
Qed.


Lemma Inv_same (s s' : State) :
  queue s' = queue s → timers s' = timers s → promises s' = promises s →
  nextPromise s' = nextPromise s → Inv s → Inv s'.
Proof.
  intros Hq Ht Hp Hn HI. apply (Inv_step s s' HI Hn).
  - by rewrite Hq.
  - intros h t Hl. left. by rewrite <- Ht.
  - intros i v Hl. left. by rewrite <- Hp.
  - intros h t p _ _. by rewrite Hq.
Qed.

Lemma promises_settle_ext (i : nat) (v : Settlement) (s s1 : State) :
  promises s1 = promises s → promises (settle i v s1) = promises (settle i v s).
Proof.
  intros H. unfold settle. rewrite H. by destruct (promises s !! i).
Qed.

Lemma settle_core (i : nat) (v : Settlement) (s : State) :
  queue (settle i v s) = queue s ∧ timers (settle i v s) = timers s
  ∧ nextPromise (settle i v s) = nextPromise s ∧ trace (settle i v s) = trace s.
Proof. unfold settle. by destruct (promises s !! i). Qed.

Lemma getPendingMessage_ext (a : string) (s s' : State) :
  queue s' = queue s → getPendingMessage a s' = getPendingMessage a s.
Proof. unfold getPendingMessage. by intros ->. Qed.

Lemma removeFromQueue_core (a : string) (s : State) :
  promises (removeFromQueue a s) = promises s
  ∧ nextPromise (removeFromQueue a s) = nextPromise s
  ∧ trace (removeFromQueue a s) = trace s.
Proof. unfold removeFromQueue, clearReplyTimer. by destruct (getPendingMessage a s). Qed.

(** Settling [p] and removing its action, from a state [s1] that differs
    from [s] in disarmed timers at most. *)
Lemma Retires_remove (s s1 : State) (p : PendingMessage) (v : Settlement) :
  queue s1 = queue s →
  (∀ h t, timers s1 !! h = Some t → timers s !! h = Some t) →
  nextPromise s1 = nextPromise s →
  promises s1 = promises s →
  Retires s (removeFromQueue (baseAction p) (settle (promise p) v s1)) p.
Proof.
  intros Hq Ht Hn Hp.
  destruct (settle_core (promise p) v s1) as (Hsq & Hst & Hsn & _).
  destruct (removeFromQueue_core (baseAction p) (settle (promise p) v s1)) as (Hrp & Hrn & _).
  constructor.
  - by rewrite queue_removeFromQueue, Hsq, Hq.
  - by rewrite Hrn, Hsn.
  - exists v. rewrite Hrp. by apply promises_settle_ext.
  - intros h t. rewrite timers_removeFromQueue, Hst.
    destruct (getPendingMessage _ _); [|by auto].
    intros Hl. apply lookup_delete_Some in Hl as [_ Hl]. auto.
  - intros q Hf. rewrite timers_removeFromQueue.
    rewrite (getPendingMessage_ext _ s), Hf; [|by rewrite Hsq].
    apply lookup_delete_eq.
Qed.

Lemma Retires_clearTimeout (s s' : State) (p : PendingMessage) (h : nat) :
  Retires s s' p → Retires s (clearTimeout h s') p.
Proof.
  intros []. constructor; simpl; try done.
  - intros h' t Hl. apply lookup_delete_Some in Hl as [_ Hl]. auto.
  - intros q Hq. apply lookup_delete_None. right. auto.
Qed.

(** *** The handlers keep the invariant *)

Lemma Retires_onReplyTimeout (s s1 : State) (p : PendingMessage) :
  queue s1 = queue s → (∀ h t, timers s1 !! h = Some t → timers s !! h = Some t) →
  nextPromise s1 = nextPromise s → promises s1 = promises s →
  Retires s (onReplyTimeout p s1) p.
Proof. intros. unfold onReplyTimeout, reject. by apply Retires_remove. Qed.

Lemma Retires_onAckTimeout (s s1 : State) (p : PendingMessage) :
  queue s1 = queue s → (∀ h t, timers s1 !! h = Some t → timers s !! h = Some t) →
  nextPromise s1 = nextPromise s → promises s1 = promises s →
  Retires s (onAckTimeout p s1) p.
Proof.
  intros. unfold onAckTimeout, reject. apply Retires_clearTimeout.
  case_bool_decide; by apply Retires_remove.
Qed.

Lemma Inv_fire (h : nat) (s : State) : Inv s → Inv (fire h s).
Proof.
  intros HI. unfold fire. destruct (timers s !! h) as [t|] eqn:Hh; [|done].
  assert (Hsub : ∀ h' t', delete h (timers s) !! h' = Some t' → timers s !! h' = Some t').
  { intros h' t' Hl. by apply lookup_delete_Some in Hl as [_ Hl]. }
  destruct (callback t) as [p|p|] eqn:Hc.
  - apply (Inv_retires s _ p HI).
    + right. exists h, t. auto.
    + by apply Retires_onAckTimeout.
  - apply (Inv_retires s _ p HI).
    + right. exists h, t. auto.
    + by apply Retires_onReplyTimeout.
  - apply (Inv_step s _ HI); simpl; auto.
Qed.

Lemma Inv_receive (m : Message) (s : State) : Inv s → Inv (receive env m s).
Proof.
  intros HI. unfold receive. destruct (negb _); [done|].
  destruct (getPendingMessage _ s) as [p|] eqn:Hf; [|done].
  destruct (getPendingMessage_Some _ _ _ Hf) as [Hin Ha].
  repeat case_bool_decide; try done.
  - apply (Inv_step s _ HI); simpl; auto.
    intros h t Hl. apply lookup_delete_Some in Hl as [_ Hl]. auto.
  - apply (Inv_retires s _ p HI); [by left|]. rewrite <- Ha. unfold resolve.
    by apply Retires_remove.
  - apply (Inv_retires s _ p HI); [by left|]. rewrite <- Ha.
    unfold reject, rejectWithMessage. destruct (Message.error m); by apply Retires_remove.
Qed.

Lemma Inv_fireDue (fuel : nat) (deadline : Z) (s : State) :
  Inv s → Inv (fireDue fuel deadline s).
Proof.
  revert s. induction fuel as [|fuel IH]; intros s HI; simpl; [done|].
  destruct (earliest s) as [[h t]|]; [|done].
  destruct (Z.leb _ _); [|done]. apply IH. by apply Inv_fire.
Qed.

Lemma Inv_elapse (ms : Z) (s : State) : Inv s → Inv (elapse ms s).
Proof.
  intros HI. unfold elapse.
  eapply Inv_same; [..|apply (Inv_fireDue (size (timers s)) (now s + ms)%Z s HI)]; done.
Qed.

Lemma Inv_sendAckMessage (hidden : bool) (s : State) (m : Message) :
  Inv s → Inv (sendAckMessage config hidden s m).
Proof.
  intros HI. unfold sendAckMessage. destruct hidden; [|done].
  apply (Inv_step s _ HI); simpl; auto.
  intros h t Hl. apply lookup_insert_Some in Hl as [[_ <-]|[_ Hl]]; auto.
Qed.

Lemma Inv_visibilityChange (hidden : bool) (l : list Message) (s : State) :
  Inv s → Inv (foldl (sendAckMessage config hidden) s l).
Proof.
  revert s. induction l as [|m l IH]; intros s HI; simpl; [done|].
  apply IH. by apply Inv_sendAckMessage.
Qed.

(** [publishMessage] leaves the queue, the timers, the promises and the
    trace alone. *)
Lemma publishMessage_core (m : Message) (timeout : Z) (s s' : State) :
  publishMessage config env m timeout s = inr s' →
  queue s' = queue s ∧ timers s' = timers s ∧ promises s' = promises s
  ∧ nextPromise s' = nextPromise s ∧ nextTimer s' = nextTimer s ∧ trace s' = trace s
  ∧ now s' = now s.
Proof.
  unfold publishMessage. case_bool_decide.
  - destruct (isAndroidDevice env).
    + unfold launchAuthApp. destruct (IntentUrl.constructor m); [done|].
      destruct (pollForLoginSuccess _ _ _ _) as [[e|req] s2] eqn:E;
        unfold pollForLoginSuccess in E;
        repeat (match type of E with
                | context [if ?b then _ else _] => destruct b
                | context [match ?x with inl _ => _ | inr _ => _ end] => destruct x as [?|[[??]?]]
                end);
        simplify_eq; intros [= <-]; done.
    + unfold displayQRCode. destruct (IntentUrl.constructor m); [done|].
      destruct (renderQR env _); [done|].
      destruct (pollForLoginSuccess _ _ _ _) as [[e|req] s2] eqn:E;
        unfold pollForLoginSuccess in E;
        repeat (match type of E with
                | context [if ?b then _ else _] => destruct b
                | context [match ?x with inl _ => _ | inr _ => _ end] => destruct x as [?|[[??]?]]
                end);
        simplify_eq; intros [= <-]; by destruct (hasCanvas env).
  - by intros [= <-].
Qed.


Lemma known_registered (m : Message) (timeout : Z) (s : State) (p : PendingMessage) :
  known (registered config m timeout s) p →
  p = {| message := m; promise := nextPromise s;
         ackTimer := nextTimer s; replyTimer := S (nextTimer s) |}
  ∨ known s p.
Proof.
  intros [Hin|(h & t & Hl & Hc)].
  - simpl in Hin. apply elem_of_app in Hin as [Hin|Hin]; [right; by left|].
    left. by apply list_elem_of_singleton in Hin.
  - simpl in Hl.
    apply lookup_insert_Some in Hl as [[_ <-]|[_ Hl]].
    { simpl in Hc. left. by destruct Hc as [[=]|[= <-]]. }
    apply lookup_insert_Some in Hl as [[_ <-]|[_ Hl]].
    { simpl in Hc. left. by destruct Hc as [[= <-]|[=]]. }
    right. right. by exists h, t.
Qed.

Lemma Inv_registered (m : Message) (timeout : Z) (s : State) :
  getPendingMessage (Message.action m) s = None → Inv s → Inv (registered config m timeout s).
Proof.
  intros Hf HI. pose proof (known_registered m timeout s) as Hk.
  set (p0 := {| message := m; promise := nextPromise s;
                ackTimer := nextTimer s; replyTimer := S (nextTimer s) |}) in *.
  constructor.
  - simpl. rewrite map_app. apply NoDup_app. split; [apply HI|]. split.
    + intros a Ha Hin. apply list_elem_of_singleton in Hin. subst a.
      apply list_elem_of_fmap in Ha as (q & Hq & Hin).
      rewrite getPendingMessage_None in Hf. by apply (Hf q).
    + apply NoDup_singleton.
  - intros p Hp. simpl. destruct (Hk p Hp) as [->|Hold]; [simpl; lia|].
    pose proof (inv_fresh s HI p Hold). lia.
  - intros i v Hl. simpl in *. pose proof (inv_settled s HI i v Hl). lia.
  - intros p q Hp Hq Heq.
    destruct (Hk p Hp) as [->|Hp'], (Hk q Hq) as [->|Hq'].
    + done.
    + pose proof (inv_fresh s HI q Hq'). simpl in Heq. lia.
    + pose proof (inv_fresh s HI p Hp'). simpl in Heq. lia.
    + by apply (inv_unique s HI).
  - intros h t p Hl. simpl in Hl.
    apply lookup_insert_Some in Hl as [[<- <-]|[_ Hl]].
    { simpl. split; [done|]. by intros [= <-]. }
    apply lookup_insert_Some in Hl as [[<- <-]|[_ Hl]].
    { simpl. split; [|done]. by intros [= <-]. }
    by apply (inv_handles s HI).
  - intros p Hp. destruct (Hk p Hp) as [->|Hold]; [simpl; lia|].
    by apply (inv_distinct s HI).
  - intros p Hp. simpl in *. apply elem_of_app in Hp as [Hp|Hp].
    + by apply (inv_unsettled s HI).
    + apply list_elem_of_singleton in Hp. subst p. simpl.
      destruct (promises s !! nextPromise s) as [v|] eqn:E; [|done].
      pose proof (inv_settled s HI _ _ E). lia.
  - intros h t p Hl Hc. simpl in *.
    apply lookup_insert_Some in Hl as [[_ <-]|[_ Hl]].
    { simpl in Hc. injection Hc as <-. apply elem_of_app. right. by left. }
    apply lookup_insert_Some in Hl as [[_ <-]|[_ Hl]]; [done|].
    apply elem_of_app. left. by apply (inv_reply s HI h t).
Qed.

Lemma Inv_send (m : Message) (timeout : Z) (s : State) :
  Inv s → Inv (snd (send config env m timeout s)).
Proof.
  intros HI. unfold send.
  destruct (getPendingMessage (Message.action m) s) eqn:Hf; [done|].
  destruct (negb (isSecureContext env)); [done|].
  fold (registered config m timeout s).
  pose proof (Inv_registered m timeout s Hf HI) as HR.
  destruct (publishMessage _ _ _ _ _) as [e|s'] eqn:Hp; [done|]. simpl.
  apply publishMessage_core in Hp as (? & ? & ? & ? & _).
  by apply (Inv_same (registered config m timeout s)).
Qed.

Lemma Inv_event (s : State) (e : Event) : Inv s → Inv (step config env s e).
Proof.
  intros HI. destruct e as [m t|m| |h|ms|req code|req|hidden]; simpl.
  - by apply Inv_send.
  - by apply Inv_receive.
  - destruct (bus s) as [|m rest]; [done|].
    apply Inv_receive. by apply (Inv_same s).
  - by apply Inv_fire.
  - by apply Inv_elapse.
  - destruct (requests s !! req) as [[o [m|]]|]; try done.
    unfold onResponse. destruct (Z.eqb _ _); by apply (Inv_same s).
  - destruct (requests s !! req) as [[o [m|]]|]; try done.
    by apply (Inv_same s).
  - by apply Inv_visibilityChange.
Qed.

Lemma run_snoc (events : list Event) (e : Event) (s : State) :
  run config env (events ++ [e]) s = step config env (run config env events s) e.
Proof. unfold run. by rewrite foldl_app. Qed.

Lemma Inv_run (events : list Event) : Inv (run config env events initial).
Proof.
  induction events as [|e events IH] using rev_ind; [apply Inv_initial|].
  rewrite run_snoc. by apply Inv_event.
Qed.

End Invariant.

(** ** The protocol *)

Section Protocol.

Variable config : Config.
Variable env : Env.

Lemma promises_settle_None (i : nat) (v : Settlement) (s : State) :
  promises s !! i = None → promises (settle i v s) !! i = Some v.
Proof. intros H. unfold settle. rewrite H. simpl. apply lookup_insert_eq. Qed.

Lemma promises_settle_Some (i j : nat) (v w : Settlement) (s : State) :
  promises s !! j = Some w → promises (settle i v s) !! j = Some w.
Proof.
  intros H. unfold settle. destruct (promises s !! i) eqn:E; [done|]. simpl.
  rewrite lookup_insert_ne; [done|]. intros <-. congruence.
Qed.

Lemma promises_removeFromQueue (a : string) (s : State) :
  promises (removeFromQueue a s) = promises s.
Proof. apply removeFromQueue_core. Qed.

Lemma promises_onAckTimeout (p : PendingMessage) (s : State) :
  promises s !! promise p = None →
  promises (onAckTimeout p s) !! promise p
  = Some (Rejected (if bool_decide (Message.useAuthApp (message p) = Some true)
                    then AuthAppNotInstalledError else ExtensionUnavailableError)).
Proof.
  intros H. unfold onAckTimeout.
  change (promises (clearTimeout ?h ?x)) with (promises x).
  rewrite promises_removeFromQueue.
  case_bool_decide; unfold reject; by apply promises_settle_None.
Qed.

Lemma promises_onReplyTimeout (p : PendingMessage) (s : State) :
  promises s !! promise p = None →
  promises (onReplyTimeout p s) !! promise p = Some (Rejected ActionTimeoutError).
Proof.
  intros H. unfold onReplyTimeout. rewrite promises_removeFromQueue.
  unfold reject. by apply promises_settle_None.
Qed.

Lemma getPendingMessage_onAckTimeout (p : PendingMessage) (s : State) :
  getPendingMessage (baseAction p) (onAckTimeout p s) = None.
Proof.
  unfold onAckTimeout.
  erewrite (getPendingMessage_ext _ _ (clearTimeout _ _)); [|reflexivity].
  apply getPendingMessage_removeFromQueue.
Qed.

Lemma getPendingMessage_onReplyTimeout (p : PendingMessage) (s : State) :
  getPendingMessage (baseAction p) (onReplyTimeout p s) = None.
Proof. unfold onReplyTimeout. apply getPendingMessage_removeFromQueue. Qed.

(** No event but an accepted [send] puts an entry on the queue. *)
Lemma queue_fire (h : nat) (s : State) (q : PendingMessage) :
  q ∈ queue (fire h s) → q ∈ queue s.
Proof.
  unfold fire. destruct (timers s !! h) as [t|]; [|done].
  set (s1 := setNow _ _). assert (Hq : queue s1 = queue s) by reflexivity.
  destruct (callback t) as [p|p|]; [| |done].
  - rewrite (ret_queue s1 _ p (Retires_onAckTimeout s1 s1 p eq_refl ltac:(auto) eq_refl
                                 eq_refl)), Hq.
    intros Hin. by apply list_elem_of_filter in Hin as [_ Hin].
  - rewrite (ret_queue s1 _ p (Retires_onReplyTimeout s1 s1 p eq_refl ltac:(auto) eq_refl
                                 eq_refl)), Hq.
    intros Hin. by apply list_elem_of_filter in Hin as [_ Hin].
Qed.

Lemma queue_receive (m : Message) (s : State) (q : PendingMessage) :
  q ∈ queue (receive env m s) → q ∈ queue s.
Proof.
  unfold receive. destruct (negb _); [done|].
  destruct (getPendingMessage _ s) as [p|]; [|done].
  repeat case_bool_decide; try done.
  - rewrite queue_removeFromQueue. intros Hin. apply list_elem_of_filter in Hin as [_ Hin].
    unfold resolve in Hin. by rewrite (proj1 (settle_core _ _ _)) in Hin.
  - rewrite queue_removeFromQueue. intros Hin. apply list_elem_of_filter in Hin as [_ Hin].
    unfold reject, rejectWithMessage in Hin.
    destruct (Message.error m); by rewrite (proj1 (settle_core _ _ _)) in Hin.
Qed.

Lemma queue_fireDue (fuel : nat) (deadline : Z) (s : State) (q : PendingMessage) :
  q ∈ queue (fireDue fuel deadline s) → q ∈ queue s.
Proof.
  revert s. induction fuel as [|fuel IH]; intros s; simpl; [done|].
  destruct (earliest s) as [[h t]|]; [|done].
  destruct (Z.leb _ _); [|done]. intros Hin. by apply (queue_fire h), IH.
Qed.

Lemma queue_visibilityChange (hidden : bool) (l : list Message) (s : State) :
  queue (foldl (sendAckMessage config hidden) s l) = queue s.
Proof.
  revert s. induction l as [|m l IH]; intros s; simpl; [done|].
  rewrite IH. unfold sendAckMessage. by destruct hidden.
Qed.

Lemma queue_step (s : State) (e : Event) (q : PendingMessage) :
  q ∈ queue (step config env s e) →
  q ∈ queue s ∨ ∃ timeout, e = ESend (message q) timeout.
Proof.
  destruct e as [m t|m| |h|ms|req code|req|hidden]; simpl.
  - unfold send. destruct (getPendingMessage _ s); [by left|].
    destruct (negb _); [by left|]. fold (registered config m t s).
    assert (Hr : q ∈ queue (registered config m t s) →
                 q ∈ queue s ∨ ∃ timeout, ESend m t = ESend (message q) timeout).
    { simpl. intros Hin. apply elem_of_app in Hin as [Hin|Hin]; [by left|].
      apply list_elem_of_singleton in Hin. subst q. right. by exists t. }
    destruct (publishMessage _ _ _ _ _) as [e|s'] eqn:Hp; [done|]. simpl.
    apply publishMessage_core in Hp as (-> & _). done.
  - intros H. left. by eapply queue_receive.
  - intros H. left. destruct (bus s); [done|]. apply queue_receive in H. exact H.
  - intros H. left. by eapply queue_fire.
  - intros H. left. unfold elapse in H. apply queue_fireDue in H. exact H.
  - intros H. left. destruct (requests s !! req) as [[o [m|]]|]; try done.
    unfold onResponse in H. by destruct (Z.eqb _ _).
  - intros H. left. by destruct (requests s !! req) as [[o [m|]]|].
  - intros H. left. by rewrite queue_visibilityChange in H.
Qed.

Lemma queue_sent (events : list Event) (q : PendingMessage) :
  q ∈ queue (run config env events initial) →
  ∃ timeout, ESend (message q) timeout ∈ events.
Proof.
  induction events as [|e events IH] using rev_ind; simpl.
  - intros H. by apply elem_of_nil in H.
  - rewrite run_snoc. intros H. apply queue_step in H as [H|[t ->]].
    + destruct (IH H) as [t Ht]. exists t. apply elem_of_app. by left.
    + exists t. apply elem_of_app. right. by left.
Qed.

(** C1.  Whenever the queue holds a pending request for the action of
    [m], [send(m, timeout)] returns a promise rejected with
    [ActionPendingError] and leaves the whole state, the queue and the
    timers with it, as it was; so in every state the service can reach
    no two pending requests have the same action, and, when the messages
    sent carry base actions, none have the same action after the suffix is
    stripped either. *)
Theorem send_single_flight (s : State) (m : Message) (timeout : Z) (p : PendingMessage) :
  p ∈ queue s → baseAction p = Message.action m →
  send config env m timeout s = (ReturnsRejected ActionPendingError, s)
  ∧ (∀ events, NoDup (map baseAction (queue (run config env events initial))))
  ∧ (∀ events,
       (∀ m' t, ESend m' t ∈ events → getInitialAction (Message.action m') = Message.action m') →
       NoDup (map (getInitialAction ∘ baseAction) (queue (run config env events initial)))).
Proof.
  intros Hin Ha. split; [|split].
  - unfold send. destruct (getPendingMessage (Message.action m) s) eqn:Hf; [done|].
    rewrite getPendingMessage_None in Hf. by destruct (Hf p Hin).
  - intros events. apply (inv_nodup _ (Inv_run config env events)).
  - intros events Hbase.
    rewrite (map_ext_in _ baseAction).
    + apply (inv_nodup _ (Inv_run config env events)).
    + intros q Hq. apply list_elem_of_In in Hq. apply queue_sent in Hq as [t Ht].
      simpl. by apply (Hbase _ t).
Qed.

(** What [send] arms when it accepts a message: the ack timer at the
    handshake timeout of the configuration, the reply timer at the timeout
    of the caller, both counted from the moment of the call. *)
Lemma send_arms_timers (m : Message) (timeout : Z) (s : State) :
  getPendingMessage (Message.action m) s = None → isSecureContext env = true →
  let p := {| message := m; promise := nextPromise s;
              ackTimer := nextTimer s; replyTimer := S (nextTimer s) |} in
  let s' := snd (send config env m timeout s) in
  p ∈ queue s'
  ∧ timers s' !! ackTimer p
    = Some {| due := (now s + EXTENSION_HANDSHAKE_TIMEOUT config)%Z;
              callback := AckTimeout p |}
  ∧ timers s' !! replyTimer p
    = Some {| due := (now s + timeout)%Z; callback := ReplyTimeout p |}.
Proof.
  intros Hf Hs p s'.
  assert (H : p ∈ queue (registered config m timeout s)
              ∧ timers (registered config m timeout s) !! ackTimer p
                = Some {| due := (now s + EXTENSION_HANDSHAKE_TIMEOUT config)%Z;
                          callback := AckTimeout p |}
              ∧ timers (registered config m timeout s) !! replyTimer p
                = Some {| due := (now s + timeout)%Z; callback := ReplyTimeout p |}).
  { split; [|split].
    - simpl. apply elem_of_app. right. by left.
    - simpl. rewrite lookup_insert_ne; [|lia]. apply lookup_insert_eq.
    - simpl. apply lookup_insert_eq. }
  unfold s', send. rewrite Hf, Hs. simpl negb. cbv iota.
  fold (registered config m timeout s).
  destruct (publishMessage _ _ _ _ _) as [e|s2] eqn:Hp; [done|]. simpl.
  apply publishMessage_core in Hp as (-> & -> & _). done.
Qed.

(** C4, as the code has it.  When the ack timer of a request fires (no
    ack has arrived for it: the timer, which [send] set to the handshake
    timeout of the configuration, is still armed), the promise of the
    request is rejected if it is not settled yet: with
    [AuthAppNotInstalledError] when [useAuthApp] of its message is true,
    with [ExtensionUnavailableError] otherwise.  It is not settled yet
    whenever the request is still in the queue.  A promise that was
    settled before (resolved by a success message, rejected by a failure
    message or by the reply timer) keeps its settlement.  Afterwards the
    queue has no entry for the action. *)
Theorem onAckTimeout_disambiguation (events : list Event) (p : PendingMessage) :
  let s := run config env events initial in
  let unavailable :=
    Rejected (if bool_decide (Message.useAuthApp (message p) = Some true)
              then AuthAppNotInstalledError else ExtensionUnavailableError) in
  armedAck s p →
  promises (fire (ackTimer p) s) !! promise p
  = Some (default unavailable (promises s !! promise p))
  ∧ (p ∈ queue s → promises (fire (ackTimer p) s) !! promise p = Some unavailable)
  ∧ getPendingMessage (baseAction p) (fire (ackTimer p) s) = None
  ∧ ∀ m timeout s0,
      getPendingMessage (Message.action m) s0 = None → isSecureContext env = true →
      timers (snd (send config env m timeout s0)) !! nextTimer s0
      = Some {| due := (now s0 + EXTENSION_HANDSHAKE_TIMEOUT config)%Z;
                callback := AckTimeout {| message := m; promise := nextPromise s0;
                                          ackTimer := nextTimer s0;
                                          replyTimer := S (nextTimer s0) |} |}.
Proof.
  intros s unavailable [d Harmed].
  pose proof (Inv_run config env events) as HI. fold s in HI.
  split; [|split; [|split]].
  - unfold fire. rewrite Harmed. cbn [callback due].
    set (s1 := setNow _ _). change (promises s !! promise p) with (promises s1 !! promise p).
    destruct (promises s1 !! promise p) as [v|] eqn:E; cbn [default].
    + unfold onAckTimeout. change (promises (clearTimeout ?x ?y)) with (promises y).
      rewrite promises_removeFromQueue. case_bool_decide; by apply promises_settle_Some.
    + by apply promises_onAckTimeout.
  - intros Hin. pose proof (inv_unsettled s HI p Hin) as Hun.
    unfold fire. rewrite Harmed. simpl. by apply promises_onAckTimeout.
  - unfold fire. rewrite Harmed. simpl. apply getPendingMessage_onAckTimeout.
  - intros m timeout s0 Hf Hs. by apply (send_arms_timers m timeout s0).
Qed.

Lemma getPendingMessage_in (s : State) (p : PendingMessage) :
  NoDup (map baseAction (queue s)) → p ∈ queue s →
  getPendingMessage (baseAction p) s = Some p.
Proof.
  intros Hnd Hin. destruct (getPendingMessage (baseAction p) s) as [q|] eqn:Hf.
  - f_equal. symmetry. by eapply getPendingMessage_unique.
  - rewrite getPendingMessage_None in Hf. by destruct (Hf p Hin).
Qed.

Lemma matchedAtEnd_hyphen (b w : string) :
  w ∈ replyWords →
  Regex.matchedAtEnd ["success"; "failure"; "ack"] (b +:+ ("-" +:+ w)) = Some w.
Proof.
  intros Hw. rewrite <- (append_assoc b "-" w). by apply matchedAtEnd_append.
Qed.

(** What [receive] does with an ack, a success and a failure message for
    a pending request. *)
Lemma receive_ack (m : Message) (s : State) (p : PendingMessage) (b : string) :
  startsWith "web-eid:" b = true → Message.action m = b +:+ "-ack" →
  getPendingMessage b s = Some p →
  receive env m s = clearTimeout (ackTimer p) (logTransition p TAck s).
Proof.
  intros Hpre Ha Hf. unfold receive. rewrite Ha.
  rewrite (startsWith_append _ _ _ Hpre). simpl.
  rewrite getInitialAction_append by (unfold replySuffixes; repeat constructor).
  rewrite Hf.
  change (b +:+ "-ack") with (b +:+ ("-" +:+ "ack")).
  rewrite (matchedAtEnd_hyphen b "ack") by (unfold replyWords; repeat constructor).
  by rewrite bool_decide_eq_true_2.
Qed.

Lemma receive_success (m : Message) (s : State) (p : PendingMessage) (b : string) :
  startsWith "web-eid:" b = true → Message.action m = b +:+ "-success" →
  getPendingMessage b s = Some p →
  receive env m s = removeFromQueue b (resolve p m (logTransition p TSuccess s)).
Proof.
  intros Hpre Ha Hf. unfold receive. rewrite Ha.
  rewrite (startsWith_append _ _ _ Hpre). simpl.
  rewrite getInitialAction_append by (unfold replySuffixes; repeat constructor).
  rewrite Hf.
  change (b +:+ "-success") with (b +:+ ("-" +:+ "success")).
  rewrite (matchedAtEnd_hyphen b "success") by (unfold replyWords; repeat constructor).
  rewrite bool_decide_eq_false_2 by discriminate.
  by rewrite bool_decide_eq_true_2.
Qed.

Lemma receive_failure (m : Message) (s : State) (p : PendingMessage) (b : string) :
  startsWith "web-eid:" b = true → Message.action m = b +:+ "-failure" →
  getPendingMessage b s = Some p →
  receive env m s
  = removeFromQueue b
      (match Message.error m with
       | Some e => reject p (deserializeError env e) (logTransition p TFailure s)
       | None => rejectWithMessage p m (logTransition p TFailure s)
       end).
Proof.
  intros Hpre Ha Hf. unfold receive. rewrite Ha.
  rewrite (startsWith_append _ _ _ Hpre). simpl.
  rewrite getInitialAction_append by (unfold replySuffixes; repeat constructor).
  rewrite Hf.
  change (b +:+ "-failure") with (b +:+ ("-" +:+ "failure")).
  rewrite (matchedAtEnd_hyphen b "failure") by (unfold replyWords; repeat constructor).
  rewrite !bool_decide_eq_false_2 by discriminate.
  by rewrite bool_decide_eq_true_2.
Qed.

(** C3, as the code has it.  While the reply timer of a request is armed
    (no success, no failure and no ack timeout has retired the request),
    it rejects the promise with [ActionTimeoutError] when it fires and the
    entry leaves the queue, whether an ack came before or not: an ack for
    the request clears its ack timer and nothing else, so that the reply
    timer, which [send] set to the timeout of the caller, stays armed. *)
Theorem reply_timer_independent (events : list Event) (p : PendingMessage) :
  let s := run config env events initial in
  armedReply s p →
  (promises (fire (replyTimer p) s) !! promise p = Some (Rejected ActionTimeoutError)
   ∧ getPendingMessage (baseAction p) (fire (replyTimer p) s) = None)
  ∧ (∀ ack, startsWith "web-eid:" (baseAction p) = true →
       Message.action ack = baseAction p +:+ "-ack" →
       timers (receive env ack s) = delete (ackTimer p) (timers s)
       ∧ armedReply (receive env ack s) p
       ∧ queue (receive env ack s) = queue s
       ∧ promises (receive env ack s) = promises s)
  ∧ (∀ m timeout s0,
       getPendingMessage (Message.action m) s0 = None → isSecureContext env = true →
       timers (snd (send config env m timeout s0)) !! S (nextTimer s0)
       = Some {| due := (now s0 + timeout)%Z;
                 callback := ReplyTimeout {| message := m; promise := nextPromise s0;
                                             ackTimer := nextTimer s0;
                                             replyTimer := S (nextTimer s0) |} |}).
Proof.
  intros s [d Harmed].
  pose proof (Inv_run config env events) as HI. fold s in HI.
  assert (Hin : p ∈ queue s) by (by eapply (inv_reply s HI)).
  pose proof (inv_unsettled s HI p Hin) as Hun.
  split; [|split].
  - unfold fire. rewrite Harmed. simpl. split.
    + by apply promises_onReplyTimeout.
    + apply getPendingMessage_onReplyTimeout.
  - intros ack Hpre Ha.
    rewrite (receive_ack ack s p (baseAction p) Hpre Ha)
      by (apply getPendingMessage_in; [apply HI|done]).
    simpl. repeat split; try done.
    exists d. simpl. rewrite lookup_delete_ne; [done|].
    apply (inv_distinct s HI). by left.
  - intros m timeout s0 Hf Hs. by apply (send_arms_timers m timeout s0).
Qed.

(** The actions the poll handlers post, for a message with a base
    action. *)
Lemma relevantActions_base (m : Message) :
  Message.action m ∈ Action.base →
  startsWith "web-eid:" (Message.action m) = true
  ∧ getRelevantAckAction m = Message.action m +:+ "-ack"
  ∧ getRelevantSuccessAction m = Message.action m +:+ "-success"
  ∧ getRelevantErrorAction m = Message.action m +:+ "-failure".
Proof.
  unfold getRelevantAckAction, getRelevantSuccessAction, getRelevantErrorAction, Action.base.
  intros H. set_unfold. destruct H as [->|[->|[->|[]]]]; done.
Qed.

(** A success or failure message that is alone on the bus settles the
    pending request of its action when it is delivered. *)
Lemma dispatch_success (msg : Message) (s : State) (p : PendingMessage) (b : string) :
  bus s = [] → startsWith "web-eid:" b = true → Message.action msg = b +:+ "-success" →
  getPendingMessage b s = Some p → promises s !! promise p = None →
  promises (step config env (postMessage msg s) EDispatch) !! promise p = Some (Resolved msg)
  ∧ getPendingMessage b (step config env (postMessage msg s) EDispatch) = None.
Proof.
  intros Hbus Hpre Ha Hf Hun. simpl. rewrite Hbus. simpl.
  rewrite (receive_success msg _ p b Hpre Ha) by done. split.
  - rewrite promises_removeFromQueue. unfold resolve. by apply promises_settle_None.
  - apply getPendingMessage_removeFromQueue.
Qed.

Lemma dispatch_failure (msg : Message) (e : Error) (s : State) (p : PendingMessage)
    (b : string) :
  bus s = [] → startsWith "web-eid:" b = true → Message.action msg = b +:+ "-failure" →
  Message.error msg = Some e →
  getPendingMessage b s = Some p → promises s !! promise p = None →
  promises (step config env (postMessage msg s) EDispatch) !! promise p
  = Some (Rejected (deserializeError env e))
  ∧ getPendingMessage b (step config env (postMessage msg s) EDispatch) = None.
Proof.
  intros Hbus Hpre Ha He Hf Hun. simpl. rewrite Hbus. simpl.
  rewrite (receive_failure msg _ p b Hpre Ha) by done. rewrite He. split.
  - rewrite promises_removeFromQueue. unfold reject. by apply promises_settle_None.
  - apply getPendingMessage_removeFromQueue.
Qed.

(** C6.  In the mobile flow, for a polling request whose handlers are
    attached for the message [m] of a pending request with a base action:
    an answer with status 200 posts the [-success] message of that action
    on the bus; any other status posts its [-failure] message with the
    error the status stands for (400 [MissingParameterError], 403
    [ServerRejectedError], 408 [ServerTimeoutError], 444
    [UserCancelledError], 449 [UserPinError], anything else
    [UnknownError]); a network failure posts the [-failure] message with
    [ServerRejectedError].  Delivered by the bus, the message settles the
    promise of the request in [receive], as a message of the extension
    would: resolved for 200, rejected with the deserialised error
    otherwise; the entry leaves the queue. *)
Theorem poll_status_settles (events : list Event) (req : nat) (o : RequestOptions)
    (m : Message) (p : PendingMessage) :
  let s := run config env events initial in
  Message.action m ∈ Action.base →
  requests s !! req = Some {| options := o; listener := Some m |} →
  getPendingMessage (Message.action m) s = Some p →
  bus s = [] →
  (∀ code,
     bus (step config env s (EResponse req code))
     = [if Z.eqb code 200 then Message.ofAction (Message.action m +:+ "-success")
        else Message.ofError (Message.action m +:+ "-failure") (statusError code)])
  ∧ bus (step config env s (ERequestError req))
    = [Message.ofError (Message.action m +:+ "-failure") ServerRejectedError]
  ∧ (statusError 400 = MissingParameterError "A parameter is missing!"
     ∧ statusError 403 = ServerRejectedError
     ∧ statusError 408 = ServerTimeoutError
     ∧ statusError 444 = UserCancelledError
     ∧ statusError 449 = UserPinError
     ∧ ∀ code, code ≠ 400%Z → code ≠ 403%Z → code ≠ 408%Z → code ≠ 444%Z → code ≠ 449%Z →
         statusError code = UnknownError ("Error code: " +:+ pretty code))
  ∧ promises (run config env [EResponse req 200; EDispatch] s) !! promise p
    = Some (Resolved (Message.ofAction (Message.action m +:+ "-success")))
  ∧ (∀ code, code ≠ 200%Z →
       promises (run config env [EResponse req code; EDispatch] s) !! promise p
       = Some (Rejected (deserializeError env (statusError code))))
  ∧ promises (run config env [ERequestError req; EDispatch] s) !! promise p
    = Some (Rejected (deserializeError env ServerRejectedError))
  ∧ (∀ code,
       getPendingMessage (Message.action m)
         (run config env [EResponse req code; EDispatch] s) = None).
Proof.
  intros s Hbase Hreq Hf Hbus.
  pose proof (Inv_run config env events) as HI. fold s in HI.
  destruct (getPendingMessage_Some _ _ _ Hf) as [Hin _].
  pose proof (inv_unsettled s HI p Hin) as Hun.
  destruct (relevantActions_base m Hbase) as (Hpre & _ & Hsucc & Hfail).
  assert (Hresp : ∀ code, step config env s (EResponse req code)
                  = postMessage (if Z.eqb code 200
                                 then Message.ofAction (Message.action m +:+ "-success")
                                 else Message.ofError (Message.action m +:+ "-failure")
                                        (statusError code)) s).
  { intros code. simpl. rewrite Hreq. unfold onResponse. rewrite Hsucc, Hfail.
    by destruct (Z.eqb code 200). }
  assert (Herr : step config env s (ERequestError req)
                 = postMessage (Message.ofError (Message.action m +:+ "-failure")
                                  ServerRejectedError) s).
  { simpl. rewrite Hreq. unfold onError. by rewrite Hfail. }
  split; [|split; [|split; [|split; [|split; [|split]]]]].
  - intros code. rewrite Hresp. simpl. by rewrite Hbus.
  - rewrite Herr. simpl. by rewrite Hbus.
  - repeat split; try reflexivity.
    intros code H1 H2 H3 H4 H5. unfold statusError.
    by rewrite !(proj2 (Z.eqb_neq _ _)).
  - change (run config env [EResponse req 200; EDispatch] s)
      with (step config env (step config env s (EResponse req 200)) EDispatch).
    rewrite Hresp. simpl Z.eqb. cbv iota.
    by apply (dispatch_success _ s p (Message.action m)).
  - intros code Hcode.
    change (run config env [EResponse req code; EDispatch] s)
      with (step config env (step config env s (EResponse req code)) EDispatch).
    rewrite Hresp. rewrite (proj2 (Z.eqb_neq _ _) Hcode).
    by apply (dispatch_failure _ (statusError code) s p (Message.action m)).
  - change (run config env [ERequestError req; EDispatch] s)
      with (step config env (step config env s (ERequestError req)) EDispatch).
    rewrite Herr.
    by apply (dispatch_failure _ ServerRejectedError s p (Message.action m)).
  - intros code.
    change (run config env [EResponse req code; EDispatch] s)
      with (step config env (step config env s (EResponse req code)) EDispatch).
    rewrite Hresp. destruct (Z.eqb code 200).
    + by apply (dispatch_success _ s p (Message.action m)).
    + by apply (dispatch_failure _ (statusError code) s p (Message.action m)).
Qed.

End Protocol.

(** A request sent to the extension, with no answer yet. *)
Lemma send_single_flight_witness :
  let s := run exampleConfig exampleEnv [ESend authenticate 30000] initial in
  send exampleConfig exampleEnv authenticate 500 s = (ReturnsRejected ActionPendingError, s).
Proof.
  intros s.
  apply (send_single_flight exampleConfig exampleEnv s authenticate 500 firstPending).
  - vm_compute. left.
  - reflexivity.
Defined.

Lemma onAckTimeout_disambiguation_witness :
  let s := run exampleConfig exampleEnv [ESend authenticate 30000] initial in
  promises (fire 1 s) !! 0 = Some (Rejected ExtensionUnavailableError)
  ∧ getPendingMessage "web-eid:authenticate" (fire 1 s) = None.
Proof.
  intros s.
  destruct (onAckTimeout_disambiguation exampleConfig exampleEnv
              [ESend authenticate 30000] firstPending) as (H1 & _ & H2 & _).
  - exists 1000%Z. by vm_compute.
  - split; [exact H1|exact H2].
Defined.

(** C4 as it is worded fails: with no ack within the handshake timeout
    (1000 ms here), the promise of a request sent with a timeout of 500 ms
    is rejected with [ActionTimeoutError] by the reply timer, and the
    promise of a request that a success message resolved stays resolved;
    in both runs the ack timer fires afterwards and changes neither. *)
Lemma ack_timeout_after_settlement :
  let s := run exampleConfig exampleEnv [ESend authenticate 500; EElapse 1000] initial in
  let s' := run exampleConfig exampleEnv
              [ESend authenticate 30000; EReceive authenticateSuccess; EElapse 1000] initial in
  promises s !! 0 = Some (Rejected ActionTimeoutError)
  ∧ trace s = [(0, TReplyTimeout); (0, TAckTimeout)]
  ∧ promises s' !! 0 = Some (Resolved authenticateSuccess)
  ∧ trace s' = [(0, TSuccess); (0, TAckTimeout)]
  ∧ now s = 1000%Z ∧ now s' = 1000%Z.
Proof. by vm_compute. Qed.

Lemma reply_timer_independent_witness :
  let s := run exampleConfig exampleEnv
             [ESend authenticate 30000; EElapse 500; EReceive authenticateAck] initial in
  promises (fire 2 s) !! 0 = Some (Rejected ActionTimeoutError)
  ∧ getPendingMessage "web-eid:authenticate" (fire 2 s) = None.
Proof.
  intros s.
  destruct (reply_timer_independent exampleConfig exampleEnv
              [ESend authenticate 30000; EElapse 500; EReceive authenticateAck]
              firstPending) as (H & _).
  - exists 30000%Z. by vm_compute.
  - exact H.
Defined.

(** C3 as it is worded fails: with no ack, no success and no failure the
    ack timer fires first, after the handshake timeout (1000 ms here), and
    the promise of a request sent with a timeout of 30000 ms is rejected
    with [ExtensionUnavailableError]; the reply timer is cleared and
    [ActionTimeoutError] never comes. *)
Lemma reply_timeout_preempted_by_ack_timeout :
  let sent := send exampleConfig exampleEnv authenticate 30000 initial in
  let s := elapse 30000 (snd sent) in
  fst sent = Returns 0
  ∧ promises s !! 0 = Some (Rejected ExtensionUnavailableError)
  ∧ trace s = [(0, TAckTimeout)]
  ∧ timers s = ∅
  ∧ now s = 30000%Z.
Proof. by vm_compute. Qed.

(** A request in the mobile flow: the QR code is shown, the ack it posts
    is delivered, the polling request is on its way. *)
Lemma poll_status_settles_witness :
  let s := run exampleConfig exampleEnv [ESend authPair 30000; EDispatch] initial in
  promises (run exampleConfig exampleEnv [EResponse 0 449; EDispatch] s) !! 0
  = Some (Rejected UserPinError)
  ∧ promises (run exampleConfig exampleEnv [EResponse 0 200; EDispatch] s) !! 0
    = Some (Resolved (Message.ofAction "web-eid:authenticate-success")).
Proof.
  intros s.
  destruct (poll_status_settles exampleConfig exampleEnv [ESend authPair 30000; EDispatch] 0
              {| host := "rp.example"; port := "443"; path := "/status"; method := "GET";
                 requestHeaders := Some [("X-Id", "7")]; requestTimeout := 30000 |}
              authPair {| message := authPair; promise := 0; ackTimer := 1; replyTimer := 2 |})
    as (_ & _ & _ & Hok & Hfail & _).
  - unfold Action.base. repeat constructor.
  - by vm_compute.
  - by vm_compute.
  - by vm_compute.
  - split; [|exact Hok]. by apply (Hfail 449%Z).
Defined.

(** ** The handlers that run for a request *)

Section Trace.

Variable config : Config.
Variable env : Env.

Lemma countOf_snoc (k : Transition → bool) (i j : nat) (t : Transition)
    (tr : list (nat * Transition)) :
  countOf k i (tr ++ [(j, t)])
  = (countOf k i tr + (if Nat.eqb j i && k t then 1 else 0))%nat.
Proof.
  unfold countOf. rewrite List.filter_app, length_app. simpl.
  by destruct (Nat.eqb j i && k t).
Qed.

Lemma countOf_snoc_eq (k : Transition → bool) (i : nat) (t : Transition)
    (tr : list (nat * Transition)) :
  countOf k i (tr ++ [(i, t)]) = (countOf k i tr + (if k t then 1 else 0))%nat.
Proof. by rewrite countOf_snoc, Nat.eqb_refl. Qed.

Lemma countOf_snoc_ne (k : Transition → bool) (i j : nat) (t : Transition)
    (tr : list (nat * Transition)) :
  j ≠ i → countOf k i (tr ++ [(j, t)]) = countOf k i tr.
Proof.
  intros H. rewrite countOf_snoc. apply Nat.eqb_neq in H. rewrite H. simpl. lia.
Qed.

Lemma countOf_le (k k' : Transition → bool) (i : nat) (tr : list (nat * Transition)) :
  (∀ t, k t = true → k' t = true) → (countOf k i tr ≤ countOf k' i tr)%nat.
Proof.
  intros Hk. unfold countOf. induction tr as [|[j t] tr IH]; simpl; [done|].
  destruct (Nat.eqb j i); simpl; [|done].
  destruct (k t) eqn:E.
  - rewrite (Hk t E). simpl. lia.
  - destruct (k' t); simpl; lia.
Qed.

Lemma countOf_terminal (i : nat) (tr : list (nat * Transition)) :
  countOf isTerminal i tr
  = (countOf isSettling i tr + countOf isAckTimeout i tr)%nat.
Proof.
  unfold countOf. induction tr as [|[j t] tr IH]; simpl; [done|].
  destruct (Nat.eqb j i); simpl; [|done]. destruct t; simpl; lia.
Qed.

Lemma TraceInv_initial : TraceInv initial.
Proof.
  constructor; unfold countOf; simpl; intros; try done; try lia.
  rewrite lookup_empty. split; [lia|]. by intros [? ?].

Qed.

(** A step that runs no handler. *)
Lemma TraceInv_step (s s' : State) :
  TraceInv s →
  trace s' = trace s → nextPromise s' = nextPromise s → promises s' = promises s →
  (∀ q, q ∈ queue s' → q ∈ queue s) →
  (∀ h t, timers s' !! h = Some t → timers s !! h = Some t ∨ callback t = DetachListener) →
  TraceInv s'.
Proof.
  intros [] Htr Hn Hpr Hq Ht. constructor; rewrite ?Htr, ?Hn, ?Hpr; try done.
  - intros i p Hc Hp. destruct (tr_retired0 i p Hc Hp) as [H1 H2]. split; [by auto|].
    intros h t Hl Hcb. destruct (Ht _ _ Hl) as [Hold|Hd]; [by eapply H2|].
    rewrite Hd in Hcb. discriminate.
  - intros i p Hc Hp h t Hl Hcb. destruct (Ht _ _ Hl) as [Hold|Hd].
    + by eapply (tr_ack_disarmed0 i p).
    + rewrite Hd in Hcb. discriminate.
Qed.

(** An ack for a request in the queue. *)
Lemma TraceInv_ack (s s' : State) (p : PendingMessage) :
  Inv s → TraceInv s → p ∈ queue s →
  trace s' = (trace s ++ [(promise p, TAck)])%list →
  nextPromise s' = nextPromise s → queue s' = queue s →
  timers s' = delete (ackTimer p) (timers s) → promises s' = promises s →
  TraceInv s'.
Proof.
  intros HI [] Hin Htr Hn Hq Ht Hpr.
  assert (Hk : known s p) by (by left).
  assert (Hzero : countOf isTerminal (promise p) (trace s) = 0).
  { destruct (countOf isTerminal (promise p) (trace s)) eqn:E; [done|].
    destruct (tr_retired0 (promise p) p); [lia|done|done]. }
  constructor; rewrite ?Htr, ?Hn, ?Hq, ?Ht.
  - intros i k Hi. pose proof (inv_fresh s HI p Hk).
    rewrite countOf_snoc_ne by lia. by apply tr_fresh0.
  - intros i. pose proof (tr_settling0 i).
    destruct (decide (promise p = i)) as [<-|Hneq].
    + rewrite countOf_snoc_eq. simpl. lia.
    + by rewrite countOf_snoc_ne.
  - intros i. pose proof (tr_ack_timeout0 i).
    destruct (decide (promise p = i)) as [<-|Hneq].
    + rewrite countOf_snoc_eq. simpl. lia.
    + by rewrite countOf_snoc_ne.
  - intros i q Hc Hp.
    assert (Hc' : (1 ≤ countOf isTerminal i (trace s))%nat).
    { destruct (decide (promise p = i)) as [<-|Hneq].
      - rewrite countOf_snoc_eq in Hc. simpl in Hc. lia.
      - by rewrite countOf_snoc_ne in Hc. }
    destruct (tr_retired0 i q Hc' Hp) as [H1 H2]. split; [done|].
    intros h t Hl. apply lookup_delete_Some in Hl as [_ Hl]. by eapply H2.
  - intros i q Hc Hp h t Hl Hcb. apply lookup_delete_Some in Hl as [Hne Hl].
    destruct (decide (promise p = i)) as [Heq|Hneq].
    + assert (q = p) as ->.
      { apply (inv_unique s HI); [|done|congruence]. right. exists h, t. auto. }
      destruct (inv_handles s HI h t p Hl) as [Hh _]. by specialize (Hh Hcb).
    + rewrite !countOf_snoc_ne in Hc by done.
      by apply (tr_ack_disarmed0 i q) in Hl.
  - intros i Hc.
    destruct (decide (promise p = i)) as [<-|Hneq].
    + rewrite countOf_snoc_eq. simpl.
      pose proof (countOf_le isAckTimeout isTerminal (promise p) (trace s)
                    ltac:(by intros [])) as Hle. lia.
    + rewrite countOf_snoc_ne in * by done. by apply tr_acked0.
  - intros i. rewrite Hpr, <- tr_settled0.
    destruct (decide (promise p = i)) as [<-|Hneq].
    + rewrite countOf_snoc_eq. simpl. by rewrite Nat.add_0_r.
    + by rewrite countOf_snoc_ne.
Qed.

(** A terminal handler for the request [p]. *)
Lemma TraceInv_retires (s s' : State) (p : PendingMessage) (k : Transition) :
  Inv s → TraceInv s → known s p → Retires s s' p →
  trace s' = (trace s ++ [(promise p, k)])%list →
  timers s' !! replyTimer p = None →
  (isSettling k = true ∧ countOf isTerminal (promise p) (trace s) = 0)
  ∨ (k = TAckTimeout ∧ countOf isAckTimeout (promise p) (trace s) = 0
     ∧ countOf isAck (promise p) (trace s) = 0 ∧ timers s' !! ackTimer p = None) →
  TraceInv s'.
Proof.
  intros HI [] Hk [Hq Hn [v Hv] Ht Hr] Htr Hreply Hkind.
  assert (Hsame : ∀ q, q ∈ queue s' → q ∈ queue s ∧ baseAction q ≠ baseAction p).
  { intros q. rewrite Hq. intros Hin. apply list_elem_of_filter in Hin. tauto. }
  assert (Hp_gone : ∀ q, promise q = promise p → q ∉ queue s').
  { intros q Heq Hin. destruct (Hsame q Hin) as [Hin' Hne].
    assert (q = p) as ->; [|done]. apply (inv_unique s HI); [by left|done|done]. }
  assert (Hp_reply : ∀ q h t, promise q = promise p → timers s' !! h = Some t →
                              callback t ≠ ReplyTimeout q).
  { intros q h t Heq Hl Hcb. pose proof (Ht _ _ Hl) as Hl'.
    assert (q = p) as ->.
    { apply (inv_unique s HI); [|done|done]. right. exists h, t. auto. }
    destruct (inv_handles s HI h t p Hl') as [_ Hh]. rewrite (Hh Hcb) in Hreply.
    congruence. }
  pose proof (countOf_le isSettling isTerminal (promise p) (trace s)
                ltac:(by intros [])) as Hle1.
  pose proof (countOf_le isAckTimeout isTerminal (promise p) (trace s)
                ltac:(by intros [])) as Hle2.
  assert (Hle1' : ∀ k', isSettling k' = true → isTerminal k' = true) by (by intros []).
  assert (Hcases : k ≠ TAck ∧ (isSettling k = true ∨ k = TAckTimeout)).
  { destruct Hkind as [[Hs _]|[-> _]]; [|by auto]. by destruct k; auto. }
  destruct Hcases as [Hnack Hcases].
  constructor; rewrite ?Htr, ?Hn.
  - intros i k' Hi. pose proof (inv_fresh s HI p Hk).
    rewrite countOf_snoc_ne by lia. by apply tr_fresh0.
  - intros i. pose proof (tr_settling0 i).
    destruct (decide (promise p = i)) as [<-|Hneq]; [|by rewrite countOf_snoc_ne].
    rewrite countOf_snoc_eq.
    destruct Hkind as [[Hs Hz]|(-> & _)]; [rewrite Hs|simpl]; lia.
  - intros i. pose proof (tr_ack_timeout0 i).
    destruct (decide (promise p = i)) as [<-|Hneq]; [|by rewrite countOf_snoc_ne].
    rewrite countOf_snoc_eq.
    destruct Hkind as [[Hs Hz]|(-> & Hz & _)]; [|simpl; lia].
    destruct k; simpl in *; try discriminate; lia.
  - intros i q Hc Hpq.
    destruct (decide (promise p = i)) as [Heq|Hneq].
    + split; [apply Hp_gone; congruence|].
      intros h t. apply Hp_reply. congruence.
    + rewrite countOf_snoc_ne in Hc by done.
      destruct (tr_retired0 i q Hc Hpq) as [H1 H2]. split.
      * intros Hin. apply H1. by apply Hsame.
      * intros h t Hl. eapply H2. eauto.
  - intros i q Hc Hpq h t Hl Hcb. pose proof (Ht _ _ Hl) as Hl'.
    destruct (decide (promise p = i)) as [Heq|Hneq].
    + destruct Hkind as [[Hs Hz]|(-> & _ & _ & Hack)].
      * apply (tr_ack_disarmed0 i q) in Hl'; [done| |done].
        rewrite <- Heq in Hc |- *. rewrite !countOf_snoc_eq in Hc.
        destruct k; simpl in *; try discriminate; lia.
      * assert (q = p) as ->.
        { apply (inv_unique s HI); [|done|congruence]. right. exists h, t. auto. }
        destruct (inv_handles s HI h t p Hl') as [Hh _]. rewrite (Hh Hcb) in Hack.
        congruence.
    + rewrite !countOf_snoc_ne in Hc by done.
      by apply (tr_ack_disarmed0 i q) in Hl'.
  - intros i Hc.
    destruct (decide (promise p = i)) as [<-|Hneq].
    + rewrite countOf_snoc_eq in *.
      destruct Hkind as [[Hs Hz]|(-> & Hz & Hza & _)].
      * destruct k; simpl in *; try discriminate; rewrite tr_acked0; lia.
      * simpl in Hc. lia.
    + rewrite countOf_snoc_ne in * by done. by apply tr_acked0.
  - intros i. rewrite Hv.
    destruct (decide (promise p = i)) as [<-|Hneq].
    + rewrite countOf_snoc_eq. split.
      * intros _. unfold settle. destruct (promises s !! promise p) eqn:E; [by rewrite E|].
        simpl. rewrite lookup_insert_eq. by eexists.
      * intros _. destruct Hcases as [Hs| ->]; [rewrite (Hle1' k Hs)|simpl]; lia.
    + rewrite countOf_snoc_ne by done. rewrite tr_settled0.
      unfold settle. destruct (promises s !! promise p) eqn:E; [done|].
      simpl. by rewrite lookup_insert_ne.
Qed.

Lemma terminal_zero_of_queue (s : State) (p : PendingMessage) :
  TraceInv s → p ∈ queue s → countOf isTerminal (promise p) (trace s) = 0.
Proof.
  intros HT Hin. destruct (countOf isTerminal (promise p) (trace s)) eqn:E; [done|].
  destruct (tr_retired s HT (promise p) p); [lia|done|done].
Qed.

Lemma terminal_zero_of_reply (s : State) (p : PendingMessage) (h : nat) (t : Timer) :
  TraceInv s → timers s !! h = Some t → callback t = ReplyTimeout p →
  countOf isTerminal (promise p) (trace s) = 0.
Proof.
  intros HT Hl Hcb. destruct (countOf isTerminal (promise p) (trace s)) eqn:E; [done|].
  destruct (tr_retired s HT (promise p) p) as [_ H]; [lia|done|]. by destruct (H h t).
Qed.

Lemma ack_zero_of_armed (s : State) (p : PendingMessage) (h : nat) (t : Timer) :
  TraceInv s → timers s !! h = Some t → callback t = AckTimeout p →
  countOf isAckTimeout (promise p) (trace s) = 0 ∧ countOf isAck (promise p) (trace s) = 0.
Proof.
  intros HT Hl Hcb.
  destruct (countOf isAckTimeout (promise p) (trace s)) eqn:E1;
    destruct (countOf isAck (promise p) (trace s)) eqn:E2; [done|..];
    destruct (tr_ack_disarmed s HT (promise p) p ltac:(lia) eq_refl h t Hl Hcb).
Qed.

Lemma trace_removeFromQueue (a : string) (s : State) :
  trace (removeFromQueue a s) = trace s.
Proof. apply removeFromQueue_core. Qed.

Lemma trace_settle (i : nat) (v : Settlement) (s : State) : trace (settle i v s) = trace s.
Proof. apply settle_core. Qed.

Lemma trace_onReplyTimeout (p : PendingMessage) (s : State) :
  trace (onReplyTimeout p s) = (trace s ++ [(promise p, TReplyTimeout)])%list.
Proof.
  unfold onReplyTimeout, reject. by rewrite trace_removeFromQueue, trace_settle.
Qed.

Lemma trace_onAckTimeout (p : PendingMessage) (s : State) :
  trace (onAckTimeout p s) = (trace s ++ [(promise p, TAckTimeout)])%list.
Proof.
  unfold onAckTimeout, reject.
  change (trace (clearTimeout ?h ?x)) with (trace x). rewrite trace_removeFromQueue.
  case_bool_decide; by rewrite trace_settle.
Qed.

Lemma TraceInv_fire (h : nat) (s : State) : Inv s → TraceInv s → TraceInv (fire h s).
Proof.
  intros HI HT. unfold fire. destruct (timers s !! h) as [t|] eqn:Hh; [|done].
  set (s1 := setNow (Z.max (now s) (due t)) (setTimers (delete h (timers s)) s)).
  assert (Ht1 : timers s1 = delete h (timers s)) by reflexivity.
  assert (Hsub : ∀ h' t', timers s1 !! h' = Some t' → timers s !! h' = Some t').
  { intros h' t' Hl. rewrite Ht1 in Hl. by apply lookup_delete_Some in Hl as [_ Hl]. }
  assert (Hgone : timers s1 !! h = None) by (rewrite Ht1; apply lookup_delete_eq).
  destruct (callback t) as [p|p|] eqn:Hc.
  - destruct (inv_handles s HI h t p Hh) as [Hha _]. specialize (Hha Hc).
    apply (TraceInv_retires s _ p TAckTimeout HI HT).
    + right. exists h, t. auto.
    + by apply Retires_onAckTimeout.
    + by rewrite trace_onAckTimeout.
    + unfold onAckTimeout. apply lookup_delete_eq.
    + right. destruct (ack_zero_of_armed s p h t HT Hh Hc) as [H1 H2].
      repeat split; try done.
      destruct (timers (onAckTimeout p s1) !! ackTimer p) as [t'|] eqn:E; [|done].
      apply (ret_timers s1 _ p (Retires_onAckTimeout s1 s1 p eq_refl ltac:(auto) eq_refl
                                  eq_refl)) in E.
      rewrite Hha in E. congruence.
  - destruct (inv_handles s HI h t p Hh) as [_ Hhr]. specialize (Hhr Hc).
    apply (TraceInv_retires s _ p TReplyTimeout HI HT).
    + right. exists h, t. auto.
    + by apply Retires_onReplyTimeout.
    + by rewrite trace_onReplyTimeout.
    + destruct (timers (onReplyTimeout p s1) !! replyTimer p) as [t'|] eqn:E; [|done].
      apply (ret_timers s1 _ p (Retires_onReplyTimeout s1 s1 p eq_refl ltac:(auto) eq_refl
                                  eq_refl)) in E.
      rewrite Hhr in E. congruence.
    + left. split; [done|]. by apply (terminal_zero_of_reply s p h t).
  - apply (TraceInv_step s); auto.
Qed.

Lemma TraceInv_receive (m : Message) (s : State) :
  Inv s → TraceInv s → TraceInv (receive env m s).
Proof.
  intros HI HT. unfold receive. destruct (negb _); [done|].
  destruct (getPendingMessage _ s) as [p|] eqn:Hf; [|done].
  destruct (getPendingMessage_Some _ _ _ Hf) as [Hin Ha].
  pose proof (terminal_zero_of_queue s p HT Hin) as Hz.
  repeat case_bool_decide; try done.
  - by apply (TraceInv_ack s _ p).
  - rewrite <- Ha in *. unfold resolve.
    pose proof (Retires_remove s (logTransition p TSuccess s) p (Resolved m)
                  eq_refl ltac:(auto) eq_refl eq_refl) as HR.
    apply (TraceInv_retires s _ p TSuccess HI HT); [by left|done| | |by left].
    + by rewrite trace_removeFromQueue, trace_settle.
    + by apply (ret_reply _ _ _ HR).
  - rewrite <- Ha in *. unfold reject, rejectWithMessage.
    destruct (Message.error m) as [e|].
    + pose proof (Retires_remove s (logTransition p TFailure s) p
                    (Rejected (deserializeError env e))
                    eq_refl ltac:(auto) eq_refl eq_refl) as HR.
      apply (TraceInv_retires s _ p TFailure HI HT); [by left|done| | |by left].
      * by rewrite trace_removeFromQueue, trace_settle.
      * by apply (ret_reply _ _ _ HR).
    + pose proof (Retires_remove s (logTransition p TFailure s) p (RejectedWithMessage m)
                    eq_refl ltac:(auto) eq_refl eq_refl) as HR.
      apply (TraceInv_retires s _ p TFailure HI HT); [by left|done| | |by left].
      * by rewrite trace_removeFromQueue, trace_settle.
      * by apply (ret_reply _ _ _ HR).
Qed.

Lemma TraceInv_fireDue (fuel : nat) (deadline : Z) (s : State) :
  Inv s → TraceInv s → TraceInv (fireDue fuel deadline s).
Proof.
  revert s. induction fuel as [|fuel IH]; intros s HI HT; simpl; [done|].
  destruct (earliest s) as [[h t]|]; [|done].
  destruct (Z.leb _ _); [|done]. apply IH; [by apply Inv_fire|by apply TraceInv_fire].
Qed.

Lemma TraceInv_sendAckMessage (hidden : bool) (s : State) (m : Message) :
  TraceInv s → TraceInv (sendAckMessage config hidden s m).
Proof.
  intros HT. unfold sendAckMessage. destruct hidden; [|done].
  apply (TraceInv_step s _ HT); simpl; auto.
  intros h t Hl. apply lookup_insert_Some in Hl as [[_ <-]|[_ Hl]]; auto.
Qed.

Lemma TraceInv_visibilityChange (hidden : bool) (l : list Message) (s : State) :
  TraceInv s → TraceInv (foldl (sendAckMessage config hidden) s l).
Proof.
  revert s. induction l as [|m l IH]; intros s HT; simpl; [done|].
  apply IH. by apply TraceInv_sendAckMessage.
Qed.

Lemma TraceInv_registered (m : Message) (timeout : Z) (s : State) :
  TraceInv s → TraceInv (registered config m timeout s).
Proof.
  intros HT.
  assert (Hlt : ∀ i k, (1 ≤ countOf k i (trace s))%nat → (i < nextPromise s)%nat).
  { intros i k Hc. destruct (decide (nextPromise s ≤ i)%nat) as [Hge|]; [|lia].
    rewrite (tr_fresh s HT i k Hge) in Hc. lia. }
  constructor; simpl.
  - intros i k Hi. apply (tr_fresh s HT). lia.
  - apply (tr_settling s HT).
  - apply (tr_ack_timeout s HT).
  - intros i q Hc Hq. pose proof (Hlt _ _ Hc) as Hi.
    destruct (tr_retired s HT i q Hc Hq) as [H1 H2]. split.
    + intros Hin. apply elem_of_app in Hin as [Hin|Hin]; [done|].
      apply list_elem_of_singleton in Hin. subst q. simpl in Hq. lia.
    + intros h t Hl Hcb.
      apply lookup_insert_Some in Hl as [[_ <-]|[_ Hl]].
      { simpl in Hcb. injection Hcb as <-. simpl in Hq. lia. }
      apply lookup_insert_Some in Hl as [[_ <-]|[_ Hl]]; [done|].
      by apply (H2 h t).
  - intros i q Hc Hq h t Hl Hcb.
    assert (Hi : (i < nextPromise s)%nat) by (destruct Hc as [Hc|Hc]; by eapply Hlt).
    apply lookup_insert_Some in Hl as [[_ <-]|[_ Hl]]; [done|].
    apply lookup_insert_Some in Hl as [[_ <-]|[_ Hl]].
    { simpl in Hcb. injection Hcb as <-. simpl in Hq. lia. }
    by apply (tr_ack_disarmed s HT i q Hc Hq h t).
  - apply (tr_acked s HT).
  - apply (tr_settled s HT).
Qed.

Lemma TraceInv_send (m : Message) (timeout : Z) (s : State) :
  TraceInv s → TraceInv (snd (send config env m timeout s)).
Proof.
  intros HT. unfold send.
  destruct (getPendingMessage (Message.action m) s) eqn:Hf; [done|].
  destruct (negb (isSecureContext env)); [done|].
  fold (registered config m timeout s).
  pose proof (TraceInv_registered m timeout s HT) as HR.
  destruct (publishMessage _ _ _ _ _) as [e|s'] eqn:Hp; [done|]. simpl.
  apply publishMessage_core in Hp as (Hq & Ht & Hpr & Hn & _ & Htr & _).
  apply (TraceInv_step (registered config m timeout s)); try done.
  - intros q. by rewrite Hq.
  - intros h t. rewrite Ht. auto.
Qed.

Lemma TraceInv_event (s : State) (e : Event) :
  Inv s → TraceInv s → TraceInv (step config env s e).
Proof.
  intros HI HT. destruct e as [m t|m| |h|ms|req code|req|hidden]; simpl.
  - by apply TraceInv_send.
  - by apply TraceInv_receive.
  - destruct (bus s) as [|m rest]; [done|].
    apply TraceInv_receive; [by apply (Inv_same s)|].
    apply (TraceInv_step s); auto.
  - by apply TraceInv_fire.
  - unfold elapse. apply (TraceInv_step (fireDue (size (timers s)) (now s + ms)%Z s));
      auto. by apply TraceInv_fireDue.
  - destruct (requests s !! req) as [[o [m|]]|]; try done.
    unfold onResponse. destruct (Z.eqb _ _); apply (TraceInv_step s); auto.
  - destruct (requests s !! req) as [[o [m|]]|]; try done.
    apply (TraceInv_step s); auto.
  - by apply TraceInv_visibilityChange.
Qed.

Lemma TraceInv_run (events : list Event) : TraceInv (run config env events initial).
Proof.
  induction events as [|e events IH] using rev_ind; [apply TraceInv_initial|].
  rewrite run_snoc. apply TraceInv_event; [apply Inv_run|done].
Qed.

End Trace.

(** ** Settlement *)

Section Settlement.

Variable config : Config.
Variable env : Env.

(** A settled promise stays as it is. *)
Lemma promises_fire (h : nat) (s : State) (i : nat) (v : Settlement) :
  promises s !! i = Some v → promises (fire h s) !! i = Some v.
Proof.
  intros H. unfold fire. destruct (timers s !! h) as [t|]; [|done].
  destruct (callback t) as [p|p|]; [| |done].
  - unfold onAckTimeout. change (promises (clearTimeout ?x ?y)) with (promises y).
    rewrite promises_removeFromQueue. case_bool_decide; by apply promises_settle_Some.
  - unfold onReplyTimeout. rewrite promises_removeFromQueue. by apply promises_settle_Some.
Qed.

Lemma promises_receive (m : Message) (s : State) (i : nat) (v : Settlement) :
  promises s !! i = Some v → promises (receive env m s) !! i = Some v.
Proof.
  intros H. unfold receive. destruct (negb _); [done|].
  destruct (getPendingMessage _ s) as [p|]; [|done].
  repeat case_bool_decide; try done.
  - rewrite promises_removeFromQueue. by apply promises_settle_Some.
  - rewrite promises_removeFromQueue.
    destruct (Message.error m); by apply promises_settle_Some.
Qed.

Lemma promises_fireDue (fuel : nat) (deadline : Z) (s : State) (i : nat) (v : Settlement) :
  promises s !! i = Some v → promises (fireDue fuel deadline s) !! i = Some v.
Proof.
  revert s. induction fuel as [|fuel IH]; intros s H; simpl; [done|].
  destruct (earliest s) as [[h t]|]; [|done].
  destruct (Z.leb _ _); [|done]. apply IH. by apply promises_fire.
Qed.

Lemma promises_visibilityChange (hidden : bool) (l : list Message) (s : State) :
  promises (foldl (sendAckMessage config hidden) s l) = promises s.
Proof.
  revert s. induction l as [|m l IH]; intros s; simpl; [done|].
  rewrite IH. unfold sendAckMessage. by destruct hidden.
Qed.

Lemma promises_step (s : State) (e : Event) (i : nat) (v : Settlement) :
  promises s !! i = Some v → promises (step config env s e) !! i = Some v.
Proof.
  intros H. destruct e as [m t|m| |h|ms|req code|req|hidden]; simpl.
  - unfold send. destruct (getPendingMessage _ s); [done|].
    destruct (negb _); [done|]. fold (registered config m t s).
    destruct (publishMessage _ _ _ _ _) as [e|s'] eqn:Hp; [done|]. simpl.
    apply publishMessage_core in Hp as (_ & _ & -> & _). done.
  - by apply promises_receive.
  - destruct (bus s); [done|]. by apply promises_receive.
  - by apply promises_fire.
  - unfold elapse. simpl. by apply promises_fireDue.
  - destruct (requests s !! req) as [[o [m|]]|]; try done.
    unfold onResponse. by destruct (Z.eqb _ _).
  - by destruct (requests s !! req) as [[o [m|]]|].
  - by rewrite promises_visibilityChange.
Qed.

Lemma promises_run (events : list Event) (s : State) (i : nat) (v : Settlement) :
  promises s !! i = Some v → promises (run config env events s) !! i = Some v.
Proof.
  revert s. induction events as [|e events IH]; intros s H; [done|].
  simpl. apply IH. by apply promises_step.
Qed.

Lemma run_app (events events' : list Event) (s : State) :
  run config env (events ++ events') s = run config env events' (run config env events s).
Proof. unfold run. by rewrite foldl_app. Qed.

(** C2, as the code has it.  In every state the service can reach and for
    every request: at most one of the handlers for success, failure and
    reply timeout has run, and the ack-timeout handler at most once; the
    promise is settled exactly when a terminal handler has run, and once
    settled it keeps its value, so the handler that runs first decides
    it; after a terminal handler the request is out of the queue with its
    reply timer disarmed.  When an ack was received for the request,
    which disarms the ack timer, at most one terminal handler runs at all.
    Removal does not disarm the ack timer: without an ack it still fires
    after a settlement. *)
Theorem terminal_transitions (events : list Event) (i : nat) :
  let s := run config env events initial in
  (countOf isSettling i (trace s) ≤ 1)%nat
  ∧ (countOf isAckTimeout i (trace s) ≤ 1)%nat
  ∧ ((1 ≤ countOf isAck i (trace s))%nat → (countOf isTerminal i (trace s) ≤ 1)%nat)
  ∧ ((1 ≤ countOf isTerminal i (trace s))%nat ↔ is_Some (promises s !! i))
  ∧ (∀ v events', promises s !! i = Some v →
       promises (run config env (events ++ events') initial) !! i = Some v)
  ∧ (∀ p, promise p = i → (1 ≤ countOf isTerminal i (trace s))%nat →
       (p ∉ queue s) ∧ ¬ armedReply s p).
Proof.
  intros s. pose proof (TraceInv_run config env events) as HT. fold s in HT.
  split; [apply (tr_settling s HT)|].
  split; [apply (tr_ack_timeout s HT)|].
  split; [|split; [apply (tr_settled s HT)|split]].
  - intros Hack. rewrite countOf_terminal, (tr_acked s HT i Hack).
    pose proof (tr_settling s HT i). lia.
  - intros v events' Hv. rewrite run_app. by apply promises_run.
  - intros p Hp Hc. destruct (tr_retired s HT i p Hc Hp) as [H1 H2].
    split; [done|]. intros [d Hd]. by apply (H2 _ _ Hd).
Qed.

End Settlement.

(** A request that is acknowledged and then times out. *)
Lemma terminal_transitions_witness :
  let s := run exampleConfig exampleEnv
             [ESend authenticate 30000; EReceive authenticateAck; EElapse 30000] initial in
  (countOf isTerminal 0 (trace s) ≤ 1)%nat
  ∧ promises s !! 0 = Some (Rejected ActionTimeoutError).
Proof.
  intros s.
  destruct (terminal_transitions exampleConfig exampleEnv
              [ESend authenticate 30000; EReceive authenticateAck; EElapse 30000] 0)
    as (_ & _ & H & _).
  split; [apply H; by vm_compute|by vm_compute].
Defined.

(** C2 as it is worded fails: a success that comes before any ack
    settles the promise and removes the entry, and the ack timer, which
    nothing has cleared, still runs [onAckTimeout] for the same request
    when the handshake timeout is over: two terminal handlers for one
    request. *)
Lemma ack_timer_fires_after_success :
  let s := run exampleConfig exampleEnv
             [ESend authenticate 30000; EReceive authenticateSuccess; EElapse 1000] initial in
  trace s = [(0, TSuccess); (0, TAckTimeout)]
  ∧ countOf isTerminal 0 (trace s) = 2
  ∧ promises s !! 0 = Some (Resolved authenticateSuccess).
Proof. by vm_compute. Qed.

(** The same timer, left armed by a request that was settled, takes a
    later request for the same action off the queue and clears its reply
    timer: that request has no timer left and is never settled. *)
Lemma stale_ack_timer_drops_next_request :
  let s := run exampleConfig exampleEnv
             [ESend authenticate 30000; EReceive authenticateSuccess; EElapse 200;
              ESend authenticate 30000; EReceive authenticateAck; EElapse 30000] initial in
  trace s = [(0, TSuccess); (1, TAck); (0, TAckTimeout)]
  ∧ promises s !! 1 = None
  ∧ queue s = []
  ∧ timers s = ∅.
Proof. by vm_compute. Qed.

(** On a status other than 200 the response handler of the file under
    [src/services] shows an alert, takes the request off the queue and
    clears its reply timer; no message is posted, and the promise, whose
    ack timer the ack for the QR code had cleared, is never settled.  Its
    error handler does the same without the alert. *)
Lemma onResponseAlerting_drops :
  let s := run exampleConfig exampleEnv [ESend authPair 30000; EDispatch] initial in
  let s' := onResponseAlerting authPair 449 s in
  bus s' = [] ∧ alerts s' = ["Invalid PIN or CAN."] ∧ queue s' = [] ∧ timers s' = ∅
  ∧ promises s' !! 0 = None
  ∧ promises (elapse 30000 s') !! 0 = None
  ∧ promises (elapse 30000 (onErrorAlerting authPair s)) !! 0 = None.
Proof. by vm_compute. Qed.

(** ** The clock *)

Section Clock.

Lemma earlier_true (a b : nat * Timer) : earlier a b = true → (due a.2 ≤ due b.2)%Z.
Proof.
  unfold earlier. intros H. apply orb_true_iff in H as [H|H].
  - apply Z.ltb_lt in H. lia.
  - apply andb_true_iff in H as [H _]. apply Z.eqb_eq in H. lia.
Qed.

Lemma earlier_false (a b : nat * Timer) : earlier a b = false → (due b.2 ≤ due a.2)%Z.
Proof.
  unfold earlier. intros H. apply orb_false_iff in H as [H _].
  apply Z.ltb_ge in H. lia.
Qed.

Lemma earliest_in_list (l : list (nat * Timer)) (a : nat * Timer) :
  foldr (λ a acc, match acc with
                  | Some b => if earlier a b then Some a else Some b
                  | None => Some a
                  end) None l = Some a →
  a ∈ l ∧ ∀ b, b ∈ l → (due a.2 ≤ due b.2)%Z.
Proof.
  revert a. induction l as [|x l IH]; intros a; simpl; [done|].
  destruct (foldr _ None l) as [b|] eqn:E.
  - destruct (IH b eq_refl) as [Hb Hmin]. destruct (earlier x b) eqn:Hxb; intros [= <-].
    + apply earlier_true in Hxb. split; [by left|].
      intros c Hc. apply elem_of_cons in Hc as [->|Hc]; [lia|].
      specialize (Hmin c Hc). lia.
    + apply earlier_false in Hxb. split; [by right|].
      intros c Hc. apply elem_of_cons in Hc as [->|Hc]; [lia|by apply Hmin].
  - intros [= <-]. split; [by left|]. intros c Hc.
    apply elem_of_cons in Hc as [->|Hc]; [lia|].
    destruct l; [by apply elem_of_nil in Hc|]. simpl in E.
    destruct (foldr _ None l); [destruct (earlier _ _)|]; discriminate.
Qed.

Lemma earliest_Some (s : State) (h : nat) (t : Timer) :
  earliest s = Some (h, t) →
  timers s !! h = Some t ∧ ∀ h' t', timers s !! h' = Some t' → (due t ≤ due t')%Z.
Proof.
  unfold earliest. intros H. apply earliest_in_list in H as [Hin Hmin]. split.
  - by apply elem_of_map_to_list in Hin.
  - intros h' t' Hl. apply (Hmin (h', t')). by apply elem_of_map_to_list.
Qed.

Lemma earliest_None (s : State) : earliest s = None → timers s = ∅.
Proof.
  unfold earliest. intros H. apply map_to_list_empty_iff.
  destruct (map_to_list (timers s)) as [|x l]; [done|]. simpl in H.
  destruct (foldr _ None l); [destruct (earlier _ _)|]; discriminate.
Qed.

(** A timer that fires leaves the table, and its callback arms none. *)
Lemma timers_fire (h : nat) (s : State) (t : Timer) :
  timers s !! h = Some t → timers (fire h s) ⊆ delete h (timers s).
Proof.
  intros Hh. apply map_subseteq_spec. intros h' t'. unfold fire. rewrite Hh.
  set (s1 := setNow (Z.max (now s) (due t)) (setTimers (delete h (timers s)) s)).
  assert (Ht1 : timers s1 = delete h (timers s)) by reflexivity. rewrite <- Ht1.
  destruct (callback t) as [p|p|]; [| |done].
  - apply (ret_timers s1 _ p). by apply Retires_onAckTimeout.
  - apply (ret_timers s1 _ p). by apply Retires_onReplyTimeout.
Qed.

Lemma fireDue_complete (fuel : nat) (deadline : Z) (s : State) (h : nat) (t : Timer) :
  (size (timers s) ≤ fuel)%nat →
  timers (fireDue fuel deadline s) !! h = Some t → (deadline < due t)%Z.
Proof.
  revert s. induction fuel as [|fuel IH]; intros s Hsize; simpl.
  - assert (timers s = ∅) as -> by (apply map_size_empty_iff; lia). by rewrite lookup_empty.
  - destruct (earliest s) as [[h0 t0]|] eqn:E.
    + destruct (earliest_Some s h0 t0 E) as [Hh0 Hmin].
      destruct (Z.leb (due t0) deadline) eqn:Hdue.
      * apply IH. pose proof (map_subseteq_size _ _ (timers_fire h0 s t0 Hh0)) as Hle.
        rewrite map_size_delete, Hh0 in Hle. simpl in Hle.
        assert (size (timers s) ≠ 0)%nat; [|lia].
        intros Hz. apply map_size_empty_iff in Hz. rewrite Hz in Hh0.
        by rewrite lookup_empty in Hh0.
      * intros Hl. apply Z.leb_gt in Hdue. specialize (Hmin h t Hl). lia.
    + rewrite (earliest_None s E). by rewrite lookup_empty.
Qed.

(** When time has passed, every timer that is still armed is due later:
    the timers due in between have fired, the earlier ones first. *)
Lemma elapse_fires_all_due (ms : Z) (s : State) (h : nat) (t : Timer) :
  timers (elapse ms s) !! h = Some t → (now s + ms < due t)%Z.
Proof. unfold elapse. simpl. by apply fireDue_complete. Qed.

End Clock.

(** * Further properties of the service *)

Section ServiceExtras.

Variable config : Config.
Variable env : Env.

(** What [publishMessage] does in the mobile flow once the deep link is
    built: the state after [launchAuthApp] or [displayQRCode], and then
    the polling request, if [pollForLoginSuccess] makes one. *)
Lemma publishMessage_extension (m : Message) (timeout : Z) (s : State) :
  Message.useAuthApp m ≠ Some true →
  publishMessage config env m timeout s = inr (postMessage m s).
Proof. intros H. unfold publishMessage. by rewrite bool_decide_eq_false_2. Qed.

Lemma pollForLoginSuccess_core (m : Message) (timeout : Z) (s : State) :
  let r := pollForLoginSuccess env m timeout s in
  bus (snd r) = bus s ∧ listeners (snd r) = listeners s ∧ href (snd r) = href s
  ∧ canvas (snd r) = canvas s ∧ alerts (snd r) = alerts s
  ∧ match fst r with
    | inl _ => snd r = s
    | inr req => req = List.length (requests s)
                 ∧ ∃ o, requests (snd r) = (requests s ++ [{| options := o; listener := None |}])%list
    end.
Proof.
  unfold pollForLoginSuccess. destruct (truthy _); [|done].
  destruct (negb _); [done|]. destruct (parseURL env _) as [e|[[h p] pa]]; [done|].
  simpl. repeat split; try done. by eexists.
Qed.

(** X1.  [send] gives back a promise that is already rejected in two
    cases only: with [ActionPendingError] when the queue has an entry for
    the action, and with [ContextInsecureError] when it has none and the
    page is not in a secure context; in both the state is untouched. *)
Theorem send_rejects_without_effect (m : Message) (timeout : Z) (s : State) (e : Error) :
  fst (send config env m timeout s) = ReturnsRejected e →
  snd (send config env m timeout s) = s
  ∧ ((e = ActionPendingError ∧ getPendingMessage (Message.action m) s ≠ None)
     ∨ (e = ContextInsecureError ∧ getPendingMessage (Message.action m) s = None
        ∧ isSecureContext env = false)).
Proof.
  unfold send. destruct (getPendingMessage _ s) eqn:Hf.
  - simpl. intros [= <-]. split; [done|]. left. by split.
  - destruct (isSecureContext env) eqn:Hs; simpl.
    + by destruct (publishMessage _ _ _ _ _).
    + intros [= <-]. split; [done|]. right. by split.
Qed.

(** X2.  When [send] throws, which it does when the deep link cannot be
    built or the QR code cannot be rendered in the mobile flow, the request
    is already registered: it stays in the queue with both timers armed,
    and a further [send] for the same action is rejected with
    [ActionPendingError]. *)
Theorem send_throws_after_registering (m : Message) (timeout : Z) (s : State) (e : Error) :
  fst (send config env m timeout s) = Throws e →
  let s' := snd (send config env m timeout s) in
  Message.useAuthApp m = Some true
  ∧ newPending m s ∈ queue s'
  ∧ armedAck s' (newPending m s) ∧ armedReply s' (newPending m s)
  ∧ ∀ timeout', send config env m timeout' s' = (ReturnsRejected ActionPendingError, s').
Proof.
  intros H s'.
  assert (Hf : getPendingMessage (Message.action m) s = None).
  { unfold send in H. by destruct (getPendingMessage _ s). }
  assert (Hs : isSecureContext env = true).
  { unfold send in H. rewrite Hf in H. by destruct (isSecureContext env). }
  destruct (send_arms_timers config env m timeout s Hf Hs) as (Hin & Ha & Hr).
  fold s' in Hin, Ha, Hr. fold (newPending m s) in Hin, Ha, Hr.
  split; [|split; [done|split; [by eexists|split; [by eexists|]]]].
  - unfold send in H. rewrite Hf, Hs in H. simpl in H.
    destruct (Message.useAuthApp m) as [[|]|] eqn:Hu; [done|..];
      rewrite publishMessage_extension in H by (rewrite ?Hu; done); done.
  - intros timeout'. unfold send.
    destruct (getPendingMessage (Message.action m) s') eqn:Hf'; [done|].
    rewrite getPendingMessage_None in Hf'. by destruct (Hf' _ Hin).
Qed.

(** X3.  [receive] leaves everything as it is when the action of the
    message does not begin with [web-eid:], when no request is pending for
    the action without its suffix, or when the action ends in none of
    [ack], [success] and [failure]. *)
Theorem receive_ignores (m : Message) (s : State) :
  startsWith "web-eid:" (Message.action m) = false
  ∨ getPendingMessage (getInitialAction (Message.action m)) s = None
  ∨ Regex.matchedAtEnd replyWords (Message.action m) = None →
  receive env m s = s.
Proof.
  unfold receive, replyWords. intros [H|[H|H]].
  - by rewrite H.
  - destruct (negb _); [done|]. by rewrite H.
  - destruct (negb _); [done|]. destruct (getPendingMessage _ s); [|done].
    rewrite H. by rewrite !bool_decide_eq_false_2.
Qed.

(** X4.  A request that goes to the extension is posted on the bus of the
    page itself, so the listener of the service gets it back: for a base
    action that delivery takes the message off the bus and changes nothing
    else, the request stays pending with both timers armed. *)
Theorem own_message_comes_back (m : Message) (timeout : Z) (s : State) :
  Message.action m ∈ Action.base → Message.useAuthApp m ≠ Some true →
  getPendingMessage (Message.action m) s = None → isSecureContext env = true →
  bus s = [] →
  let s' := snd (send config env m timeout s) in
  bus s' = [m] ∧ step config env s' EDispatch = setBus [] s'.
Proof.
  intros Hbase Hu Hf Hs Hbus s'.
  assert (Hs' : s' = postMessage m (registered config m timeout s)).
  { unfold s', send. rewrite Hf, Hs. simpl negb. cbv iota.
    fold (registered config m timeout s). by rewrite publishMessage_extension. }
  assert (Hb : bus s' = [m]) by (rewrite Hs'; simpl; by rewrite Hbus).
  split; [done|]. simpl. rewrite Hb. apply receive_ignores. right. right.
  unfold Action.base in Hbase. set_unfold.
  destruct Hbase as [->|[->|[->|[]]]]; reflexivity.
Qed.

Lemma timers_removeFromQueue_found (s1 : State) (p : PendingMessage) :
  getPendingMessage (baseAction p) s1 = Some p →
  timers (removeFromQueue (baseAction p) s1) !! replyTimer p = None.
Proof. intros H. rewrite timers_removeFromQueue, H. apply lookup_delete_eq. Qed.

Lemma getPendingMessage_settle_log (a : string) (i : nat) (v : Settlement)
    (p : PendingMessage) (t : Transition) (s : State) :
  getPendingMessage a (settle i v (logTransition p t s)) = getPendingMessage a s.
Proof.
  apply getPendingMessage_ext. by rewrite (proj1 (settle_core _ _ _)).
Qed.

(** X5.  For a request in the queue whose action begins with [web-eid:],
    a success message resolves its promise with the message itself; a
    failure message rejects it with the deserialised error when the
    message has one and with the message itself when it has none.  In each
    case the entry leaves the queue and its reply timer is cleared. *)
Theorem receive_settles (events : list Event) (p : PendingMessage) (m : Message) :
  let s := run config env events initial in
  p ∈ queue s → startsWith "web-eid:" (baseAction p) = true →
  (Message.action m = baseAction p +:+ "-success" →
     promises (receive env m s) !! promise p = Some (Resolved m))
  ∧ (Message.action m = baseAction p +:+ "-failure" →
     promises (receive env m s) !! promise p
     = Some (match Message.error m with
             | Some e => Rejected (deserializeError env e)
             | None => RejectedWithMessage m
             end))
  ∧ (Message.action m = baseAction p +:+ "-success"
     ∨ Message.action m = baseAction p +:+ "-failure" →
     getPendingMessage (baseAction p) (receive env m s) = None
     ∧ ¬ armedReply (receive env m s) p).
Proof.
  intros s Hin Hpre.
  pose proof (Inv_run config env events) as HI. fold s in HI.
  pose proof (inv_unsettled s HI p Hin) as Hun.
  pose proof (getPendingMessage_in s p (inv_nodup s HI) Hin) as Hf.
  split; [|split].
  - intros Ha. rewrite (receive_success env m s p (baseAction p) Hpre Ha Hf).
    rewrite promises_removeFromQueue. unfold resolve. by apply promises_settle_None.
  - intros Ha. rewrite (receive_failure env m s p (baseAction p) Hpre Ha Hf).
    rewrite promises_removeFromQueue. unfold reject, rejectWithMessage.
    destruct (Message.error m); by apply promises_settle_None.
  - intros [Ha|Ha].
    + rewrite (receive_success env m s p (baseAction p) Hpre Ha Hf).
      split; [apply getPendingMessage_removeFromQueue|]. intros [d Hd].
      rewrite timers_removeFromQueue_found in Hd; [done|].
      unfold resolve. by rewrite getPendingMessage_settle_log.
    + rewrite (receive_failure env m s p (baseAction p) Hpre Ha Hf).
      split; [apply getPendingMessage_removeFromQueue|]. intros [d Hd].
      rewrite timers_removeFromQueue_found in Hd; [done|].
      unfold reject, rejectWithMessage.
      destruct (Message.error m); by rewrite getPendingMessage_settle_log.
Qed.

(** X6.  The ack, success and failure actions the mobile flow posts for
    a message lead back to the action of the message exactly when that
    action is one of the three base actions; for any other action they are
    the actions of [web-eid:status]. *)
Theorem relevant_actions_correlate (m : Message) :
  (getInitialAction (getRelevantAckAction m) = Message.action m
   ↔ Message.action m ∈ Action.base)
  ∧ (getInitialAction (getRelevantSuccessAction m) = Message.action m
     ↔ Message.action m ∈ Action.base)
  ∧ (getInitialAction (getRelevantErrorAction m) = Message.action m
     ↔ Message.action m ∈ Action.base)
  ∧ (Message.action m ∉ Action.base →
     getRelevantAckAction m = Action.STATUS_ACK
     ∧ getRelevantSuccessAction m = Action.STATUS_SUCCESS
     ∧ getRelevantErrorAction m = Action.STATUS_FAILURE).
Proof.
  destruct (decide (Message.action m ∈ Action.base)) as [Hb|Hb].
  - destruct (relevantActions_base m Hb) as (_ & Ha & Hs & Hf).
    rewrite Ha, Hs, Hf.
    rewrite !getInitialAction_append by (unfold replySuffixes; repeat constructor).
    tauto.
  - assert (H : Message.action m ≠ Action.AUTHENTICATE ∧ Message.action m ≠ Action.SIGN
                ∧ Message.action m ≠ Action.STATUS).
    { unfold Action.base in Hb. set_unfold. tauto. }
    destruct H as (H1 & H2 & H3).
    unfold getRelevantAckAction, getRelevantSuccessAction, getRelevantErrorAction.
    rewrite !bool_decide_eq_false_2 by done.
    repeat split; try done; try (intros H; exfalso; apply H3; symmetry; exact H).
Qed.


(** X7.  In every state the service can reach: a request in the queue has
    an unsettled promise and two different timer handles, no two requests
    in the queue share a promise, every settled promise was created before,
    and an armed reply timer always belongs to a request that is in the
    queue (no reply timer outlives its entry). *)
Theorem queue_invariant (events : list Event) (p : PendingMessage) :
  let s := run config env events initial in
  p ∈ queue s ∨ armedReply s p →
  p ∈ queue s
  ∧ promises s !! promise p = None
  ∧ ackTimer p ≠ replyTimer p
  ∧ (promise p < nextPromise s)%nat
  ∧ ∀ q, q ∈ queue s → promise q = promise p → q = p.
Proof.
  intros s H.
  pose proof (Inv_run config env events) as HI. fold s in HI.
  assert (Hin : p ∈ queue s).
  { destruct H as [H|[d Hd]]; [done|]. by apply (inv_reply s HI _ _ p Hd). }
  assert (Hk : known s p) by (by left).
  split; [done|]. split; [by apply (inv_unsettled s HI)|].
  split; [by apply (inv_distinct s HI)|]. split; [by apply (inv_fresh s HI)|].
  intros q Hq Heq. apply (inv_unique s HI); [by left|done|done].
Qed.

(** X8.  The ack timer of a request that has left the queue is still
    armed when no ack came for it.  When it fires while a later request
    for the same action is in the queue, [onAckTimeout] takes that request
    off the queue and clears its reply timer, and does not settle its
    promise. *)
Theorem stale_ack_timer_removes_successor (events : list Event) (p q : PendingMessage) :
  let s := run config env events initial in
  armedAck s p → q ∈ queue s → baseAction q = baseAction p → promise q ≠ promise p →
  let s' := fire (ackTimer p) s in
  (q ∉ queue s') ∧ promises s' !! promise q = None ∧ ¬ armedReply s' q
  ∧ (¬ armedAck s q → ∀ h t, timers s' !! h = Some t →
       callback t ≠ AckTimeout q ∧ callback t ≠ ReplyTimeout q).
Proof.
  intros s [d Hd] Hq Ha Hne s'.
  pose proof (Inv_run config env events) as HI. fold s in HI.
  pose proof (inv_unsettled s HI q Hq) as Hun.
  set (s1 := setNow (Z.max (now s) d) (setTimers (delete (ackTimer p) (timers s)) s)).
  assert (Hs' : s' = onAckTimeout p s1).
  { unfold s', fire. by rewrite Hd. }
  assert (Hf : getPendingMessage (baseAction p) s = Some q).
  { rewrite <- Ha. by apply getPendingMessage_in; [apply HI|]. }
  assert (Hsub : ∀ h t, timers s1 !! h = Some t → timers s !! h = Some t).
  { intros h t Hl. change (delete (ackTimer p) (timers s) !! h = Some t) in Hl.
    by apply lookup_delete_Some in Hl as [_ Hl]. }
  pose proof (Retires_onAckTimeout s s1 p eq_refl Hsub eq_refl eq_refl) as HR.
  rewrite <- Hs' in HR.
  assert (Hnotin : q ∉ queue s').
  { rewrite (ret_queue _ _ _ HR). intros Hin.
    by apply list_elem_of_filter in Hin as [Hn _]. }
  assert (Hreply : timers s' !! replyTimer q = None) by (by apply (ret_reply _ _ _ HR)).
  split; [done|]. split; [|split].
  - destruct (ret_promises _ _ _ HR) as [v Hv]. rewrite Hv.
    unfold settle. destruct (promises s !! promise p); [done|]. simpl.
    by rewrite lookup_insert_ne.
  - intros [d' Hd']. congruence.
  - intros Hnack h t Hl. pose proof (ret_timers _ _ _ HR h t Hl) as Hl'.
    destruct (inv_handles s HI h t q Hl') as [H1 H2]. split.
    + intros Hc. apply Hnack. exists (due t). rewrite (H1 Hc).
      rewrite Hl'. f_equal. destruct t. simpl in *. by subst.
    + intros Hc. rewrite <- (H2 Hc) in Hl. congruence.
Qed.

(** X9.  The response handlers of the file under [src/services]: a status
    of 200 posts the success message; any other status shows exactly one
    alert, takes the entry of the action off the queue and clears its
    reply timer, posts nothing and leaves every promise as it was, so the
    promise of the request is not settled by the answer.  The error
    handler does the same without the alert. *)
Theorem alerting_handlers_drop_request (m : Message) (code : Z) (s : State)
    (p : PendingMessage) :
  getPendingMessage (Message.action m) s = Some p →
  onResponseAlerting m 200 s
  = postMessage (Message.ofAction (getRelevantSuccessAction m)) s
  ∧ (code ≠ 200%Z →
     bus (onResponseAlerting m code s) = bus s
     ∧ alerts (onResponseAlerting m code s) = (alerts s ++ [alertText code])%list
     ∧ promises (onResponseAlerting m code s) = promises s
     ∧ timers (onResponseAlerting m code s) = delete (replyTimer p) (timers s)
     ∧ getPendingMessage (Message.action m) (onResponseAlerting m code s) = None)
  ∧ bus (onErrorAlerting m s) = bus s
  ∧ alerts (onErrorAlerting m s) = alerts s
  ∧ promises (onErrorAlerting m s) = promises s
  ∧ timers (onErrorAlerting m s) = delete (replyTimer p) (timers s)
  ∧ getPendingMessage (Message.action m) (onErrorAlerting m s) = None.
Proof.
  intros Hf. split; [done|]. split.
  - intros Hcode. unfold onResponseAlerting. rewrite (proj2 (Z.eqb_neq _ _) Hcode).
    assert (Hd : displayRelevantError code s = alert (alertText code) s).
    { unfold displayRelevantError, alertText. by repeat destruct (Z.eqb code _). }
    rewrite Hd.
    assert (Hf' : getPendingMessage (Message.action m) (alert (alertText code) s) = Some p)
      by (by rewrite (getPendingMessage_ext _ s)).
    unfold removeFromQueue at 1 2 3 4. rewrite Hf'. simpl.
    repeat split; try done. apply getPendingMessage_removeFromQueue.
  - unfold onErrorAlerting. unfold removeFromQueue at 1 2 3 4. rewrite Hf. simpl.
    repeat split; try done. apply getPendingMessage_removeFromQueue.
Qed.


Lemma foldl_sendAckMessage_hidden (l : list Message) (s : State) :
  let s' := foldl (sendAckMessage config true) s l in
  bus s' = (bus s ++ ((λ m, Message.ofAction (getRelevantAckAction m)) <$> l))%list
  ∧ listeners s' = listeners s ∧ queue s' = queue s ∧ promises s' = promises s
  ∧ nextTimer s' = (nextTimer s + List.length l)%nat
  ∧ ∀ h t, timers s' !! h = Some t → timers s !! h = Some t ∨ callback t = DetachListener.
Proof.
  cbv zeta. revert s. induction l as [|m l IH]; intros s; cbn [foldl].
  - simpl. rewrite app_nil_r, Nat.add_0_r. repeat split; auto.
  - destruct (IH (sendAckMessage config true s m)) as (Hb & Hl & Hq & Hp & Hn & Ht).
    rewrite Hb, Hl, Hq, Hp, Hn. simpl. rewrite <- app_assoc. simpl.
    split; [done|]. split; [done|]. split; [done|]. split; [done|]. split; [lia|].
    intros h t Hlk. destruct (Ht h t Hlk) as [H|H]; [|by right].
    simpl in H. apply lookup_insert_Some in H as [[_ <-]|[_ H]]; [by right|by left].
Qed.

Lemma foldl_sendAckMessage_shown (l : list Message) (s : State) :
  foldl (sendAckMessage config false) s l = s.
Proof. induction l as [|m l IH]; [done|]. by simpl. Qed.

(** X10.  The [visibilitychange] listeners of [launchAuthApp]: while the
    page is shown they do nothing; when it is hidden each of them posts the
    ack message of its request, in the order the listeners were added, and
    arms one timer.  The listeners stay as they were, and so do the queue
    and the promises; every timer that was not armed before is one that
    detaches a listener. *)
Theorem visibilitychange_posts_acks (s : State) :
  step config env s (EVisibilityChange false) = s
  ∧ let s' := step config env s (EVisibilityChange true) in
    bus s' = (bus s ++ ((λ m, Message.ofAction (getRelevantAckAction m)) <$> listeners s))%list
    ∧ listeners s' = listeners s ∧ queue s' = queue s ∧ promises s' = promises s
    ∧ nextTimer s' = (nextTimer s + List.length (listeners s))%nat
    ∧ ∀ h t, timers s' !! h = Some t → timers s !! h = Some t ∨ callback t = DetachListener.
Proof.
  split; [apply foldl_sendAckMessage_shown|apply foldl_sendAckMessage_hidden].
Qed.

Lemma listeners_removeFromQueue (a : string) (s : State) :
  listeners (removeFromQueue a s) = listeners s.
Proof. unfold removeFromQueue, clearReplyTimer. by destruct (getPendingMessage a s). Qed.

Lemma listeners_settle (i : nat) (v : Settlement) (s : State) :
  listeners (settle i v s) = listeners s.
Proof. unfold settle. by destruct (promises s !! i). Qed.

Lemma listeners_receive (m : Message) (s : State) :
  listeners (receive env m s) = listeners s.
Proof.
  unfold receive. destruct (negb _); [done|].
  destruct (getPendingMessage _ s) as [p|]; [|done].
  repeat case_bool_decide; try done.
  - rewrite listeners_removeFromQueue. unfold resolve. by rewrite listeners_settle.
  - rewrite listeners_removeFromQueue.
    unfold reject, rejectWithMessage. destruct (Message.error m); by rewrite listeners_settle.
Qed.

Lemma listeners_fire (h : nat) (s : State) : listeners (fire h s) = listeners s.
Proof.
  unfold fire. destruct (timers s !! h) as [t|]; [|done].
  destruct (callback t) as [p|p|]; [| |done].
  - unfold onAckTimeout.
    change (listeners (clearTimeout ?h ?x)) with (listeners x).
    rewrite listeners_removeFromQueue.
    case_bool_decide; unfold reject; by rewrite listeners_settle.
  - unfold onReplyTimeout. rewrite listeners_removeFromQueue.
    unfold reject. by rewrite listeners_settle.
Qed.

Lemma listeners_fireDue (fuel : nat) (deadline : Z) (s : State) :
  listeners (fireDue fuel deadline s) = listeners s.
Proof.
  revert s. induction fuel as [|fuel IH]; intros s; simpl; [done|].
  destruct (earliest s) as [[h t]|]; [|done].
  destruct (Z.leb _ _); [|done]. by rewrite IH, listeners_fire.
Qed.

Lemma listeners_send (m : Message) (timeout : Z) (s : State) :
  listeners (snd (send config env m timeout s)) = listeners s
  ∨ (isAndroidDevice env = true ∧ Message.useAuthApp m = Some true
     ∧ listeners (snd (send config env m timeout s)) = (listeners s ++ [m])%list).
Proof.
  unfold send. destruct (getPendingMessage _ s); [by left|].
  destruct (negb _); [by left|]. fold (registered config m timeout s).
  destruct (publishMessage _ _ _ _ _) as [e|s2] eqn:Hp; [by left|]. simpl.
  unfold publishMessage in Hp. case_bool_decide as Hu.
  - destruct (isAndroidDevice env).
    + right. split; [done|split; [done|]].
      unfold launchAuthApp in Hp. destruct (IntentUrl.constructor m); [done|].
      match type of Hp with
      | context [pollForLoginSuccess ?e ?m ?t ?s0] =>
          pose proof (pollForLoginSuccess_core m t s0) as (_ & Hl & _);
          destruct (pollForLoginSuccess e m t s0) as [[err|req] s3]
      end; simpl in Hl; injection Hp as <-; simpl; by rewrite Hl.
    + left. unfold displayQRCode in Hp. destruct (IntentUrl.constructor m); [done|].
      destruct (renderQR env _); [done|].
      match type of Hp with
      | context [pollForLoginSuccess ?e ?m ?t ?s0] =>
          pose proof (pollForLoginSuccess_core m t s0) as (_ & Hl & _);
          destruct (pollForLoginSuccess e m t s0) as [[err|req] s3]
      end; simpl in Hl; injection Hp as <-; simpl; rewrite Hl; by destruct (hasCanvas env).
  - left. by injection Hp as <-.
Qed.

Lemma listeners_step (s : State) (e : Event) :
  listeners s `prefix_of` listeners (step config env s e).
Proof.
  destruct e as [m t|m| |h|ms|req code|req|hidden]; simpl.
  - destruct (listeners_send m t s) as [->|(_ & _ & ->)]; [done|]. by apply prefix_app_r.
  - by rewrite listeners_receive.
  - destruct (bus s); [done|]. by rewrite listeners_receive.
  - by rewrite listeners_fire.
  - unfold elapse. simpl. by rewrite listeners_fireDue.
  - destruct (requests s !! req) as [[o [m|]]|]; try done.
    unfold onResponse. by destruct (Z.eqb _ _).
  - by destruct (requests s !! req) as [[o [m|]]|].
  - destruct hidden.
    + by rewrite (proj1 (proj2 (foldl_sendAckMessage_hidden (listeners s) s))).
    + by rewrite foldl_sendAckMessage_shown.
Qed.


(** X11.  No event removes a [visibilitychange] listener: the listeners a
    state has are still there, in the same order, in every later state
    (the timer set to detach one calls [removeEventListener] with another
    function than the one that was added).  So once the page is hidden,
    every request ever launched on the device gets its ack posted again. *)
Theorem listeners_never_detached (events : list Event) (s : State) :
  listeners s `prefix_of` listeners (run config env events s)
  ∧ ∀ m, m ∈ listeners s →
      Message.ofAction (getRelevantAckAction m)
      ∈ bus (step config env (run config env events s) (EVisibilityChange true)).
Proof.
  assert (H : listeners s `prefix_of` listeners (run config env events s)).
  { induction events as [|e events IH] using rev_ind; [done|].
    rewrite run_snoc. etrans; [exact IH|apply listeners_step]. }
  split; [done|]. intros m Hm.
  unfold step. rewrite (proj1 (foldl_sendAckMessage_hidden _ _)).
  apply elem_of_app. right. apply list_elem_of_fmap. exists m. split; [done|].
  destruct H as [k ->]. apply elem_of_app. by left.
Qed.



(** [send] in the mobile flow, once the request is registered. *)
Lemma send_mobile (m : Message) (timeout : Z) (s : State) :
  getPendingMessage (Message.action m) s = None → isSecureContext env = true →
  Message.useAuthApp m = Some true →
  send config env m timeout s
  = match (if isAndroidDevice env then launchAuthApp config m (registered config m timeout s)
           else displayQRCode config env m (registered config m timeout s)) with
    | inl e => (Throws e, registered config m timeout s)
    | inr s1 =>
        (Returns (nextPromise s),
         match pollForLoginSuccess env m timeout s1 with
         | (inl _, s2) => s2
         | (inr req, s2) => attachHandlers req m s2
         end)
    end.
Proof.
  intros Hf Hs Hu. unfold send. rewrite Hf, Hs. simpl negb. cbv iota.
  fold (registered config m timeout s). unfold publishMessage.
  rewrite bool_decide_eq_true_2 by done.
  destruct (if isAndroidDevice env then _ else _) as [e|s1]; [done|].
  by destruct (pollForLoginSuccess env m timeout s1) as [[e|req] s2].
Qed.

(** The polling step of [publishMessage] keeps what the page shows and
    what the service holds. *)
Lemma polled_core (m : Message) (timeout : Z) (s1 : State) :
  let s2 := match pollForLoginSuccess env m timeout s1 with
            | (inl _, s2) => s2
            | (inr req, s2) => attachHandlers req m s2
            end in
  bus s2 = bus s1 ∧ listeners s2 = listeners s1 ∧ href s2 = href s1
  ∧ canvas s2 = canvas s1 ∧ queue s2 = queue s1 ∧ timers s2 = timers s1
  ∧ promises s2 = promises s1 ∧ nextTimer s2 = nextTimer s1.
Proof.
  unfold pollForLoginSuccess. destruct (truthy _); [|done].
  destruct (negb _); [done|]. by destruct (parseURL env _) as [e|[[h p] pa]].
Qed.




Lemma polled_requests (m : Message) (timeout : Z) (s s1 : State) :
  requests s1 = requests s →
  let s2 := match pollForLoginSuccess env m timeout s1 with
            | (inl _, s2) => s2
            | (inr req, s2) => attachHandlers req m s2
            end in
  match fst (pollForLoginSuccess env m timeout s) with
  | inl _ => requests s2 = requests s
  | inr _ =>
      ∃ o, requests s2 = (requests s ++ [{| options := o; listener := Some m |}])%list
           ∧ method o = "GET" ∧ requestHeaders o = Message.headers m
           ∧ requestTimeout o = timeout
  end.
Proof.
  intros Hr. unfold pollForLoginSuccess. destruct (truthy _); [|done].
  destruct (negb _); [done|]. destruct (parseURL env _) as [e|[[h p] pa]]; [done|].
  simpl. eexists. split.
  - rewrite Hr, <- (Nat.add_0_r (List.length (requests s))). rewrite alter_app_r.
    reflexivity.
  - by simpl.
Qed.

(** X14.  When [send] returns the promise of a request of the mobile flow,
    the request is registered whether or not the polling could start.  If
    [pollForLoginSuccess] rejects (no status address, one that is not
    HTTPS, one that does not parse), the rejection is dropped: no request
    is made and no promise is settled.  Otherwise exactly one GET request
    is added, with the headers of the message and the timeout of the call,
    and its handlers are attached for the message. *)
Theorem send_starts_polling (m : Message) (timeout : Z) (s : State) (i : nat) :
  fst (send config env m timeout s) = Returns i → Message.useAuthApp m = Some true →
  let s' := snd (send config env m timeout s) in
  i = nextPromise s ∧ promises s' = promises s ∧ newPending m s ∈ queue s'
  ∧ match fst (pollForLoginSuccess env m timeout s) with
    | inl _ => requests s' = requests s
    | inr _ =>
        ∃ o, requests s' = (requests s ++ [{| options := o; listener := Some m |}])%list
             ∧ requests s' !! List.length (requests s)
               = Some {| options := o; listener := Some m |}
             ∧ method o = "GET" ∧ requestHeaders o = Message.headers m
             ∧ requestTimeout o = timeout
    end.
Proof.
  intros H Hu s'.
  assert (Hf : getPendingMessage (Message.action m) s = None).
  { unfold send in H. by destruct (getPendingMessage _ s). }
  assert (Hs : isSecureContext env = true).
  { unfold send in H. rewrite Hf in H. by destruct (isSecureContext env). }
  unfold s'. rewrite send_mobile in H |- * by done.
  set (r := registered config m timeout s) in *.
  assert (Hgen : ∀ s1, requests s1 = requests s → promises s1 = promises s →
            queue s1 = (queue s ++ [newPending m s])%list →
            let s2 := match pollForLoginSuccess env m timeout s1 with
                      | (inl _, s2) => s2
                      | (inr req, s2) => attachHandlers req m s2
                      end in
            promises s2 = promises s ∧ newPending m s ∈ queue s2
            ∧ match fst (pollForLoginSuccess env m timeout s) with
              | inl _ => requests s2 = requests s
              | inr _ =>
                  ∃ o, requests s2 = (requests s ++ [{| options := o; listener := Some m |}])%list
                       ∧ requests s2 !! List.length (requests s)
                         = Some {| options := o; listener := Some m |}
                       ∧ method o = "GET" ∧ requestHeaders o = Message.headers m
                       ∧ requestTimeout o = timeout
              end).
  { intros s1 Hr Hp Hq s2.
    destruct (polled_core m timeout s1) as (_ & _ & _ & _ & Hq2 & _ & Hp2 & _).
    pose proof (polled_requests m timeout s s1 Hr) as HR.
    fold s2 in Hq2, Hp2, HR. clearbody s2.
    split; [by rewrite Hp2|]. split; [rewrite Hq2, Hq; apply elem_of_app; right; by left|].
    destruct (fst (pollForLoginSuccess env m timeout s)); [done|].
    destruct HR as (o & HR & Hm & Hh & Ht). exists o. split; [done|].
    split; [|done]. rewrite HR. by apply list_lookup_middle. }
  destruct (isAndroidDevice env).
  - unfold launchAuthApp in *. destruct (IntentUrl.constructor m) as [e|u]; [done|].
    simpl in H. injection H as <-. simpl snd. split; [done|]. by apply Hgen.
  - unfold displayQRCode in *. destruct (IntentUrl.constructor m) as [e|u]; [done|].
    destruct (renderQR env _) as [e|svg]; [done|].
    simpl in H. injection H as <-. simpl snd. split; [done|].
    apply Hgen; destruct (hasCanvas env); done.
Qed.


(** X26.  For a message whose fields that go through
    [encodeURIComponent] are well-formed text ([toString] of [IntentUrl]
    throws the URIError of [encodeURIComponent] on a lone surrogate, which
    is outside this embedding): [send] throws exactly when the request is
    registered (no entry for its action, a secure context), it is one of
    the mobile flow, and either the deep link cannot be built from the
    message or, on a device that is not an Android one, the QR code cannot
    be rendered; it throws what the constructor of [IntentUrl] or the
    renderer threw. *)
Theorem send_throws_exactly (m : Message) (timeout : Z) (s : State) (e : Error) :
  encodableFields m →
  fst (send config env m timeout s) = Throws e
  ↔ getPendingMessage (Message.action m) s = None ∧ isSecureContext env = true
    ∧ Message.useAuthApp m = Some true
    ∧ (IntentUrl.constructor m = inl e
       ∨ (isAndroidDevice env = false
          ∧ ∃ u, IntentUrl.constructor m = inr u
                 ∧ renderQR env (IntentUrl.toString (AUTH_APP_INTENT_URL_BASE config) u)
                   = inl e)).
Proof.
  intros _. split.
  - intros H.
    assert (Hf : getPendingMessage (Message.action m) s = None).
    { unfold send in H. by destruct (getPendingMessage _ s). }
    assert (Hs : isSecureContext env = true).
    { unfold send in H. rewrite Hf in H. by destruct (isSecureContext env). }
    assert (Hu : Message.useAuthApp m = Some true).
    { unfold send in H. rewrite Hf, Hs in H. simpl in H.
      destruct (Message.useAuthApp m) as [[|]|] eqn:Hu; [done|..];
        rewrite publishMessage_extension in H by (rewrite ?Hu; done); done. }
    split; [done|]. split; [done|]. split; [done|].
    rewrite send_mobile in H by done. unfold launchAuthApp, displayQRCode in H.
    destruct (IntentUrl.constructor m) as [e'|u].
    + left. destruct (isAndroidDevice env); simpl in H; congruence.
    + right. destruct (isAndroidDevice env); [done|]. split; [done|]. exists u.
      split; [done|]. destruct (renderQR env _) as [e'|svg]; simpl in H; congruence.
  - intros (Hf & Hs & Hu & H). rewrite send_mobile by done.
    unfold launchAuthApp, displayQRCode.
    destruct H as [->|(-> & u & -> & ->)]; [by destruct (isAndroidDevice env)|done].
Qed.

End ServiceExtras.

Lemma send_rejects_without_effect_witness :
  snd (send exampleConfig insecureEnv authenticate 30000 initial) = initial.
Proof.
  by apply (send_rejects_without_effect exampleConfig insecureEnv authenticate 30000 initial
              ContextInsecureError).
Defined.

Lemma send_throws_after_registering_witness :
  let s' := snd (send exampleConfig exampleEnv onlyChallenge 30000 initial) in
  send exampleConfig exampleEnv onlyChallenge 500 s' = (ReturnsRejected ActionPendingError, s').
Proof.
  intros s'.
  destruct (send_throws_after_registering exampleConfig exampleEnv onlyChallenge 30000 initial
              (MissingParameterError "Missing parameters for IntentUrl."))
    as (_ & _ & _ & _ & H).
  - reflexivity.
  - apply H.
Defined.

Lemma receive_ignores_witness :
  let s := run exampleConfig exampleEnv [ESend authenticate 30000] initial in
  receive exampleEnv (Message.ofAction "web-eid:sign-success") s = s.
Proof. intros s. apply receive_ignores. right. left. reflexivity. Defined.

Lemma own_message_comes_back_witness :
  let s' := snd (send exampleConfig exampleEnv authenticate 30000 initial) in
  step exampleConfig exampleEnv s' EDispatch = setBus [] s'.
Proof.
  intros s'.
  apply (own_message_comes_back exampleConfig exampleEnv authenticate 30000 initial);
    try reflexivity.
  - unfold Action.base. repeat constructor.
  - discriminate.
Defined.

Lemma receive_settles_witness :
  let s := run exampleConfig exampleEnv [ESend authenticate 30000] initial in
  promises (receive exampleEnv (Message.ofAction "web-eid:authenticate-failure") s) !! 0
  = Some (RejectedWithMessage (Message.ofAction "web-eid:authenticate-failure")).
Proof.
  intros s.
  destruct (receive_settles exampleConfig exampleEnv [ESend authenticate 30000] firstPending
              (Message.ofAction "web-eid:authenticate-failure")) as (_ & H & _).
  - vm_compute. left.
  - reflexivity.
  - by apply H.
Defined.

Lemma relevant_actions_correlate_witness :
  getRelevantErrorAction (Message.ofAction "web-eid:get-signing-certificate")
  = "web-eid:status-failure".
Proof.
  destruct (relevant_actions_correlate (Message.ofAction "web-eid:get-signing-certificate"))
    as (_ & _ & _ & H).
  apply H. unfold Action.base. intros Hin. set_unfold. by destruct Hin as [|[|[|[]]]].
Defined.

Lemma queue_invariant_witness :
  let s := run exampleConfig exampleEnv [ESend authenticate 30000] initial in
  promises s !! 0 = None.
Proof.
  intros s.
  destruct (queue_invariant exampleConfig exampleEnv [ESend authenticate 30000] firstPending)
    as (_ & H & _).
  - left. vm_compute. left.
  - exact H.
Defined.

Lemma stale_ack_timer_removes_successor_witness :
  let s := run exampleConfig exampleEnv
             [ESend authenticate 30000; EReceive authenticateSuccess; EElapse 200;
              ESend authenticate 30000; EReceive authenticateAck] initial in
  (secondPending ∉ queue (fire 1 s)) ∧ promises (fire 1 s) !! 1 = None.
Proof.
  intros s.
  destruct (stale_ack_timer_removes_successor exampleConfig exampleEnv
              [ESend authenticate 30000; EReceive authenticateSuccess; EElapse 200;
               ESend authenticate 30000; EReceive authenticateAck]
              firstPending secondPending) as (H1 & H2 & _).
  - exists 1000%Z. by vm_compute.
  - vm_compute. left.
  - reflexivity.
  - simpl. lia.
  - split; [exact H1|exact H2].
Defined.

Lemma alerting_handlers_drop_request_witness :
  let s := run exampleConfig exampleEnv [ESend authPair 30000; EDispatch] initial in
  alerts (onResponseAlerting authPair 449 s) = ["Invalid PIN or CAN."]
  ∧ promises (onResponseAlerting authPair 449 s) = promises s.
Proof.
  intros s.
  destruct (alerting_handlers_drop_request authPair 449 s
              {| message := authPair; promise := 0; ackTimer := 1; replyTimer := 2 |})
    as (_ & H & _).
  - by vm_compute.
  - destruct H as (_ & Ha & Hp & _); [lia|]. split; [exact Ha|exact Hp].
Defined.



Lemma send_starts_polling_witness :
  requests (snd (send exampleConfig exampleEnv authPairNoStatus 30000 initial)) = [].
Proof.
  destruct (send_starts_polling exampleConfig exampleEnv authPairNoStatus 30000 initial 0)
    as (_ & _ & _ & H).
  - by vm_compute.
  - reflexivity.
  - exact H.
Defined.

(** ** The bit buffer *)

Section Bits.

Local Open Scope Z_scope.

Lemma ushr_small (v i : Z) : 0 ≤ i < 32 → ushr v i = toUint32 v / 2 ^ i.
Proof.
  intros H. unfold ushr. rewrite Z.mod_small by lia. apply Z.shiftr_div_pow2. lia.
Qed.

Lemma toUint32_range (v : Z) : 0 ≤ toUint32 v < 2 ^ 32.
Proof. unfold toUint32. apply Z.mod_pos_bound. lia. Qed.

Lemma land_1 (y : Z) : Z.land y 1 = y mod 2.
Proof. change 1 with (Z.ones 1). by rewrite Z.land_ones by lia. Qed.

Lemma bitAt_spec (v i : Z) : 0 ≤ i < 32 → bitAt v i = (toUint32 v / 2 ^ i) mod 2.
Proof. intros H. unfold bitAt. by rewrite ushr_small, land_1. Qed.

Lemma bitAt_isBit (v i : Z) : isBit (bitAt v i).
Proof.
  unfold isBit, bitAt. rewrite land_1.
  pose proof (Z.mod_pos_bound (ushr v i) 2). lia.
Qed.

Lemma pushBits_app (v : Z) (n : nat) (bb : list Z) :
  pushBits v n bb = (bb ++ pushBits v n [])%list.
Proof.
  revert bb. induction n as [|n IH]; intros bb; simpl.
  - by rewrite app_nil_r.
  - rewrite IH. rewrite (IH [_]). by rewrite <- app_assoc.
Qed.

Lemma pushBits_length (v : Z) (n : nat) : List.length (pushBits v n []) = n.
Proof.
  induction n as [|n IH]; simpl; [done|].
  rewrite pushBits_app. simpl. by rewrite IH.
Qed.

Lemma pushBits_isBit (v : Z) (n : nat) : Forall isBit (pushBits v n []).
Proof.
  induction n as [|n IH]; simpl; [constructor|].
  rewrite pushBits_app. simpl. constructor; [apply bitAt_isBit|done].
Qed.

Lemma bitsValue_from (acc : Z) (bits : list Z) :
  foldl (λ acc b, 2 * acc + b) acc bits
  = acc * 2 ^ Z.of_nat (List.length bits) + bitsValue bits.
Proof.
  unfold bitsValue. revert acc. induction bits as [|b bits IH]; intros acc.
  - simpl. lia.
  - cbn [foldl List.length]. rewrite IH. rewrite (IH (2 * 0 + b)).
    rewrite Nat2Z.inj_succ, Z.pow_succ_r by lia. lia.
Qed.

Lemma bitsValue_cons (b : Z) (bits : list Z) :
  bitsValue (b :: bits) = b * 2 ^ Z.of_nat (List.length bits) + bitsValue bits.
Proof.
  unfold bitsValue at 1. cbn [foldl]. rewrite bitsValue_from. lia.
Qed.

Lemma bitsValue_app (a b : list Z) :
  bitsValue (a ++ b) = bitsValue a * 2 ^ Z.of_nat (List.length b) + bitsValue b.
Proof.
  unfold bitsValue at 1. rewrite foldl_app. fold (bitsValue a). apply bitsValue_from.
Qed.

Lemma pushBits_value (v : Z) (n : nat) :
  (n ≤ 32)%nat → bitsValue (pushBits v n []) = toUint32 v mod 2 ^ Z.of_nat n.
Proof.
  induction n as [|n IH]; intros Hn.
  - simpl. by rewrite Z.mod_1_r.
  - cbn [pushBits]. rewrite pushBits_app. cbn [app].
    rewrite bitsValue_cons, pushBits_length, IH by lia.
    rewrite bitAt_spec by lia.
    rewrite Nat2Z.inj_succ, Z.pow_succ_r by lia.
    rewrite (Z.mul_comm 2), Z.rem_mul_r by lia. lia.
Qed.

Lemma appendBits_inr (val len : Z) (bb bb' : list Z) :
  appendBits val len bb = inr bb' →
  0 ≤ len ≤ 31 ∧ toUint32 val < 2 ^ len
  ∧ bb' = (bb ++ pushBits val (Z.to_nat len) [])%list.
Proof.
  unfold appendBits. destruct (len <? 0) eqn:H0; [done|].
  destruct (len >? 31) eqn:H1; [done|]. destruct (ushr val len =? 0) eqn:H2; [|done].
  simpl. intros [= <-]. apply Z.ltb_ge in H0. rewrite Z.gtb_ltb in H1.
  apply Z.ltb_ge in H1. apply Z.eqb_eq in H2. rewrite ushr_small in H2 by lia.
  split; [lia|]. split; [|apply pushBits_app].
  pose proof (toUint32_range val).
  apply Z.div_small_iff in H2 as [H2|H2]; lia.
Qed.

Lemma appendBits_fits (val len : Z) (bb : list Z) :
  0 ≤ len ≤ 31 → toUint32 val < 2 ^ len →
  appendBits val len bb = inr (bb ++ pushBits val (Z.to_nat len) [])%list.
Proof.
  intros Hl Hv. unfold appendBits.
  rewrite (proj2 (Z.ltb_ge len 0)) by lia. rewrite Z.gtb_ltb.
  rewrite (proj2 (Z.ltb_ge 31 len)) by lia.
  rewrite ushr_small by lia. pose proof (toUint32_range val).
  rewrite Z.div_small by lia. simpl. by rewrite pushBits_app.
Qed.

Lemma appendBits_inl (val len : Z) (bb : list Z) (e : string) :
  appendBits val len bb = inl e →
  e = "Value out of range"%string ∧ ¬ (0 ≤ len ≤ 31 ∧ toUint32 val < 2 ^ len).
Proof.
  intros H. split.
  - unfold appendBits in H. destruct (_ || _); [by injection H as <-|done].
  - intros [Hl Hv]. by rewrite appendBits_fits in H.
Qed.

(** X15.  [appendBits(val, len, bb)] throws exactly when [len] is not
    from 0 to 31 or [val], taken as an unsigned 32-bit number, does not
    fit into [len] bits, and then always the string [Value out of range].
    Otherwise it adds exactly [len] elements to the end of the buffer,
    each 0 or 1, which read as a binary number with the most significant
    bit first are [val] as an unsigned 32-bit number. *)
Theorem appendBits_round_trip (val len : Z) (bb : list Z) :
  match appendBits val len bb with
  | inl e => e = "Value out of range"%string ∧ ¬ (0 ≤ len ≤ 31 ∧ toUint32 val < 2 ^ len)
  | inr bb' =>
      0 ≤ len ≤ 31 ∧ toUint32 val < 2 ^ len
      ∧ ∃ bits, bb' = (bb ++ bits)%list ∧ Z.of_nat (List.length bits) = len
                ∧ Forall isBit bits ∧ bitsValue bits = toUint32 val
  end.
Proof.
  destruct (appendBits val len bb) as [e|bb'] eqn:E.
  - by apply appendBits_inl in E.
  - apply appendBits_inr in E as (Hl & Hv & ->). split; [done|]. split; [done|].
    exists (pushBits val (Z.to_nat len) []).
    split; [done|]. split; [rewrite pushBits_length; lia|].
    split; [apply pushBits_isBit|].
    rewrite pushBits_value by lia. rewrite Z2Nat.id by lia.
    apply Z.mod_small. pose proof (toUint32_range val). lia.
Qed.

Lemma getBit_bitAt (x i : Z) : bitAt x i = if getBit x i then 1 else 0.
Proof.
  unfold getBit. destruct (bitAt_isBit x i) as [->| ->]; done.
Qed.

Lemma pushBits_lookup (v : Z) (n k : nat) :
  (k < n)%nat → pushBits v n [] !! k = Some (bitAt v (Z.of_nat (n - 1 - k))).
Proof.
  revert k. induction n as [|n IH]; intros k Hk; [lia|].
  cbn [pushBits]. rewrite pushBits_app. cbn [app]. destruct k as [|k].
  - simpl. do 3 f_equal. lia.
  - simpl. rewrite IH by lia. do 3 f_equal. lia.
Qed.

(** X16.  [getBit(x, i)] is bit [i] of [x] in two's complement for [i]
    from 0 to 31, for negative [x] as well; the shift count wraps, so
    [getBit(x, i + 32)] is [getBit(x, i)].  The element [appendBits] puts
    at position [k] of what it adds is bit [len - 1 - k] of [val]. *)
Theorem getBit_testbit (x i : Z) :
  (0 ≤ i < 32 → getBit x i = Z.testbit x i)
  ∧ getBit x (i + 32) = getBit x i
  ∧ ∀ len bb bb' k, appendBits x len bb = inr bb' → 0 ≤ k < len →
      bb' !! (List.length bb + Z.to_nat k)%nat
      = Some (if getBit x (len - 1 - k) then 1 else 0).
Proof.
  split; [|split].
  - intros Hi. unfold getBit. rewrite bitAt_spec by done.
    rewrite <- Z.shiftr_div_pow2 by lia. rewrite <- Z.bit0_mod.
    rewrite Z.shiftr_spec by lia. rewrite Z.add_0_l. unfold toUint32.
    rewrite Z.mod_pow2_bits_low by lia. by destruct (Z.testbit x i).
  - unfold getBit, bitAt, ushr. do 4 f_equal.
    rewrite <- (Z.mul_1_l 32) at 1. by rewrite Z.mod_add.
  - intros len bb bb' k E Hk. apply appendBits_inr in E as (Hl & Hv & ->).
    rewrite lookup_app_r by lia. replace (_ + _ - _)%nat with (Z.to_nat k) by lia.
    rewrite pushBits_lookup by lia. rewrite <- getBit_bitAt.
    replace (Z.of_nat (Z.to_nat len - 1 - Z.to_nat k)) with (len - 1 - k) by lia. done.
Qed.

Lemma readGroups_pushBits {A : Type} (val : A → Z) (width : A → nat) (gs : list A) :
  Forall (λ g, (width g ≤ 31)%nat ∧ 0 ≤ val g < 2 ^ Z.of_nat (width g)) gs →
  readGroups (width <$> gs) (flat_map (λ g, pushBits (val g) (width g) []) gs) = val <$> gs.
Proof.
  induction gs as [|g gs IH]; intros H; [done|].
  apply Forall_cons in H as [[Hw Hv] H]. cbn [fmap list_fmap flat_map readGroups].
  rewrite take_app_length', drop_app_length' by (by rewrite pushBits_length).
  rewrite IH by done. f_equal. rewrite pushBits_value by lia.
  assert (2 ^ Z.of_nat (width g) ≤ 2 ^ 32) by (apply Z.pow_le_mono_r; lia).
  unfold toUint32. rewrite (Z.mod_small _ (2 ^ 32)) by lia. by apply Z.mod_small.
Qed.

Lemma flat_map_pushBits_isBit {A : Type} (val : A → Z) (width : A → nat) (gs : list A) :
  Forall isBit (flat_map (λ g, pushBits (val g) (width g) []) gs).
Proof.
  induction gs as [|g gs IH]; [constructor|]. cbn [flat_map].
  apply Forall_app. split; [apply pushBits_isBit|done].
Qed.

End Bits.

(** ** The segments *)

Section Segments.

Import QrSegment.
Local Open Scope Z_scope.

(** The characters of the two classes, and what [parseInt] and
    [encodeURI] do with a single character: by cases on the character. *)

Ltac by_character c :=
  destruct c as [[] [] [] [] [] [] [] []]; vm_compute; try done; auto.

Lemma digit_char (c : ascii) :
  isDigitChar c = true →
  isWhiteSpace c = false ∧ c ≠ "-"%char ∧ c ≠ "+"%char
  ∧ digitValue c = Some (Z.of_nat (nat_of_ascii c) - 48)
  ∧ 48 ≤ Z.of_nat (nat_of_ascii c) ≤ 57.
Proof. by_character c; intros _; repeat split; done. Qed.

Lemma alphanumeric_char (c : ascii) :
  isAlphanumericChar c = true ↔ 0 ≤ indexOf ALPHANUMERIC_CHARSET c < 45.
Proof. by_character c; split; intros H; try done; destruct H; done. Qed.

Lemma kept_char (c : ascii) :
  uriUnescaped c || uriReserved c || Ascii.eqb c "#" = true → Ascii.eqb c "%" = false.
Proof. by_character c. Qed.

Lemma escaped_char (c : ascii) :
  parseInt (String (hexDigit true (nat_of_ascii c / 16))
              (String (hexDigit true (nat_of_ascii c mod 16)) EmptyString)) 16
  = Some (Z.of_nat (nat_of_ascii c)).
Proof. by_character c. Qed.

Lemma char_code_byte (c : ascii) : toUint32 (Z.of_nat (nat_of_ascii c)) < 256.
Proof. by_character c. Qed.


(** *** Byte mode *)

Lemma bytesBits_fits (data bb : list Z) :
  Forall (λ b, toUint32 b < 256) data → bytesBits data bb = inr (bb ++ byteBits data)%list.
Proof.
  revert bb. induction data as [|b data IH]; intros bb H; simpl.
  - by rewrite app_nil_r.
  - apply Forall_cons in H as [Hb H]. rewrite appendBits_fits by (simpl; lia).
    rewrite IH by done. by rewrite <- app_assoc.
Qed.

Lemma bytesBits_inr (data bb bb' : list Z) :
  bytesBits data bb = inr bb' → Forall (λ b, toUint32 b < 256) data.
Proof.
  revert bb. induction data as [|b data IH]; intros bb H; simpl in H; [constructor|].
  destruct (appendBits b 8 bb) as [e|bb1] eqn:E; [done|].
  apply appendBits_inr in E as (_ & Hb & _). constructor; [done|by eapply IH].
Qed.

Lemma bytesBits_inl (data bb : list Z) (e : string) :
  bytesBits data bb = inl e → e = "Value out of range"%string.
Proof.
  revert bb. induction data as [|b data IH]; intros bb H; simpl in H; [done|].
  destruct (appendBits b 8 bb) as [e'|bb1] eqn:E; [|by eapply IH].
  injection H as <-. by apply appendBits_inl in E as [-> _].
Qed.

Lemma byteBits_length (data : list Z) :
  Z.of_nat (List.length (byteBits data)) = 8 * Z.of_nat (List.length data).
Proof.
  induction data as [|b data IH]; [done|]. unfold byteBits in *. cbn [flat_map].
  rewrite length_app, pushBits_length. cbn [List.length]. lia.
Qed.

Lemma byteBits_isBit (data : list Z) : Forall isBit (byteBits data).
Proof.
  induction data as [|b data IH]; [constructor|]. unfold byteBits in *. cbn [flat_map].
  apply Forall_app. split; [apply pushBits_isBit|done].
Qed.

Lemma byteBits_groups (data : list Z) :
  Forall (λ b, toUint32 b < 256) data →
  groupsOf (List.length data) 8 (byteBits data) = toUint32 <$> data.
Proof.
  induction data as [|b data IH]; intros H; [done|].
  apply Forall_cons in H as [Hb H]. unfold byteBits in *. cbn [flat_map List.length groupsOf].
  pose proof (pushBits_length b 8) as Hlen.
  destruct (pushBits b 8 [] ++ _)%list as [|x l] eqn:E.
  { apply (f_equal List.length) in E. rewrite length_app, Hlen in E. simpl in E. lia. }
  rewrite <- E. rewrite take_app_length' by done. rewrite drop_app_length' by done.
  rewrite IH by done. rewrite pushBits_value by lia. simpl. f_equal.
  apply Z.mod_small. pose proof (toUint32_range b). lia.
Qed.

(** X17.  [makeBytes(data)] throws exactly when some element of [data],
    taken as an unsigned 32-bit number, is not below 256, and then the
    string of [appendBits].  Otherwise the segment is in byte mode, its
    character count is the number of bytes, it has eight bits per byte,
    and the bits, read in groups of eight with the most significant bit
    first, are the bytes again. *)
Theorem makeBytes_round_trip (data : list Z) :
  match makeBytes data with
  | inl e => e = "Value out of range"%string ∧ ¬ Forall (λ b, toUint32 b < 256) data
  | inr seg =>
      Forall (λ b, toUint32 b < 256) data
      ∧ mode seg = BYTE ∧ numChars seg = Z.of_nat (List.length data)
      ∧ Z.of_nat (List.length (bitData seg)) = 8 * Z.of_nat (List.length data)
      ∧ Forall isBit (bitData seg)
      ∧ groupsOf (List.length data) 8 (bitData seg) = toUint32 <$> data
  end.
Proof.
  unfold makeBytes. destruct (bytesBits data []) as [e|bb] eqn:E.
  - split; [by eapply bytesBits_inl|]. intros H. by rewrite bytesBits_fits in E.
  - pose proof (bytesBits_inr _ _ _ E) as H. rewrite bytesBits_fits in E by done.
    injection E as <-. unfold constructor.
    rewrite (proj2 (Z.ltb_ge _ _)) by lia. simpl.
    split; [done|]. split; [done|]. split; [done|].
    split; [apply byteBits_length|]. split; [apply byteBits_isBit|by apply byteBits_groups].
Qed.

(** *** Numeric mode *)

Lemma isNumeric_cons (c : ascii) (s : string) :
  isNumeric (String c s) = isDigitChar c && isNumeric s.
Proof. reflexivity. Qed.

Lemma digitsPrefix_digits (s : string) (acc : Z) :
  isNumeric s = true →
  digitsPrefix 10 s (Some acc)
  = Some (foldl (λ acc c, acc * 10 + (Z.of_nat (nat_of_ascii c) - 48)) acc
            (list_ascii_of_string s)).
Proof.
  revert acc. induction s as [|c s IH]; intros acc H; [done|].
  rewrite isNumeric_cons in H. apply andb_true_iff in H as [Hc H].
  destruct (digit_char c Hc) as (_ & _ & _ & Hd & Hr).
  cbn [digitsPrefix]. rewrite Hd.
  rewrite (proj2 (Z.ltb_lt (Z.of_nat (nat_of_ascii c) - 48) 10)) by lia.
  cbn [default]. by rewrite IH.
Qed.

Lemma parseInt_digits (c : ascii) (s : string) :
  isNumeric (String c s) = true → parseInt (String c s) 10 = Some (decimalValue (String c s)).
Proof.
  intros H. pose proof H as H'. rewrite isNumeric_cons in H'.
  apply andb_true_iff in H' as [Hc Hs].
  destruct (digit_char c Hc) as (Hw & Hm & Hp & Hd & Hr).
  unfold parseInt. cbn [trimStart]. rewrite Hw.
  assert (E : match String c s with
              | String "-" r => (-1, r)
              | String "+" r => (1, r)
              | _ => (1, String c s)
              end = (1, String c s)).
  { destruct c as [[] [] [] [] [] [] [] []]; try done. }
  rewrite E. change (10 =? 16) with false. cbv beta iota zeta.
  cbn [digitsPrefix]. rewrite Hd.
  rewrite (proj2 (Z.ltb_lt (Z.of_nat (nat_of_ascii c) - 48) 10)) by lia. cbn [default].
  rewrite digitsPrefix_digits by done. unfold decimalValue.
  cbn [list_ascii_of_string foldl fmap option_fmap option_map]. f_equal.
  destruct (foldl _ _ _); done.
Qed.

Lemma decimalValue_bound (s : string) :
  isNumeric s = true → 0 ≤ decimalValue s < 10 ^ Z.of_nat (String.length s).
Proof.
  unfold decimalValue.
  assert (G : ∀ acc, isNumeric s = true → 0 ≤ acc →
            acc * 10 ^ Z.of_nat (String.length s)
            ≤ foldl (λ acc c, acc * 10 + (Z.of_nat (nat_of_ascii c) - 48)) acc
                (list_ascii_of_string s)
            < (acc + 1) * 10 ^ Z.of_nat (String.length s)).
  { induction s as [|c s IH]; intros acc H Hacc.
    - simpl. lia.
    - rewrite isNumeric_cons in H. apply andb_true_iff in H as [Hc H].
      cbn [list_ascii_of_string foldl String.length].
      unfold isDigitChar in Hc. apply andb_true_iff in Hc as [H1 H2].
      apply Nat.leb_le in H1, H2.
      specialize (IH (acc * 10 + (Z.of_nat (nat_of_ascii c) - 48)) H ltac:(lia)).
      rewrite Nat2Z.inj_succ, Z.pow_succ_r by lia.
      set (p := 10 ^ Z.of_nat (String.length s)) in *.
      assert (0 < p) by (apply Z.pow_pos_nonneg; lia). nia. }
  intros H. specialize (G 0 H ltac:(lia)). lia.
Qed.

Lemma numericLength_step (n : Z) : 0 ≤ n → numericLength (n + 3) = 10 + numericLength n.
Proof.
  intros H. unfold numericLength.
  replace (n + 3) with (n + 1 * 3) by lia. rewrite Z.div_add, Z.mod_add by lia. lia.
Qed.

Lemma numeric_chunk (ch : string) (bb : list Z) :
  isNumeric ch = true → (1 ≤ String.length ch ≤ 3)%nat →
  let len := Z.of_nat (String.length ch) * 3 + 1 in
  appendBits (operand (parseInt ch 10)) len bb
  = inr (bb ++ pushBits (decimalValue ch) (Z.to_nat len) [])%list.
Proof.
  intros H Hlen len. destruct ch as [|c ch]; [simpl in Hlen; lia|].
  rewrite parseInt_digits by done. cbn [operand default].
  pose proof (decimalValue_bound _ H) as Hb.
  assert (Hp : 10 ^ Z.of_nat (String.length (String c ch)) ≤ 2 ^ len).
  { unfold len. destruct ch as [|c1 [|c2 [|c3 ch]]]; simpl in Hlen |- *; lia. }
  assert (Hl : 0 ≤ len ≤ 31) by (unfold len; lia).
  apply appendBits_fits; [done|]. unfold toUint32. rewrite Z.mod_small; [lia|].
  assert (2 ^ len ≤ 2 ^ 32) by (apply Z.pow_le_mono_r; lia). lia.
Qed.

Lemma numericBits_fits (n : nat) (s : string) (bb : list Z) :
  (String.length s ≤ n)%nat → isNumeric s = true →
  ∃ bits, numericBits s bb = inr (bb ++ bits)%list
          ∧ Z.of_nat (List.length bits) = numericLength (Z.of_nat (String.length s))
          ∧ Forall isBit bits.
Proof.
  revert s bb. induction n as [|n IH]; intros s bb Hn H.
  - destruct s; [|simpl in Hn; lia]. exists []. by rewrite app_nil_r.
  - destruct s as [|a [|b [|c r]]].
    + exists []. by rewrite app_nil_r.
    + cbn [numericBits]. change (1 * 3 + 1) with (Z.of_nat (String.length (String a "")) * 3 + 1).
      rewrite numeric_chunk by (done || simpl; lia). eexists. split; [done|].
      split; [by rewrite pushBits_length|apply pushBits_isBit].
    + cbn [numericBits]. change (2 * 3 + 1) with (Z.of_nat (String.length (String a (String b ""))) * 3 + 1).
      rewrite numeric_chunk by (done || simpl; lia). eexists. split; [done|].
      split; [by rewrite pushBits_length|apply pushBits_isBit].
    + cbn [numericBits].
      rewrite !isNumeric_cons in H.
      apply andb_true_iff in H as [Ha H]. apply andb_true_iff in H as [Hb H].
      apply andb_true_iff in H as [Hc H].
      change (3 * 3 + 1) with (Z.of_nat (String.length (String a (String b (String c "")))) * 3 + 1).
      rewrite numeric_chunk; [|rewrite !isNumeric_cons, Ha, Hb, Hc; done|simpl; lia].
      change (Z.to_nat (Z.of_nat (String.length (String a (String b (String c "")))) * 3 + 1))
        with 10%nat.
      destruct (IH r (bb ++ pushBits (decimalValue (String a (String b (String c "")))) 10 [])%list)
        as (bits & -> & Hl & Hbits); [simpl in Hn; lia|done|].
      eexists. rewrite <- app_assoc. split; [done|]. split.
      * rewrite length_app, pushBits_length. cbn [String.length].
        replace (Z.of_nat (S (S (S (String.length r))))) with (Z.of_nat (String.length r) + 3) by lia.
        rewrite numericLength_step by lia. lia.
      * apply Forall_app. split; [apply pushBits_isBit|done].
Qed.

Lemma makeNumeric_fits (digits : string) :
  isNumeric digits = true →
  ∃ bits, makeNumeric digits = inr (Build NUMERIC (Z.of_nat (String.length digits)) bits).
Proof.
  intros H. unfold makeNumeric. rewrite H. cbn [negb].
  destruct (numericBits_fits _ digits [] (le_n _) H) as (bits & -> & _).
  unfold constructor. rewrite (proj2 (Z.ltb_ge _ _)) by lia. by eexists.
Qed.

Lemma numericGroups_digits (n : nat) (s : string) :
  (String.length s ≤ n)%nat → isNumeric s = true →
  Forall (λ g, isNumeric g = true ∧ (1 ≤ String.length g ≤ 3)%nat) (numericGroups s).
Proof.
  revert s. induction n as [|n IH]; intros s Hn H.
  - destruct s; [constructor|simpl in Hn; lia].
  - destruct s as [|a [|b [|c r]]]; cbn [numericGroups].
    + constructor.
    + constructor; [|constructor]. split; [done|simpl; lia].
    + constructor; [|constructor]. split; [done|simpl; lia].
    + rewrite !isNumeric_cons in H.
      apply andb_true_iff in H as [Ha H]. apply andb_true_iff in H as [Hb H].
      apply andb_true_iff in H as [Hc H]. constructor.
      * split; [by rewrite !isNumeric_cons, Ha, Hb, Hc|simpl; lia].
      * apply IH; [simpl in Hn; lia|done].
Qed.

Lemma numericBits_groups (n : nat) (s : string) (bb : list Z) :
  (String.length s ≤ n)%nat → isNumeric s = true →
  numericBits s bb
  = inr (bb ++ flat_map (λ g, pushBits (decimalValue g) (numericWidth g) [])
                 (numericGroups s))%list.
Proof.
  revert s bb. induction n as [|n IH]; intros s bb Hn H.
  - destruct s; [|simpl in Hn; lia]. simpl. by rewrite app_nil_r.
  - destruct s as [|a [|b [|c r]]].
    + simpl. by rewrite app_nil_r.
    + cbn [numericBits numericGroups flat_map].
      change (1 * 3 + 1) with (Z.of_nat (String.length (String a "")) * 3 + 1).
      rewrite numeric_chunk by (done || simpl; lia). by rewrite app_nil_r.
    + cbn [numericBits numericGroups flat_map].
      change (2 * 3 + 1) with (Z.of_nat (String.length (String a (String b ""))) * 3 + 1).
      rewrite numeric_chunk by (done || simpl; lia). by rewrite app_nil_r.
    + cbn [numericBits numericGroups flat_map].
      rewrite !isNumeric_cons in H.
      apply andb_true_iff in H as [Ha H]. apply andb_true_iff in H as [Hb H].
      apply andb_true_iff in H as [Hc H].
      change (3 * 3 + 1)
        with (Z.of_nat (String.length (String a (String b (String c "")))) * 3 + 1).
      rewrite numeric_chunk; [|rewrite !isNumeric_cons, Ha, Hb, Hc; done|simpl; lia].
      change (Z.to_nat (Z.of_nat (String.length (String a (String b (String c "")))) * 3 + 1))
        with (numericWidth (String a (String b (String c "")))).
      rewrite IH by (done || simpl in Hn; lia). by rewrite <- app_assoc.
Qed.

Lemma numericGroups_fit (s : string) :
  isNumeric s = true →
  Forall (λ g, (numericWidth g ≤ 31)%nat
               ∧ 0 ≤ decimalValue g < 2 ^ Z.of_nat (numericWidth g)) (numericGroups s).
Proof.
  intros H. eapply Forall_impl; [apply (numericGroups_digits _ s (le_n _) H)|].
  intros g [Hg Hl]. pose proof (decimalValue_bound g Hg) as Hb. unfold numericWidth.
  split; [lia|].
  assert (Hp : 10 ^ Z.of_nat (String.length g) ≤ 2 ^ Z.of_nat (3 * String.length g + 1)).
  { destruct g as [|c1 [|c2 [|c3 [|c4 g]]]]; simpl in Hl |- *; lia. }
  lia.
Qed.

(** X18.  [makeNumeric(digits)] throws exactly when a character of
    [digits] is not a decimal digit; [appendBits] never throws in it.
    Otherwise the segment is in numeric mode, its character count is the
    length of [digits], and its bits are, group by group, the digits of
    [digits] in groups of three (one or two at the end), each group
    written as the binary number it denotes in ten bits (four or seven
    for one or two digits), and nothing else. *)
Theorem makeNumeric_encoding (digits : string) :
  match makeNumeric digits with
  | inl e => e = "String contains non-numeric characters"%string ∧ isNumeric digits = false
  | inr seg =>
      isNumeric digits = true
      ∧ mode seg = NUMERIC ∧ numChars seg = Z.of_nat (String.length digits)
      ∧ Z.of_nat (List.length (bitData seg)) = numericLength (Z.of_nat (String.length digits))
      ∧ Forall isBit (bitData seg)
      ∧ readGroups (numericWidth <$> numericGroups digits) (bitData seg)
        = decimalValue <$> numericGroups digits
      ∧ List.length (bitData seg) = foldr Nat.add 0%nat (numericWidth <$> numericGroups digits)
      ∧ ((String.length digits ≤ 3)%nat → bitsValue (bitData seg) = decimalValue digits)
  end.
Proof.
  unfold makeNumeric. destruct (isNumeric digits) eqn:H; [|done]. cbn [negb].
  destruct (numericBits_fits _ digits [] (le_n _) H) as (bits & E & Hl & Hb).
  pose proof (numericBits_groups _ digits [] (le_n _) H) as Eg.
  cbn [app] in E, Eg.
  assert (Hbits : bits = flat_map (λ g, pushBits (decimalValue g) (numericWidth g) [])
                           (numericGroups digits)) by congruence.
  rewrite E. cbn [app]. unfold constructor. rewrite (proj2 (Z.ltb_ge _ _)) by lia. simpl.
  split; [done|]. split; [done|]. split; [done|]. split; [done|]. split; [done|].
  split; [rewrite Hbits; apply readGroups_pushBits; by apply numericGroups_fit|].
  split.
  { rewrite Hbits. clear. induction (numericGroups digits) as [|g gs IH]; [done|].
    cbn [flat_map fmap list_fmap foldr]. by rewrite length_app, pushBits_length, IH. }
  intros Hlen. destruct digits as [|c r]; [by injection E as <-|].
  assert (E' : numericBits (String c r) []
               = appendBits (operand (parseInt (String c r) 10))
                   (Z.of_nat (String.length (String c r)) * 3 + 1) []).
  { destruct r as [|b [|d [|x r]]];
      [reflexivity|reflexivity| |cbn [String.length] in Hlen; lia].
    cbn [numericBits]. destruct (appendBits _ _ _); done. }
  rewrite E', numeric_chunk in E by (done || (cbn [String.length] in *; lia)).
  injection E as <-.
  pose proof (decimalValue_bound _ H) as Hv.
  assert (Hp : 10 ^ Z.of_nat (String.length (String c r))
               ≤ 2 ^ (Z.of_nat (String.length (String c r)) * 3 + 1)).
  { destruct r as [|c1 [|c2 [|c3 r]]]; simpl in Hlen |- *; lia. }
  cbn [String.length] in *.
  rewrite pushBits_value by lia. rewrite Z2Nat.id by lia.
  unfold toUint32. rewrite (Z.mod_small _ (2 ^ 32)).
  - apply Z.mod_small. lia.
  - assert (2 ^ (Z.of_nat (S (String.length r)) * 3 + 1) ≤ 2 ^ 32)
      by (apply Z.pow_le_mono_r; lia). lia.
Qed.

(** *** Alphanumeric mode *)

Lemma isAlphanumeric_cons (c : ascii) (s : string) :
  isAlphanumeric (String c s) = isAlphanumericChar c && isAlphanumeric s.
Proof. reflexivity. Qed.

Lemma alphanumericLength_step (n : Z) :
  0 ≤ n → alphanumericLength (n + 2) = 11 + alphanumericLength n.
Proof.
  intros H. unfold alphanumericLength.
  replace (n + 2) with (n + 1 * 2) by lia. rewrite Z.div_add, Z.mod_add by lia. lia.
Qed.

Lemma small_toUint32 (v : Z) : 0 ≤ v < 2 ^ 32 → toUint32 v = v.
Proof. intros H. unfold toUint32. by apply Z.mod_small. Qed.

Lemma alphanumericBits_fits (n : nat) (s : string) (bb : list Z) :
  (String.length s ≤ n)%nat → isAlphanumeric s = true →
  ∃ bits, alphanumericBits s bb = inr (bb ++ bits)%list
          ∧ Z.of_nat (List.length bits) = alphanumericLength (Z.of_nat (String.length s))
          ∧ Forall isBit bits.
Proof.
  revert s bb. induction n as [|n IH]; intros s bb Hn H.
  - destruct s; [|simpl in Hn; lia]. exists []. by rewrite app_nil_r.
  - destruct s as [|a [|b r]].
    + exists []. by rewrite app_nil_r.
    + cbn [alphanumericBits]. rewrite isAlphanumeric_cons in H.
      apply andb_true_iff in H as [Ha _]. apply alphanumeric_char in Ha.
      rewrite appendBits_fits by (rewrite ?small_toUint32; lia).
      eexists. split; [done|]. split; [by rewrite pushBits_length|apply pushBits_isBit].
    + cbn [alphanumericBits]. rewrite !isAlphanumeric_cons in H.
      apply andb_true_iff in H as [Ha H]. apply andb_true_iff in H as [Hb H].
      apply alphanumeric_char in Ha, Hb.
      rewrite appendBits_fits by (rewrite ?small_toUint32; lia).
      match goal with
      | |- context [alphanumericBits r ?bb1] =>
          destruct (IH r bb1) as (bits & -> & Hl & Hbits); [simpl in Hn; lia|done|]
      end.
      eexists. rewrite <- app_assoc. split; [done|]. split.
      * rewrite length_app, pushBits_length. cbn [String.length].
        replace (Z.of_nat (S (S (String.length r)))) with (Z.of_nat (String.length r) + 2)
          by lia.
        rewrite alphanumericLength_step by lia. lia.
      * apply Forall_app. split; [apply pushBits_isBit|done].
Qed.

Lemma makeAlphanumeric_fits (text : string) :
  isAlphanumeric text = true →
  ∃ bits, makeAlphanumeric text
          = inr (Build ALPHANUMERIC (Z.of_nat (String.length text)) bits).
Proof.
  intros H. unfold makeAlphanumeric. rewrite H. cbn [negb].
  destruct (alphanumericBits_fits _ text [] (le_n _) H) as (bits & -> & _).
  unfold constructor. rewrite (proj2 (Z.ltb_ge _ _)) by lia. by eexists.
Qed.

Lemma alphanumericValue_pair (a b : ascii) :
  alphanumericValue (String a (String b EmptyString))
  = indexOf ALPHANUMERIC_CHARSET a * 45 + indexOf ALPHANUMERIC_CHARSET b.
Proof. unfold alphanumericValue. cbn [list_ascii_of_string foldl]. lia. Qed.

Lemma alphanumericValue_single (a : ascii) :
  alphanumericValue (String a EmptyString) = indexOf ALPHANUMERIC_CHARSET a.
Proof. unfold alphanumericValue. cbn [list_ascii_of_string foldl]. lia. Qed.

Lemma alphanumericBits_groups (n : nat) (s : string) (bb : list Z) :
  (String.length s ≤ n)%nat → isAlphanumeric s = true →
  alphanumericBits s bb
  = inr (bb ++ flat_map (λ g, pushBits (alphanumericValue g) (alphanumericWidth g) [])
                 (alphanumericGroups s))%list.
Proof.
  revert s bb. induction n as [|n IH]; intros s bb Hn H.
  - destruct s; [|simpl in Hn; lia]. simpl. by rewrite app_nil_r.
  - destruct s as [|a [|b r]].
    + simpl. by rewrite app_nil_r.
    + cbn [alphanumericBits alphanumericGroups flat_map]. rewrite isAlphanumeric_cons in H.
      apply andb_true_iff in H as [Ha _]. apply alphanumeric_char in Ha.
      rewrite appendBits_fits by (rewrite ?small_toUint32; lia).
      rewrite alphanumericValue_single. by rewrite app_nil_r.
    + cbn [alphanumericBits alphanumericGroups flat_map]. rewrite !isAlphanumeric_cons in H.
      apply andb_true_iff in H as [Ha H]. apply andb_true_iff in H as [Hb H].
      apply alphanumeric_char in Ha, Hb.
      rewrite appendBits_fits by (rewrite ?small_toUint32; lia).
      rewrite IH by (done || simpl in Hn; lia).
      rewrite alphanumericValue_pair. by rewrite <- app_assoc.
Qed.

Lemma alphanumericGroups_fit (n : nat) (s : string) :
  (String.length s ≤ n)%nat → isAlphanumeric s = true →
  Forall (λ g, (alphanumericWidth g ≤ 31)%nat
               ∧ 0 ≤ alphanumericValue g < 2 ^ Z.of_nat (alphanumericWidth g))
    (alphanumericGroups s).
Proof.
  revert s. induction n as [|n IH]; intros s Hn H.
  - destruct s; [constructor|simpl in Hn; lia].
  - destruct s as [|a [|b r]]; cbn [alphanumericGroups].
    + constructor.
    + rewrite isAlphanumeric_cons in H. apply andb_true_iff in H as [Ha _].
      apply alphanumeric_char in Ha. constructor; [|constructor].
      rewrite alphanumericValue_single. unfold alphanumericWidth. simpl. lia.
    + rewrite !isAlphanumeric_cons in H.
      apply andb_true_iff in H as [Ha H]. apply andb_true_iff in H as [Hb H].
      apply alphanumeric_char in Ha, Hb. constructor.
      * rewrite alphanumericValue_pair. unfold alphanumericWidth. simpl. lia.
      * apply IH; [simpl in Hn; lia|done].
Qed.

(** X19.  [makeAlphanumeric(text)] throws exactly when the regular
    expression of the alphanumeric class does not match [text], and the
    class has the characters of [ALPHANUMERIC_CHARSET] and no others, so
    [indexOf] never gives [-1] and [appendBits] never throws in it.
    Otherwise the segment is in alphanumeric mode, its character count is
    the length of [text], and its bits are, group by group, the
    characters of [text] in groups of two (one at the end): a group of
    two as 45 times the index of the first character plus the index of
    the second in eleven bits, a single one as its index in six bits, and
    nothing else. *)
Theorem makeAlphanumeric_encoding (text : string) :
  match makeAlphanumeric text with
  | inl e => e = "String contains unencodable characters in alphanumeric mode"%string
             ∧ isAlphanumeric text = false
  | inr seg =>
      isAlphanumeric text = true
      ∧ mode seg = ALPHANUMERIC ∧ numChars seg = Z.of_nat (String.length text)
      ∧ Z.of_nat (List.length (bitData seg))
        = alphanumericLength (Z.of_nat (String.length text))
      ∧ Forall isBit (bitData seg)
      ∧ readGroups (alphanumericWidth <$> alphanumericGroups text) (bitData seg)
        = alphanumericValue <$> alphanumericGroups text
      ∧ List.length (bitData seg)
        = foldr Nat.add 0%nat (alphanumericWidth <$> alphanumericGroups text)
      ∧ (∀ a b, alphanumericValue (String a (String b EmptyString))
                = indexOf ALPHANUMERIC_CHARSET a * 45 + indexOf ALPHANUMERIC_CHARSET b)
      ∧ (∀ a, alphanumericValue (String a EmptyString) = indexOf ALPHANUMERIC_CHARSET a)
  end
  ∧ (isAlphanumeric text = true
     ↔ Forall (λ c, 0 ≤ indexOf ALPHANUMERIC_CHARSET c < 45) (list_ascii_of_string text)).
Proof.
  split.
  - unfold makeAlphanumeric. destruct (isAlphanumeric text) eqn:H; [|done]. cbn [negb].
    destruct (alphanumericBits_fits _ text [] (le_n _) H) as (bits & E & Hl & Hb).
    pose proof (alphanumericBits_groups _ text [] (le_n _) H) as Eg.
    cbn [app] in E, Eg.
    assert (Hbits : bits = flat_map (λ g, pushBits (alphanumericValue g)
                                            (alphanumericWidth g) [])
                             (alphanumericGroups text)) by congruence.
    rewrite E. unfold constructor. rewrite (proj2 (Z.ltb_ge _ _)) by lia. simpl.
    split; [done|]. split; [done|]. split; [done|]. split; [done|]. split; [done|].
    split.
    { rewrite Hbits. apply readGroups_pushBits. by apply (alphanumericGroups_fit _ _ (le_n _)). }
    split.
    { rewrite Hbits. clear. induction (alphanumericGroups text) as [|g gs IH]; [done|].
      cbn [flat_map fmap list_fmap foldr]. by rewrite length_app, pushBits_length, IH. }
    split; [apply alphanumericValue_pair|apply alphanumericValue_single].
  - induction text as [|c text IH].
    + split; [constructor|done].
    + rewrite isAlphanumeric_cons. cbn [list_ascii_of_string]. rewrite Forall_cons.
      rewrite andb_true_iff, IH, alphanumeric_char. done.
Qed.

(** *** Extended channel interpretation *)

Lemma pushBits_fits (v len : Z) :
  0 ≤ len ≤ 31 → 0 ≤ v < 2 ^ len → bitsValue (pushBits v (Z.to_nat len) []) = v.
Proof.
  intros Hl Hv. rewrite pushBits_value by lia. rewrite Z2Nat.id by lia.
  assert (2 ^ len ≤ 2 ^ 32) by (apply Z.pow_le_mono_r; lia).
  rewrite small_toUint32 by lia. by apply Z.mod_small.
Qed.

(** X20.  [makeEci(assignVal)] throws exactly when [assignVal] is
    negative or at least 1000000.  Otherwise the segment has no
    characters and 8, 16 or 24 bits, for a value below 128, below 16384
    and from there on: the value itself after the bits [0], [10] and
    [110]. *)
Theorem makeEci_prefix (assignVal : Z) :
  match makeEci assignVal with
  | inl e => e = "ECI assignment value out of range"%string
             ∧ (assignVal < 0 ∨ 1000000 ≤ assignVal)
  | inr seg =>
      mode seg = ECI ∧ numChars seg = 0 ∧ Forall isBit (bitData seg)
      ∧ ((0 ≤ assignVal < 128 ∧ List.length (bitData seg) = 8%nat
          ∧ bitsValue (bitData seg) = assignVal)
         ∨ (128 ≤ assignVal < 16384 ∧ List.length (bitData seg) = 16%nat
            ∧ bitsValue (bitData seg) = 2 * 2 ^ 14 + assignVal)
         ∨ (16384 ≤ assignVal < 1000000 ∧ List.length (bitData seg) = 24%nat
            ∧ bitsValue (bitData seg) = 6 * 2 ^ 21 + assignVal))
  end.
Proof.
  unfold makeEci. change (shl 1 7) with 128. change (shl 1 14) with 16384.
  destruct (assignVal <? 0) eqn:H0; [apply Z.ltb_lt in H0; split; [done|lia]|].
  apply Z.ltb_ge in H0.
  destruct (assignVal <? 128) eqn:H1; [apply Z.ltb_lt in H1|apply Z.ltb_ge in H1].
  { rewrite appendBits_fits by (rewrite ?small_toUint32; lia). unfold constructor.
    change (0 <? 0) with false. cbn [app mode numChars bitData].
    split; [done|]. split; [done|]. split; [apply pushBits_isBit|]. left.
    split; [done|]. split; [by rewrite pushBits_length|].
    apply pushBits_fits; lia. }
  destruct (assignVal <? 16384) eqn:H2; [apply Z.ltb_lt in H2|apply Z.ltb_ge in H2].
  { rewrite (appendBits_fits 2 2) by (rewrite ?small_toUint32; lia).
    rewrite appendBits_fits by (rewrite ?small_toUint32; lia). unfold constructor.
    change (0 <? 0) with false. cbn [app mode numChars bitData].
    split; [done|]. split; [done|].
    split; [apply Forall_app; split; apply pushBits_isBit|]. right. left.
    split; [done|]. split; [by rewrite length_app, !pushBits_length|].
    rewrite bitsValue_app, pushBits_length, !pushBits_fits by lia.
    change (Z.of_nat (Z.to_nat 14)) with 14. lia. }
  destruct (assignVal <? 1000000) eqn:H3; [apply Z.ltb_lt in H3|apply Z.ltb_ge in H3].
  { rewrite (appendBits_fits 6 3) by (rewrite ?small_toUint32; lia).
    rewrite appendBits_fits by (rewrite ?small_toUint32; lia). unfold constructor.
    change (0 <? 0) with false. cbn [app mode numChars bitData].
    split; [done|]. split; [done|].
    split; [apply Forall_app; split; apply pushBits_isBit|]. right. right.
    split; [done|]. split; [by rewrite length_app, !pushBits_length|].
    rewrite bitsValue_app, pushBits_length, !pushBits_fits by lia.
    change (Z.of_nat (Z.to_nat 21)) with 21. lia. }
  split; [done|lia].
Qed.

(** *** Text *)

Lemma char_code_uint32 (c : ascii) :
  toUint32 (Z.of_nat (nat_of_ascii c)) = Z.of_nat (nat_of_ascii c).
Proof. by_character c. Qed.

Lemma percentBytes_encodeURI (str : string) :
  percentBytes (encodeURI str) = Some <$> charCodes str.
Proof.
  unfold charCodes. induction str as [|c str IH]; [done|].
  cbn [encodeURI list_ascii_of_string fmap list_fmap].
  destruct (uriUnescaped c || uriReserved c || Ascii.eqb c "#") eqn:Hk.
  - cbn [percentBytes]. rewrite (kept_char c Hk). by rewrite IH.
  - cbn [percentBytes Ascii.eqb Bool.eqb]. cbv iota. rewrite escaped_char. by rewrite IH.
Qed.

Lemma charCodes_length (s : string) : List.length (charCodes s) = String.length s.
Proof.
  unfold charCodes. rewrite length_fmap. induction s as [|c s IH]; [done|].
  simpl. by rewrite IH.
Qed.

Lemma charCodes_bytes (s : string) : Forall (λ b, toUint32 b < 256) (charCodes s).
Proof.
  unfold charCodes. induction s as [|c s IH]; [constructor|].
  cbn [list_ascii_of_string fmap list_fmap]. constructor; [apply char_code_byte|done].
Qed.

Lemma charCodes_uint32 (s : string) : toUint32 <$> charCodes s = charCodes s.
Proof.
  unfold charCodes. induction s as [|c s IH]; [done|].
  cbn [list_ascii_of_string fmap list_fmap]. by rewrite char_code_uint32, IH.
Qed.


Lemma surrogate_byte (c : ascii) :
  Nat.eqb (nat_of_ascii c) 237 = true → isDigitChar c = false ∧ isAlphanumericChar c = false.
Proof. by_character c. Qed.

Lemma loneSurrogate_classes (text : string) :
  loneSurrogate text = true →
  text ≠ EmptyString ∧ isNumeric text = false ∧ isAlphanumeric text = false.
Proof.
  intros H. split; [by destruct text|].
  induction text as [|c text IH]; [done|].
  rewrite isNumeric_cons, isAlphanumeric_cons. cbn [loneSurrogate] in H.
  apply orb_true_iff in H as [H|H].
  - apply andb_true_iff in H as [H _]. apply surrogate_byte in H as [-> ->]. done.
  - destruct (IH H) as [-> ->]. by rewrite !andb_false_r.
Qed.

(** X22.  [makeSegments(text)] throws exactly when [text] has a lone
    surrogate, and then the URIError of [encodeURI]; such a text is
    neither empty nor of the numeric or the alphanumeric class.
    Otherwise it gives no segment for the empty string and one segment
    for any other: a numeric one for a string of digits, else an
    alphanumeric one for a string of the alphanumeric class, else a byte
    one, whose bits are the UTF-8 bytes of [text] and whose character
    count is their number. *)
Theorem makeSegments_cases (text : string) :
  match makeSegments text with
  | inl e => e = URIError ∧ loneSurrogate text = true
  | inr segs =>
      loneSurrogate text = false
      ∧ (text = EmptyString → segs = [])
      ∧ (text ≠ EmptyString →
         ∃ seg, segs = [seg]
           ∧ mode seg = (if isNumeric text then NUMERIC
                         else if isAlphanumeric text then ALPHANUMERIC else BYTE)
           ∧ numChars seg = Z.of_nat (String.length text)
           ∧ (mode seg = BYTE →
              groupsOf (String.length text) 8 (bitData seg) = charCodes text))
  end.
Proof.
  destruct (loneSurrogate text) eqn:Hs.
  - destruct (loneSurrogate_classes text Hs) as (He & Hn & Ha).
    unfold makeSegments. rewrite (proj2 (String.eqb_neq _ _) He), Hn, Ha, Hs. done.
  - unfold makeSegments. destruct (String.eqb text "") eqn:He.
    { apply String.eqb_eq in He. by split. }
    apply String.eqb_neq in He.
    destruct (isNumeric text) eqn:Hn.
    { destruct (makeNumeric_fits text Hn) as (bits & ->).
      split; [done|]. split; [done|]. intros _. eexists. by repeat split. }
    destruct (isAlphanumeric text) eqn:Ha.
    { destruct (makeAlphanumeric_fits text Ha) as (bits & ->).
      split; [done|]. split; [done|]. intros _. eexists. by repeat split. }
    rewrite Hs. unfold toUtf8ByteArray. rewrite percentBytes_encodeURI.
    assert (Hop : operand <$> (Some <$> charCodes text) = charCodes text).
    { rewrite <- list_fmap_compose. apply list_fmap_id. }
    rewrite Hop. unfold makeBytes. rewrite bytesBits_fits by apply charCodes_bytes.
    unfold constructor. rewrite (proj2 (Z.ltb_ge _ _)) by lia.
    split; [done|]. split; [done|]. intros _. eexists. split; [done|].
    cbn [mode numChars bitData app]. rewrite charCodes_length.
    split; [done|]. split; [done|]. intros _.
    rewrite <- (charCodes_length text). rewrite byteBits_groups by apply charCodes_bytes.
    apply charCodes_uint32.
Qed.

(** *** The length of the bit stream *)

Lemma totalFrom_shift (f : Mode → Z → Z) (version : Z) (segs : list t) (result : Z) :
  totalFrom f version segs result
  = match totalFrom f version segs 0 with
    | Finite n => Finite (result + n)
    | Infinity => Infinity
    end.
Proof.
  revert result. induction segs as [|seg segs IH]; intros result; simpl.
  - f_equal. lia.
  - destruct (_ >=? _); [done|]. rewrite IH. rewrite (IH (0 + _)).
    destruct (totalFrom f version segs 0); [|done]. f_equal. lia.
Qed.

(** X23.  [getTotalBits(segs, version)] is [Infinity] exactly when the
    character count of some segment is not below [1 << ccbits] for the
    width [ccbits] of its mode; otherwise it is the sum, over the
    segments, of 4, the width and the number of data bits.  For two lists
    of segments it is the sum of their totals, [Infinity] if one is. *)
Theorem getTotalBits_sum (numCharCountBits : Mode → Z → Z) (segs more : list t)
    (version : Z) :
  let fits seg := numChars seg < shl 1 (numCharCountBits (mode seg) version) in
  let bits seg := 4 + numCharCountBits (mode seg) version
                  + Z.of_nat (List.length (bitData seg)) in
  match getTotalBits numCharCountBits segs version with
  | Finite n => Forall fits segs ∧ n = foldr Z.add 0 (bits <$> segs)
  | Infinity => Exists (λ seg, ¬ fits seg) segs
  end
  ∧ getTotalBits numCharCountBits (segs ++ more) version
    = match getTotalBits numCharCountBits segs version,
            getTotalBits numCharCountBits more version with
      | Finite n, Finite m => Finite (n + m)
      | _, _ => Infinity
      end.
Proof.
  intros fits bits. unfold getTotalBits. split.
  - induction segs as [|seg segs IH]; [by split|]. cbn [totalFrom].
    destruct (_ >=? _) eqn:H.
    + apply Exists_cons_hd. unfold fits. rewrite Z.geb_le in H. lia.
    + rewrite Z.geb_leb in H. apply Z.leb_gt in H. rewrite totalFrom_shift.
      destruct (totalFrom numCharCountBits version segs 0) as [n|].
      * destruct IH as [IH ->]. split; [by constructor|]. cbn [fmap list_fmap foldr].
        unfold bits. lia.
      * by apply Exists_cons_tl.
  - induction segs as [|seg segs IH]; cbn [app totalFrom].
    + destruct (totalFrom numCharCountBits version more 0); [|done]. f_equal.
    + destruct (_ >=? _); [done|].
      rewrite (totalFrom_shift _ _ (segs ++ more)%list (0 + _)), IH.
      rewrite (totalFrom_shift _ _ segs (0 + _)).
      destruct (totalFrom numCharCountBits version segs 0); [|done].
      destruct (totalFrom numCharCountBits version more 0); [|done]. f_equal. lia.
Qed.

End Segments.

(** ** The picture *)

Section Picture.

Local Open Scope Z_scope.

Lemma pretty_N_char_number (x : N) : isNumberChar (pretty_N_char x) = true.
Proof. unfold pretty_N_char. by repeat case_match. Qed.

Lemma pretty_N_go_number (x : N) (s : string) :
  isNumberText s = true → isNumberText (pretty_N_go x s) = true.
Proof.
  revert s. induction (N.lt_wf_0 x) as [x _ IH]; intros s Hs.
  assert (x = 0 ∨ 0 < x)%N as [->|Hx] by lia.
  - by rewrite pretty_N_go_0.
  - rewrite pretty_N_go_step by done. apply IH; [by apply N.div_lt|].
    unfold isNumberText. cbn [list_ascii_of_string forallb].
    by rewrite pretty_N_char_number.
Qed.

Lemma pretty_N_number (x : N) : isNumberText (pretty x) = true.
Proof.
  unfold pretty, pretty_N. case_decide; [done|]. by apply pretty_N_go_number.
Qed.

Lemma pretty_Z_number (z : Z) : isNumberText (pretty z) = true.
Proof.
  destruct z as [|p|p]; [done|apply pretty_N_number|].
  unfold pretty, pretty_Z. rewrite append_cons_l, append_nil_l.
  unfold isNumberText. cbn [list_ascii_of_string forallb]. apply pretty_N_number.
Qed.

Lemma split_at (c : ascii) (p p' r r' : string) :
  isNumberText p = true → isNumberText p' = true → isNumberChar c = false →
  p +:+ String c r = p' +:+ String c r' → p = p' ∧ r = r'.
Proof.
  intros Hp Hp' Hc. revert p' Hp'. induction p as [|d p IH]; intros [|d' p'] Hp' E.
  - rewrite !append_nil_l in E. by injection E.
  - rewrite append_nil_l, append_cons_l in E. injection E as -> _.
    unfold isNumberText in Hp'. cbn [list_ascii_of_string forallb] in Hp'.
    apply andb_true_iff in Hp' as [Hp' _]. congruence.
  - rewrite append_nil_l, append_cons_l in E. injection E as -> _.
    unfold isNumberText in Hp. cbn [list_ascii_of_string forallb] in Hp.
    apply andb_true_iff in Hp as [Hp _]. congruence.
  - rewrite !append_cons_l in E. injection E as -> E.
    unfold isNumberText in Hp, Hp'. cbn [list_ascii_of_string forallb] in Hp, Hp'.
    apply andb_true_iff in Hp as [_ Hp]. apply andb_true_iff in Hp' as [_ Hp'].
    destruct (IH Hp p' Hp' E) as [-> ->]. done.
Qed.

Lemma moduleCommand_inj (border x y x' y' : Z) :
  moduleCommand border x y = moduleCommand border x' y' → x = x' ∧ y = y'.
Proof.
  unfold moduleCommand. rewrite !append_cons_l, !append_nil_l. intros [= E].
  apply split_at in E as [Ex E]; [|apply pretty_Z_number..|done].
  apply split_at in E as [Ey _]; [|apply pretty_Z_number..|done].
  apply (inj pretty) in Ex, Ey. lia.
Qed.

Lemma elem_of_below (n z : Z) : z ∈ below n ↔ 0 ≤ z < n.
Proof.
  unfold below. rewrite list_elem_of_fmap. split.
  - intros (k & -> & Hk). apply elem_of_seq in Hk. lia.
  - intros H. exists (Z.to_nat z). split; [lia|]. apply elem_of_seq. lia.
Qed.

Lemma elem_of_svgParts (qr : QrCode) (border : Z) (c : string) :
  c ∈ svgParts qr border
  ↔ ∃ x y, 0 ≤ x < QrCode.size qr ∧ 0 ≤ y < QrCode.size qr
           ∧ QrCode.getModule qr x y = true ∧ c = moduleCommand border x y.
Proof.
  unfold svgParts. rewrite list_elem_of_bind. split.
  - intros (y & Hc & Hy). apply list_elem_of_bind in Hc as (x & Hc & Hx).
    apply elem_of_below in Hx, Hy. exists x, y.
    destruct (QrCode.getModule qr x y); [|by apply elem_of_nil in Hc].
    apply list_elem_of_singleton in Hc. done.
  - intros (x & y & Hx & Hy & Hd & ->). exists y. split; [|by apply elem_of_below].
    apply list_elem_of_bind. exists x. split; [|by apply elem_of_below].
    rewrite Hd. by apply list_elem_of_singleton.
Qed.

Lemma length_parts (g : Z → Z → bool) (cmd : Z → Z → string) (ys xs : list Z) :
  List.length (y ← ys; x ← xs; if g x y then [cmd x y] else [])
  = List.length (filter (λ yx, g yx.2 yx.1 = true) (y ← ys; x ← xs; [(y, x)])).
Proof.
  induction ys as [|y ys IH]; [done|]. cbn [mbind list_bind]. 
  rewrite filter_app, !length_app, IH. f_equal.
  clear IH. induction xs as [|x xs IH]; [done|]. cbn [mbind list_bind app].
  rewrite length_app, IH. rewrite filter_cons. cbn [fst snd].
  destruct (g x y); simpl; done.
Qed.

Lemma NoDup_below (n : Z) : NoDup (below n).
Proof. unfold below. apply NoDup_fmap_2; [apply _|apply NoDup_seq]. Qed.

Lemma NoDup_svgParts (qr : QrCode) (border : Z) : NoDup (svgParts qr border).
Proof.
  unfold svgParts. apply NoDup_bind; [| |apply NoDup_below].
  - intros y1 y2 c _ _ H1 H2.
    apply list_elem_of_bind in H1 as (x1 & H1 & _), H2 as (x2 & H2 & _).
    destruct (QrCode.getModule qr x1 y1); [|by apply elem_of_nil in H1].
    destruct (QrCode.getModule qr x2 y2); [|by apply elem_of_nil in H2].
    apply list_elem_of_singleton in H1, H2. subst c.
    by apply moduleCommand_inj in H2 as [_ ->].
  - intros y _. apply NoDup_bind; [| |apply NoDup_below].
    + intros x1 x2 c _ _ H1 H2.
      destruct (QrCode.getModule qr x1 y); [|by apply elem_of_nil in H1].
      destruct (QrCode.getModule qr x2 y); [|by apply elem_of_nil in H2].
      apply list_elem_of_singleton in H1, H2. subst c.
      by apply moduleCommand_inj in H2 as [-> _].
    + intros x _. destruct (QrCode.getModule qr x y); [apply NoDup_singleton|apply NoDup_nil_2].
Qed.

Lemma parts_positions (g : Z → Z → bool) (cmd : Z → Z → string) (ys xs : list Z) :
  (y ← ys; x ← xs; if g x y then [cmd x y] else [])
  = (λ yx, cmd yx.2 yx.1)
    <$> filter (λ yx, g yx.2 yx.1 = true) (y ← ys; x ← xs; [(y, x)]).
Proof.
  induction ys as [|y ys IH]; [done|]. cbn [mbind list_bind].
  rewrite filter_app, fmap_app, IH. f_equal.
  clear IH. induction xs as [|x xs IH]; [done|]. cbn [mbind list_bind app].
  rewrite IH. rewrite filter_cons. cbn [fst snd].
  destruct (g x y); simpl; done.
Qed.

Lemma svgParts_positions (qr : QrCode) (border : Z) :
  svgParts qr border = (λ yx, moduleCommand border yx.2 yx.1) <$> darkPositions qr.
Proof. apply parts_positions. Qed.

Lemma toSvgString_document (qr : QrCode) (border : Z) (lightColor darkColor : string) :
  0 ≤ border →
  toSvgString qr border lightColor darkColor
  = inr (svgDocument (QrCode.size qr + 2 * border) lightColor darkColor (svgParts qr border)).
Proof.
  intros H. unfold toSvgString. rewrite (proj2 (Z.ltb_ge _ _)) by lia. cbv zeta. f_equal.
  rewrite (Z.mul_comm border 2).
  unfold svgDocument, attribute. cbn [String.concat].
  repeat rewrite ?append_assoc, ?append_cons_l, ?append_nil_l. reflexivity.
Qed.

(** X24.  [toSvgString(qr, border, lightColor, darkColor)] throws
    exactly when [border] is negative.  Otherwise the string it returns is
    an SVG document of six lines: the declaration, the document type, the
    [svg] element with a view box of the size of the code plus twice the
    border, a rectangle over the whole picture in the light colour, and
    one path in the dark colour.  The path has, separated by spaces and
    row by row, one command for each dark module of the code, and none
    for a light one or for a position outside the code: the command of
    [(x, y)] is among them exactly when [x] and [y] are from 0 to the size
    of the code and the module there is dark, and no command occurs
    twice. *)
Theorem toSvgString_modules (qr : QrCode) (border : Z) (lightColor darkColor : string) :
  match toSvgString qr border lightColor darkColor with
  | inl e => e = "Border must be non-negative"%string ∧ border < 0
  | inr svg =>
      0 ≤ border
      ∧ ∃ commands,
          svg = svgDocument (QrCode.size qr + 2 * border) lightColor darkColor commands
          ∧ commands = (λ yx, moduleCommand border yx.2 yx.1) <$> darkPositions qr
          ∧ List.length commands = darkModules qr
          ∧ NoDup commands
          ∧ ∀ x y, moduleCommand border x y ∈ commands
                   ↔ 0 ≤ x < QrCode.size qr ∧ 0 ≤ y < QrCode.size qr
                     ∧ QrCode.getModule qr x y = true
  end.
Proof.
  destruct (Z.lt_ge_cases border 0) as [Hb|Hb].
  - unfold toSvgString. by rewrite (proj2 (Z.ltb_lt _ _) Hb).
  - rewrite toSvgString_document by done. split; [done|].
    exists (svgParts qr border). split; [done|]. split; [apply svgParts_positions|].
    split; [apply length_parts|]. split; [apply NoDup_svgParts|].
    intros x y. rewrite elem_of_svgParts. split.
    + intros (x' & y' & Hx & Hy & Hd & E). by apply moduleCommand_inj in E as [-> ->].
    + intros (Hx & Hy & Hd). by exists x, y.
Qed.

End Picture.

(** ** A request without an ack does not stay pending *)

Section Liveness.

Variable config : Config.
Variable env : Env.

Lemma Shrinks_refl (s : State) : Shrinks s s.
Proof. constructor; auto. Qed.

Lemma Shrinks_trans (s1 s2 s3 : State) : Shrinks s1 s2 → Shrinks s2 s3 → Shrinks s1 s3.
Proof.
  intros [Hq Ht Hn] [Hq' Ht' Hn']. constructor.
  - auto.
  - intros h t Hl. destruct (Ht' h t Hl) as [H|H]; [auto|by right].
  - lia.
Qed.

Lemma Shrinks_known (s s' : State) (p : PendingMessage) :
  Shrinks s s' → known s' p → known s p.
Proof. intros [Hq Ht _]. by apply known_mono. Qed.

Lemma nextTimer_settle (i : nat) (v : Settlement) (s : State) :
  nextTimer (settle i v s) = nextTimer s.
Proof. unfold settle. by destruct (promises s !! i). Qed.

Lemma nextTimer_removeFromQueue (a : string) (s : State) :
  nextTimer (removeFromQueue a s) = nextTimer s.
Proof. unfold removeFromQueue, clearReplyTimer. by destruct (getPendingMessage a s). Qed.

Lemma Shrinks_settle (i : nat) (v : Settlement) (s : State) : Shrinks s (settle i v s).
Proof.
  destruct (settle_core i v s) as (Hq & Ht & _). constructor.
  - intros q. by rewrite Hq.
  - intros h t. rewrite Ht. auto.
  - by rewrite nextTimer_settle.
Qed.

Lemma Shrinks_removeFromQueue (a : string) (s : State) : Shrinks s (removeFromQueue a s).
Proof.
  constructor.
  - intros q. rewrite queue_removeFromQueue. intros H.
    by apply list_elem_of_filter in H as [_ H].
  - intros h t. rewrite timers_removeFromQueue. destruct (getPendingMessage a s); [|auto].
    intros H. apply lookup_delete_Some in H as [_ H]. auto.
  - by rewrite nextTimer_removeFromQueue.
Qed.

Lemma Shrinks_clearTimeout (h : nat) (s : State) : Shrinks s (clearTimeout h s).
Proof.
  constructor; simpl; auto.
  intros h' t H. apply lookup_delete_Some in H as [_ H]. auto.
Qed.

Lemma Shrinks_same (s s' : State) :
  queue s' = queue s → timers s' = timers s → nextTimer s' = nextTimer s → Shrinks s s'.
Proof. intros Hq Ht Hn. constructor; rewrite ?Hq, ?Ht, ?Hn; auto. Qed.

Lemma Shrinks_onAckTimeout (p : PendingMessage) (s : State) : Shrinks s (onAckTimeout p s).
Proof.
  unfold onAckTimeout.
  eapply Shrinks_trans; [|apply Shrinks_clearTimeout].
  eapply Shrinks_trans; [|apply Shrinks_removeFromQueue].
  eapply Shrinks_trans; [apply (Shrinks_same s (logTransition p TAckTimeout s)); done|].
  case_bool_decide; apply Shrinks_settle.
Qed.

Lemma Shrinks_onReplyTimeout (p : PendingMessage) (s : State) :
  Shrinks s (onReplyTimeout p s).
Proof.
  unfold onReplyTimeout.
  eapply Shrinks_trans; [|apply Shrinks_removeFromQueue].
  eapply Shrinks_trans; [apply (Shrinks_same s (logTransition p TReplyTimeout s)); done|].
  apply Shrinks_settle.
Qed.

Lemma Shrinks_fire (h : nat) (s : State) : Shrinks s (fire h s).
Proof.
  unfold fire. destruct (timers s !! h) as [t|]; [|apply Shrinks_refl].
  set (s1 := setNow (Z.max (now s) (due t)) (setTimers (delete h (timers s)) s)).
  assert (H1 : Shrinks s s1).
  { constructor; simpl; auto. intros h' t' H.
    apply lookup_delete_Some in H as [_ H]. auto. }
  destruct (callback t) as [p|p|]; [| |done].
  - eapply Shrinks_trans; [exact H1|apply Shrinks_onAckTimeout].
  - eapply Shrinks_trans; [exact H1|apply Shrinks_onReplyTimeout].
Qed.

Lemma Shrinks_fireDue (fuel : nat) (deadline : Z) (s : State) :
  Shrinks s (fireDue fuel deadline s).
Proof.
  revert s. induction fuel as [|fuel IH]; intros s; simpl; [apply Shrinks_refl|].
  destruct (earliest s) as [[h t]|]; [|apply Shrinks_refl].
  destruct (Z.leb _ _); [|apply Shrinks_refl].
  eapply Shrinks_trans; [apply Shrinks_fire|apply IH].
Qed.

Lemma Shrinks_receive (m : Message) (s : State) : Shrinks s (receive env m s).
Proof.
  unfold receive. destruct (negb _); [apply Shrinks_refl|].
  destruct (getPendingMessage _ s) as [p|]; [|apply Shrinks_refl].
  repeat case_bool_decide; try apply Shrinks_refl.
  - eapply Shrinks_trans; [|apply Shrinks_clearTimeout].
    by apply Shrinks_same.
  - eapply Shrinks_trans; [|apply Shrinks_removeFromQueue].
    eapply Shrinks_trans; [apply (Shrinks_same s (logTransition p TSuccess s)); done|].
    apply Shrinks_settle.
  - eapply Shrinks_trans; [|apply Shrinks_removeFromQueue].
    eapply Shrinks_trans; [apply (Shrinks_same s (logTransition p TFailure s)); done|].
    unfold reject, rejectWithMessage. destruct (Message.error m); apply Shrinks_settle.
Qed.

Lemma Shrinks_sendAckMessage (hidden : bool) (s : State) (m : Message) :
  Shrinks s (sendAckMessage config hidden s m).
Proof.
  unfold sendAckMessage. destruct hidden; [|apply Shrinks_refl].
  constructor; simpl; auto.
  intros h t H. apply lookup_insert_Some in H as [[_ <-]|[_ H]]; auto.
Qed.

Lemma Shrinks_visibilityChange (hidden : bool) (l : list Message) (s : State) :
  Shrinks s (foldl (sendAckMessage config hidden) s l).
Proof.
  revert s. induction l as [|m l IH]; intros s; simpl; [apply Shrinks_refl|].
  eapply Shrinks_trans; [apply Shrinks_sendAckMessage|apply IH].
Qed.

Lemma HandleInv_shrinks (s s' : State) : HandleInv s → Shrinks s s' → HandleInv s'.
Proof.
  intros [Hb Ha] Hs. pose proof (sh_next _ _ Hs). constructor.
  - intros p Hp. apply (Shrinks_known _ _ _ Hs) in Hp. specialize (Hb p Hp). lia.
  - intros p q Hp Hq. apply Ha; by apply (Shrinks_known _ _ _ Hs).
Qed.

Lemma HandleInv_registered (m : Message) (timeout : Z) (s : State) :
  HandleInv s → HandleInv (registered config m timeout s).
Proof.
  intros [Hb Ha]. pose proof (known_registered config m timeout s) as Hk. constructor.
  - intros p Hp. simpl. destruct (Hk p Hp) as [->|Hold]; [simpl; lia|].
    specialize (Hb p Hold). lia.
  - intros p q Hp Hq. destruct (Hk p Hp) as [->|Hp'], (Hk q Hq) as [->|Hq']; simpl.
    + lia.
    + specialize (Hb q Hq'). lia.
    + specialize (Hb p Hp'). lia.
    + by apply Ha.
Qed.

Lemma HandleInv_same (s s' : State) :
  queue s' = queue s → timers s' = timers s → nextTimer s' = nextTimer s →
  HandleInv s → HandleInv s'.
Proof. intros Hq Ht Hn HI. apply (HandleInv_shrinks s); [done|by apply Shrinks_same]. Qed.

Lemma HandleInv_step (s : State) (e : Event) : HandleInv s → HandleInv (step config env s e).
Proof.
  intros HI. destruct e as [m t|m| |h|ms|req code|req|hidden]; simpl.
  - unfold send. destruct (getPendingMessage _ s); [done|].
    destruct (negb _); [done|]. fold (registered config m t s).
    pose proof (HandleInv_registered m t s HI) as HR.
    destruct (publishMessage _ _ _ _ _) as [e|s'] eqn:Hp; [done|]. simpl.
    apply publishMessage_core in Hp as (? & ? & _ & _ & ? & _).
    by apply (HandleInv_same (registered config m t s)).
  - apply (HandleInv_shrinks s); [done|apply Shrinks_receive].
  - destruct (bus s) as [|m rest]; [done|].
    apply (HandleInv_shrinks s); [done|].
    eapply Shrinks_trans; [|apply Shrinks_receive]. by apply Shrinks_same.
  - apply (HandleInv_shrinks s); [done|apply Shrinks_fire].
  - apply (HandleInv_shrinks s); [done|]. unfold elapse.
    eapply Shrinks_trans; [apply Shrinks_fireDue|]. by apply Shrinks_same.
  - destruct (requests s !! req) as [[o [m|]]|]; try done.
    unfold onResponse. destruct (Z.eqb _ _); by apply (HandleInv_same s).
  - destruct (requests s !! req) as [[o [m|]]|]; try done.
    by apply (HandleInv_same s).
  - apply (HandleInv_shrinks s); [done|apply Shrinks_visibilityChange].
Qed.

Lemma HandleInv_run (events : list Event) : HandleInv (run config env events initial).
Proof.
  induction events as [|e events IH] using rev_ind.
  - constructor.
    + intros p [Hp|(h & t & Hl & _)]; [by apply elem_of_nil in Hp|done].
    + intros p q [Hp|(h & t & Hl & _)]; [by apply elem_of_nil in Hp|done].
  - rewrite run_snoc. by apply HandleInv_step.
Qed.

(** A timer that fires disarms itself and reply timers, nothing else. *)
Lemma fire_keeps_ack (h0 : nat) (s : State) (p : PendingMessage) :
  Inv s → HandleInv s → known s p → h0 ≠ ackTimer p →
  timers (fire h0 s) !! ackTimer p = timers s !! ackTimer p.
Proof.
  intros HI HH Hp Hne. unfold fire. destruct (timers s !! h0) as [t|] eqn:Hh0; [|done].
  set (s1 := setNow (Z.max (now s) (due t)) (setTimers (delete h0 (timers s)) s)).
  assert (Ht1 : timers s1 !! ackTimer p = timers s !! ackTimer p).
  { simpl. by rewrite lookup_delete_ne. }
  assert (Hrm : ∀ a s2, queue s2 = queue s →
            timers (removeFromQueue a s2) !! ackTimer p = timers s2 !! ackTimer p).
  { intros a s2 Hq. rewrite timers_removeFromQueue.
    destruct (getPendingMessage a s2) as [q|] eqn:Hf; [|done].
    apply getPendingMessage_Some in Hf as [Hin _]. rewrite Hq in Hin.
    rewrite lookup_delete_ne; [done|]. intros E. symmetry in E. revert E.
    apply (hi_apart s HH); [done|by left]. }
  destruct (callback t) as [q|q|] eqn:Hc; [| |done].
  - assert (Hq : known s q) by (right; exists h0, t; auto).
    unfold onAckTimeout.
    change (timers (clearTimeout ?x ?y)) with (delete x (timers y)).
    rewrite lookup_delete_ne.
    2: { intros E. symmetry in E. revert E. by apply (hi_apart s HH). }
    rewrite Hrm.
    + case_bool_decide; unfold reject; by rewrite (proj1 (proj2 (settle_core _ _ _))).
    + case_bool_decide; unfold reject; by rewrite (proj1 (settle_core _ _ _)).
  - unfold onReplyTimeout. rewrite Hrm.
    + unfold reject. by rewrite (proj1 (proj2 (settle_core _ _ _))).
    + unfold reject. by rewrite (proj1 (settle_core _ _ _)).
Qed.

Lemma fire_settles (s : State) (p : PendingMessage) (d : Z) :
  timers s !! ackTimer p = Some {| due := d; callback := AckTimeout p |} →
  is_Some (promises (fire (ackTimer p) s) !! promise p).
Proof.
  intros H. unfold fire. rewrite H. cbn [callback due].
  set (s1 := setNow _ _). destruct (promises s1 !! promise p) as [v|] eqn:E.
  - exists v. unfold onAckTimeout.
    change (promises (clearTimeout ?x ?y)) with (promises y).
    rewrite promises_removeFromQueue. case_bool_decide; by apply promises_settle_Some.
  - rewrite promises_onAckTimeout by done. by eexists.
Qed.

Lemma fireDue_settles (fuel : nat) (deadline : Z) (s : State) (p : PendingMessage) (d : Z) :
  Inv s → HandleInv s → (size (timers s) ≤ fuel)%nat →
  timers s !! ackTimer p = Some {| due := d; callback := AckTimeout p |} →
  (d ≤ deadline)%Z →
  is_Some (promises (fireDue fuel deadline s) !! promise p).
Proof.
  revert s. induction fuel as [|fuel IH]; intros s HI HH Hsize Hp Hd.
  - assert (timers s = ∅) as E by (apply map_size_empty_iff; lia).
    by rewrite E, lookup_empty in Hp.
  - cbn [fireDue]. destruct (earliest s) as [[h0 t0]|] eqn:E.
    2: { apply earliest_None in E. by rewrite E, lookup_empty in Hp. }
    destruct (earliest_Some s h0 t0 E) as [Hh0 Hmin].
    pose proof (Hmin _ _ Hp) as Hle. cbn [due] in Hle.
    rewrite (proj2 (Z.leb_le (due t0) deadline)) by lia.
    destruct (decide (h0 = ackTimer p)) as [->|Hne].
    + destruct (fire_settles s p d Hp) as [v Hv]. exists v. by apply promises_fireDue.
    + apply (IH _ (Inv_fire h0 s HI)
               (HandleInv_shrinks _ _ HH (Shrinks_fire h0 s))).
      * pose proof (map_subseteq_size _ _ (timers_fire h0 s t0 Hh0)) as Hsz.
        rewrite map_size_delete, Hh0 in Hsz. simpl in Hsz.
        assert (size (timers s) ≠ 0)%nat; [|lia].
        intros Hz. apply map_size_empty_iff in Hz. by rewrite Hz, lookup_empty in Hh0.
      * rewrite fire_keeps_ack; try done. right.
        exists (ackTimer p), {| due := d; callback := AckTimeout p |}.
        split; [done|by left].
      * done.
Qed.

(** X25.  In every state the service can reach, a request whose ack timer
    is armed does not stay pending beyond the handshake deadline: once the
    time the timer is due has passed with no other event, the promise of
    the request is settled.  (No timer that fires before it disarms it:
    they clear reply timers only, and no reply timer has the handle of an
    ack timer.) *)
Theorem unacked_request_settles (events : list Event) (p : PendingMessage) (d ms : Z) :
  let s := run config env events initial in
  timers s !! ackTimer p = Some {| due := d; callback := AckTimeout p |} →
  (d ≤ now s + ms)%Z →
  is_Some (promises (step config env s (EElapse ms)) !! promise p).
Proof.
  intros s Hp Hd. unfold step, elapse.
  change (promises (setNow ?x ?y)) with (promises y).
  apply (fireDue_settles _ _ s p d); try done.
  - apply Inv_run.
  - apply HandleInv_run.
Qed.

End Liveness.

Lemma unacked_request_settles_witness :
  is_Some (promises (run exampleConfig exampleEnv [ESend authenticate 30000; EElapse 1000]
                       initial) !! 0).
Proof.
  apply (unacked_request_settles exampleConfig exampleEnv [ESend authenticate 30000]
           firstPending 1000 1000).
  - reflexivity.
  - vm_compute. discriminate.
Defined.

(** ** The segment code on concrete inputs *)

Lemma appendBits_round_trip_witness :
  ∃ bits, appendBits 5 3 [1%Z] = inr ([1%Z] ++ bits)%list ∧ bitsValue bits = 5%Z.
Proof.
  pose proof (appendBits_round_trip 5 3 [1%Z]) as H.
  destruct (appendBits 5 3 [1%Z]) as [e|bb'] eqn:E; [vm_compute in E; discriminate|].
  destruct H as (_ & _ & bits & -> & _ & _ & Hv). exists bits. split; [done|exact Hv].
Defined.

Lemma getBit_testbit_witness : getBit (-2) 31 = true ∧ getBit 5 33 = getBit 5 1.
Proof.
  destruct (getBit_testbit (-2) 31) as (H & _). destruct (getBit_testbit 5 1) as (_ & H' & _).
  split; [rewrite H by lia; reflexivity|exact H'].
Defined.

Lemma makeBytes_round_trip_witness :
  ∃ seg, QrSegment.makeBytes [72; 105]%Z = inr seg
         ∧ groupsOf 2 8 (QrSegment.bitData seg) = [72; 105]%Z.
Proof.
  pose proof (makeBytes_round_trip [72; 105]%Z) as H.
  destruct (QrSegment.makeBytes [72; 105]%Z) as [e|seg] eqn:E; [vm_compute in E; discriminate|].
  destruct H as (_ & _ & _ & _ & _ & Hg). exists seg. split; [done|exact Hg].
Defined.

Lemma makeNumeric_encoding_witness :
  ∃ seg, QrSegment.makeNumeric "0123456" = inr seg
         ∧ readGroups [10; 10; 4]%nat (QrSegment.bitData seg) = [12; 345; 6]%Z.
Proof.
  pose proof (makeNumeric_encoding "0123456") as H.
  destruct (QrSegment.makeNumeric "0123456") as [e|seg] eqn:E; [vm_compute in E; discriminate|].
  destruct H as (_ & _ & _ & _ & _ & Hg & _). exists seg. split; [done|exact Hg].
Defined.

Lemma makeAlphanumeric_encoding_witness :
  ∃ seg, QrSegment.makeAlphanumeric "AC-42" = inr seg
         ∧ readGroups [11; 11; 6]%nat (QrSegment.bitData seg) = [462; 1849; 2]%Z.
Proof.
  destruct (makeAlphanumeric_encoding "AC-42") as [H _].
  destruct (QrSegment.makeAlphanumeric "AC-42") as [e|seg] eqn:E;
    [vm_compute in E; discriminate|].
  destruct H as (_ & _ & _ & _ & _ & Hg & _). exists seg. split; [done|exact Hg].
Defined.

Lemma makeEci_prefix_witness :
  ∃ seg, QrSegment.makeEci 300 = inr seg
         ∧ bitsValue (QrSegment.bitData seg) = (2 * 2 ^ 14 + 300)%Z.
Proof.
  pose proof (makeEci_prefix 300) as H.
  destruct (QrSegment.makeEci 300) as [e|seg] eqn:E; [vm_compute in E; discriminate|].
  exists seg. split; [done|].
  destruct H as (_ & _ & _ & [(Hr & _)|[(_ & _ & Hv)|(Hr & _)]]); [lia|exact Hv|lia].
Defined.

Lemma makeSegments_cases_witness :
  QrSegment.makeSegments brokenText = inl URIError
  ∧ ∃ seg, QrSegment.makeSegments "a=1" = inr [seg]
           ∧ QrSegment.mode seg = QrSegment.BYTE ∧ QrSegment.numChars seg = 3%Z.
Proof.
  split.
  - pose proof (makeSegments_cases brokenText) as H.
    destruct (QrSegment.makeSegments brokenText) as [e|segs] eqn:E.
    + by destruct H as [-> _].
    + destruct H as [H _]. vm_compute in H. discriminate H.
  - pose proof (makeSegments_cases "a=1") as H.
    destruct (QrSegment.makeSegments "a=1") as [e|segs] eqn:E;
      [vm_compute in E; discriminate|].
    destruct H as (_ & _ & H). destruct H as (seg & -> & Hm & Hn & _); [discriminate|].
    exists seg. split; [done|]. split; [exact Hm|exact Hn].
Defined.

Lemma getTotalBits_sum_witness :
  ∃ a b, QrSegment.makeNumeric "2024" = inr a ∧ QrSegment.makeAlphanumeric "QR" = inr b
         ∧ QrSegment.getTotalBits exampleWidths [a; b] 1 = QrSegment.Finite 52.
Proof.
  destruct (QrSegment.makeNumeric "2024") as [e|a] eqn:Ea; [vm_compute in Ea; discriminate|].
  destruct (QrSegment.makeAlphanumeric "QR") as [e|b] eqn:Eb; [vm_compute in Eb; discriminate|].
  exists a, b. split; [done|]. split; [done|].
  destruct (getTotalBits_sum exampleWidths [a] [b] 1) as [_ H].
  change ([a] ++ [b])%list with [a; b] in H. rewrite H.
  vm_compute in Ea, Eb. injection Ea as <-. injection Eb as <-. reflexivity.
Defined.

Lemma toSvgString_modules_witness :
  ∃ svg, toSvgString diagonal 24 "#FFF" "#000" = inr svg
         ∧ svg = svgDocument 51 "#FFF" "#000" ["M24,24h1v1h-1z"; "M25,25h1v1h-1z"; "M26,26h1v1h-1z"].
Proof.
  pose proof (toSvgString_modules diagonal 24 "#FFF" "#000") as H.
  destruct (toSvgString diagonal 24 "#FFF" "#000") as [e|svg] eqn:E;
    [vm_compute in E; discriminate|].
  destruct H as (_ & commands & -> & -> & _). eexists. split; [reflexivity|]. reflexivity.
Defined.


(** ** The mobile flow on concrete inputs *)

Lemma send_throws_exactly_witness :
  fst (send exampleConfig exampleEnv onlyChallenge 30000 initial)
  = Throws (MissingParameterError "Missing parameters for IntentUrl.").
Proof.
  apply (send_throws_exactly exampleConfig exampleEnv onlyChallenge 30000 initial).
  - repeat split.
  - split; [reflexivity|]. split; [reflexivity|]. split; [reflexivity|]. left. reflexivity.
Defined.

Lemma visibilitychange_posts_acks_witness :
  let s := snd (send exampleConfig androidEnv authPair 30000 initial) in
  bus (step exampleConfig androidEnv s (EVisibilityChange true))
  = [Message.ofAction "web-eid:authenticate-ack"].
Proof.
  intros s. destruct (visibilitychange_posts_acks exampleConfig androidEnv s) as (_ & Hb & _).
  rewrite Hb. reflexivity.
Defined.

Lemma listeners_never_detached_witness :
  let s := run exampleConfig androidEnv [ESend authPair 30000; EVisibilityChange true] initial in
  Message.ofAction "web-eid:authenticate-ack"
  ∈ bus (step exampleConfig androidEnv (run exampleConfig androidEnv [EElapse 5000] s)
           (EVisibilityChange true)).
Proof.
  intros s.
  destruct (listeners_never_detached exampleConfig androidEnv [EElapse 5000] s) as (_ & H).
  apply (H authPair). vm_compute. left.
Defined.
